(** * Bazel language server: parser, parse cache, build graph and query client

    A shallow embedding of the Rust components described in
    [design/vscode-bazel-extension-build-parser.md] (the pest grammar,
    [BuildFileParser] and [ParseCache]) and in
    [design/vscode-bazel-extension-rust-design.md] ([BuildGraph] and
    [BazelClient]), followed by the properties of the specification that
    concern them. *)

From Stdlib Require Import ZArith Ascii String List Lia.
From stdpp Require Import base option list strings gmap fin_maps.

Local Open Scope string_scope.
Local Open Scope list_scope.

Set Warnings "-register-all".

(** ** Results of fallible Rust code

    [anyhow::Result<T>] is [Ok] or [Err]; a failing [unwrap] or an
    out-of-range slice is a [Panic], which no caller can observe as a
    value. *)

Inductive Error : Type :=
| PestError                      (* pest::error::Error: the grammar rejected the input *)
| ParseIntError                  (* std::num::ParseIntError from str::parse::<i64> *)
| IoError (msg : string)         (* std::io::Error *)
| Bail (msg : string)            (* anyhow::bail!(...) with its formatted message *)
| DecodeError (msg : string).    (* a failure decoding the tool's structured output *)

Inductive Result (A : Type) : Type :=
| Ok (a : A)
| Err (e : Error)
| Panic.

Arguments Ok {A} a.
Arguments Err {A} e.
Arguments Panic {A}.

Definition bind {A B : Type} (r : Result A) (k : A -> Result B) : Result B :=
  match r with
  | Ok a => k a
  | Err e => Err e
  | Panic => Panic
  end.

(** [let x = e?; k] *)
Notation "'try' x <- e ; k" := (bind e (fun x => k))
  (at level 10, x pattern, e at level 100, k at level 200).

Definition is_ok {A : Type} (r : Result A) : bool :=
  match r with Ok _ => true | _ => false end.

(** * The pest parser generated from [bazel/build.pest] *)

Module Pest.

(** The [Rule] enum that [#[derive(Parser)]] generates: one tag per grammar
    rule, and [EOI]. *)
Inductive RuleTag : Type :=
| WHITESPACE | COMMENT
| R_identifier | R_string | R_number | R_boolean | R_target_ref
| R_list | R_list_item | R_dict | R_dict_entry | R_value
| R_function_call | R_argument | R_load_stmt | R_assignment
| R_statement | R_file | EOI.

Global Instance RuleTag_eq_dec : EqDecision RuleTag.
Proof. solve_decision. Defined.

(** A [pest::iterators::Pair]: the rule that matched, the text it spans, the
    line and column where the span starts, and the pairs matched inside. *)
Inductive Pair : Type :=
| MkPair (rule : RuleTag) (text : string) (start : nat * nat) (inner : list Pair).

Definition as_rule (p : Pair) : RuleTag := let '(MkPair r _ _ _) := p in r.
Definition as_str (p : Pair) : string := let '(MkPair _ s _ _) := p in s.
Definition line_col (p : Pair) : nat * nat := let '(MkPair _ _ lc _) := p in lc.
Definition into_inner (p : Pair) : list Pair := let '(MkPair _ _ _ i) := p in i.

(** Parsing expressions of the pest language, as far as the grammar uses
    them. [Rep] is pest's [ParserState::repeat]: it has no surface syntax
    and is what [e*] and the implicit whitespace are made of. *)
Inductive expr : Type :=
| Str (s : string)          (* "literal" *)
| ANY
| ASCII_ALPHA
| ASCII_DIGIT
| ASCII_ALPHANUMERIC
| SOI
| EndOfInput                (* the body of the built-in rule EOI *)
| Seq (a b : expr)          (* a ~ b *)
| Alt (a b : expr)          (* a | b *)
| Opt (a : expr)            (* a? *)
| Star (a : expr)           (* a* *)
| Plus (a : expr)           (* a+ *)
| Not (a : expr)            (* !a *)
| Call (r : RuleTag)
| Rep (a : expr).

(** Rule modifiers: [_{ }] is silent, [@{ }] is atomic; pest runs
    WHITESPACE and COMMENT atomically whatever their modifier. *)
Record modifiers : Type := { silent : bool; atomic_body : bool }.

Definition normal : modifiers := {| silent := false; atomic_body := false |}.
Definition atomic_rule : modifiers := {| silent := false; atomic_body := true |}.
Definition trivia : modifiers := {| silent := true; atomic_body := true |}.

Declare Scope peg_scope.
Delimit Scope peg_scope with peg.
Bind Scope peg_scope with expr.
Coercion Str : string >-> expr.
Coercion Call : RuleTag >-> expr.
Notation "a ~~ b" := (Seq a b) (at level 40, left associativity) : peg_scope.
Notation "a // b" := (Alt a b) (at level 50, left associativity) : peg_scope.

Definition newline : string := String (ascii_of_nat 10) EmptyString.
Definition tab : string := String (ascii_of_nat 9) EmptyString.
Definition cr : string := String (ascii_of_nat 13) EmptyString.
Definition dquote : string := String (ascii_of_nat 34) EmptyString.
Definition squote : string := String (ascii_of_nat 39) EmptyString.

(** [bazel/build.pest], rule by rule. *)
Definition grammar (r : RuleTag) : modifiers * expr :=
  (match r with
   | WHITESPACE => (trivia, " " // tab // cr // newline)
   | COMMENT => (trivia, "#" ~~ Star (Not newline ~~ ANY))
   | R_identifier =>
       (atomic_rule, (ASCII_ALPHA // "_") ~~ Star (ASCII_ALPHANUMERIC // "_"))
   | R_string =>
       (atomic_rule,
        (dquote ~~ Star (Not dquote ~~ ANY) ~~ dquote)
        // (squote ~~ Star (Not squote ~~ ANY) ~~ squote))
   | R_number => (atomic_rule, Opt "-" ~~ Plus ASCII_DIGIT)
   | R_boolean => (normal, "True" // "False")
   | R_target_ref =>
       (atomic_rule,
        ("//" ~~ Star (Not ":" ~~ Not WHITESPACE ~~ ANY) ~~ ":" ~~ R_identifier)
        // (":" ~~ R_identifier)
        // R_identifier)
   | R_list =>
       (normal,
        "[" ~~ Opt (R_list_item ~~ Star ("," ~~ R_list_item)) ~~ Opt "," ~~ "]")
   | R_list_item =>
       (normal,
        R_string // R_target_ref // R_number // R_boolean // R_list // R_dict
        // R_function_call)
   | R_dict =>
       (normal,
        "{" ~~ Opt (R_dict_entry ~~ Star ("," ~~ R_dict_entry)) ~~ Opt "," ~~ "}")
   | R_dict_entry => (normal, R_string ~~ ":" ~~ R_value)
   | R_value =>
       (normal,
        R_string // R_number // R_boolean // R_list // R_dict // R_function_call
        // R_identifier)
   | R_function_call =>
       (normal,
        R_identifier ~~ "(" ~~ Opt (R_argument ~~ Star ("," ~~ R_argument))
        ~~ Opt "," ~~ ")")
   | R_argument => (normal, (R_identifier ~~ "=" ~~ R_value) // R_value)
   | R_load_stmt =>
       (normal,
        "load" ~~ "(" ~~ R_string ~~ Star ("," ~~ R_string ~~ "=" ~~ R_string)
        ~~ ")")
   | R_assignment => (normal, R_identifier ~~ "=" ~~ R_value)
   | R_statement => (normal, R_load_stmt // R_function_call // R_assignment)
   | R_file => (normal, SOI ~~ Star R_statement ~~ EOI)
   | EOI => (normal, EndOfInput)
   end)%peg.

(** The implicit [skip] between the parts of a sequence or repetition of a
    non-atomic rule: [WHITESPACE* ~ (COMMENT ~ WHITESPACE* )*], itself run
    without further skipping. *)
Definition skip_expr : expr :=
  Seq (Rep WHITESPACE) (Rep (Seq COMMENT (Rep WHITESPACE))).

Definition is_alpha (c : ascii) : bool :=
  let n := nat_of_ascii c in
  (Nat.leb 65 n && Nat.leb n 90) || (Nat.leb 97 n && Nat.leb n 122).

Definition is_digit (c : ascii) : bool :=
  let n := nat_of_ascii c in Nat.leb 48 n && Nat.leb n 57.

Fixpoint strip_prefix (p s : string) : option string :=
  match p, s with
  | EmptyString, _ => Some s
  | String a p', String b s' => if Ascii.eqb a b then strip_prefix p' s' else None
  | String _ _, EmptyString => None
  end.

Fixpoint take_str (n : nat) (s : string) : string :=
  match n, s with
  | S n', String c s' => String c (take_str n' s')
  | _, _ => EmptyString
  end.

(** The bytes of a UTF-8 sequence after its first. *)
Definition is_continuation (c : ascii) : bool :=
  let n := nat_of_ascii c in Nat.leb 128 n && Nat.leb n 191.

(** Line and column (both from 1) of the character at byte offset [pos].
    The column counts characters: the continuation bytes of a character do
    not advance it. *)
Fixpoint line_col_from (line col pos : nat) (s : string) : nat * nat :=
  match pos, s with
  | S pos', String c s' =>
      if Ascii.eqb c (ascii_of_nat 10)
      then line_col_from (S line) 1 pos' s'
      else if is_continuation c
      then line_col_from line col pos' s'
      else line_col_from line (S col) pos' s'
  | _, _ => (line, col)
  end.

(** What one parsing step leaves: the recursion budget ran out, the
    expression did not match here, or it matched up to [pos] (with [rest]
    still to read) and produced [toks]. *)
Inductive outcome : Type :=
| Exhausted
| NoMatch
| Matched (pos : nat) (rest : string) (toks : list Pair).

Definition one_char (ok : ascii -> bool) (pos : nat) (rest : string) : outcome :=
  match rest with
  | String c rest' => if ok c then Matched (S pos) rest' [] else NoMatch
  | EmptyString => NoMatch
  end.

Section Interpreter.

Variable src : string.

(** The parser called on a nested expression. *)
Variable rec : bool -> expr -> nat -> string -> outcome.

(** [step atomic e pos rest]: match [e] at offset [pos] of [src], where
    [rest] is the input from [pos] on. [atomic] is pest's atomicity: when
    set, no implicit skipping takes place and rules produce no pairs. The
    text is read byte by byte. *)
Definition step (atomic : bool) (e : expr) (pos : nat) (rest : string) : outcome :=
  let skip (pos : nat) (rest : string) : outcome :=
    if atomic then Matched pos rest [] else rec true skip_expr pos rest in
  match e with
  | Str s =>
      match strip_prefix s rest with
      | Some rest' => Matched (pos + String.length s) rest' []
      | None => NoMatch
      end
  | ANY => one_char (fun _ => true) pos rest
  | ASCII_ALPHA => one_char is_alpha pos rest
  | ASCII_DIGIT => one_char is_digit pos rest
  | ASCII_ALPHANUMERIC => one_char (fun c => is_alpha c || is_digit c) pos rest
  | SOI => if Nat.eqb pos 0 then Matched pos rest [] else NoMatch
  | EndOfInput =>
      match rest with EmptyString => Matched pos rest [] | _ => NoMatch end
  | Seq a b =>
      match rec atomic a pos rest with
      | Matched p1 r1 t1 =>
          match skip p1 r1 with
          | Matched p2 r2 _ =>
              match rec atomic b p2 r2 with
              | Matched p3 r3 t3 => Matched p3 r3 (t1 ++ t3)
              | o => o
              end
          | o => o
          end
      | o => o
      end
  | Alt a b =>
      match rec atomic a pos rest with
      | NoMatch => rec atomic b pos rest
      | o => o
      end
  | Opt a =>
      match rec atomic a pos rest with
      | NoMatch => Matched pos rest []
      | o => o
      end
  | Star a =>
      match rec atomic a pos rest with
      | Matched p1 r1 t1 =>
          match rec atomic (Rep a) p1 r1 with
          | Matched p2 r2 t2 => Matched p2 r2 (t1 ++ t2)
          | o => o
          end
      | NoMatch => Matched pos rest []
      | Exhausted => Exhausted
      end
  | Plus a =>
      match rec atomic a pos rest with
      | Matched p1 r1 t1 =>
          match rec atomic (Rep a) p1 r1 with
          | Matched p2 r2 t2 => Matched p2 r2 (t1 ++ t2)
          | o => o
          end
      | o => o
      end
  | Rep a =>
      (* repeat (skip ~ a) for as long as it matches *)
      match skip pos rest with
      | Matched p1 r1 _ =>
          match rec atomic a p1 r1 with
          | Matched p2 r2 t2 =>
              match rec atomic (Rep a) p2 r2 with
              | Matched p3 r3 t3 => Matched p3 r3 (t2 ++ t3)
              | o => o
              end
          | NoMatch => Matched pos rest []
          | Exhausted => Exhausted
          end
      | NoMatch => Matched pos rest []
      | Exhausted => Exhausted
      end
  | Not a =>
      match rec atomic a pos rest with
      | Matched _ _ _ => NoMatch
      | NoMatch => Matched pos rest []
      | Exhausted => Exhausted
      end
  | Call r =>
      match rec (atomic || atomic_body (fst (grammar r))) (snd (grammar r)) pos rest with
      | Matched p1 r1 toks =>
          if atomic then Matched p1 r1 []
          else if silent (fst (grammar r)) then Matched p1 r1 toks
          else Matched p1 r1
                 [MkPair r (take_str (p1 - pos) rest) (line_col_from 1 1 pos src)
                    (if atomic_body (fst (grammar r)) then [] else toks)]
      | o => o
      end
  end.

End Interpreter.

(** The recursive-descent parser, with a bound on the depth of its
    recursion. *)
Fixpoint run (src : string) (fuel : nat)
  : bool -> expr -> nat -> string -> outcome :=
  match fuel with
  | O => fun _ _ _ _ => Exhausted
  | S fuel => step src (run src fuel)
  end.

(** [o] is [o'] unless the budget ran out. *)
Definition below (o o' : outcome) : Prop := o = Exhausted \/ o = o'.

(** The recursion budget given to an input, in proportion to its length. *)
Definition budget (input : string) : nat := 64 * (String.length input + 4).

(** [BuildParser::parse(rule, input)]: the pairs of the start rule, or the
    pest error. Running out of budget stands for the stack overflow of the
    generated recursive-descent parser. *)
Definition BuildParser_parse (rule : RuleTag) (input : string)
  : Result (list Pair) :=
  match run input (budget input) false (Call rule) 0 input with
  | Matched _ _ toks => Ok toks
  | NoMatch => Err PestError
  | Exhausted => Panic
  end.

End Pest.

(** * [BuildFileParser] ([bazel/parser.rs]) *)

Module Parser.

Import Pest.

(** [enum Value]. [Dict] is declared but no code path builds one. *)
Inductive Value : Type :=
| VString (s : string)
| VNumber (n : Z)
| VBoolean (b : bool)
| VList (items : list Value)
| VDict (entries : list (string * Value))
| VTargetRef (s : string)
| VIdentifier (s : string).

Record Location : Type := { line : nat; column : nat }.

(** [struct Rule]: [name] holds the label ["//package:name"]. *)
Record Rule : Type := {
  name : string;
  kind : string;
  attributes : gmap string Value;
  location : Location
}.

(** The rule kinds that [is_bazel_rule] matches, in the order of its
    [matches!] arms. *)
Definition bazel_rules : list string :=
  [ "cc_binary"; "go_binary"; "java_binary"; "py_binary"; "rust_binary";
    "cc_library"; "go_library"; "java_library"; "py_library"; "rust_library";
    "cc_test"; "go_test"; "java_test"; "py_test"; "rust_test";
    "scio_java_test"; "scio_java_junit5_test"; "scio_go_test";
    "proto_library"; "java_proto_library"; "go_proto_library";
    "filegroup"; "genrule"; "test_suite"; "package" ].

Definition is_bazel_rule (name : string) : bool :=
  existsb (String.eqb name) bazel_rules.

(** [str::parse::<i64>]: an optional sign, then one or more decimal digits,
    within the range of a 64-bit signed integer. *)
Fixpoint digits_value (acc : Z) (s : string) : option Z :=
  match s with
  | EmptyString => Some acc
  | String c s' =>
      if is_digit c
      then digits_value (10 * acc + Z.of_nat (nat_of_ascii c - 48))%Z s'
      else None
  end.

Definition parse_i64 (s : string) : option Z :=
  let '(negative, body) :=
    match s with
    | String c r =>
        if Ascii.eqb c "-"%char then (true, r)
        else if Ascii.eqb c "+"%char then (false, r)
        else (false, s)
    | EmptyString => (false, s)
    end in
  match body with
  | EmptyString => None
  | _ =>
      match digits_value 0 body with
      | Some n =>
          let v := (if negative then - n else n)%Z in
          if ((- 2 ^ 63 <=? v) && (v <=? 2 ^ 63 - 1))%Z then Some v else None
      | None => None
      end
  end.

(** [parse_value]. The slice [s[1..s.len()-1]] panics on a text shorter
    than two bytes; [item.into_inner().next().unwrap()] panics on a
    [list_item] with nothing inside. *)
Fixpoint parse_value (pair : Pair) : Result Value :=
  match pair with
  | MkPair rule s _ inner =>
      match rule with
      | R_string =>
          if Nat.ltb (String.length s) 2 then Panic
          else Ok (VString (substring 1 (String.length s - 2) s))
      | R_number =>
          match parse_i64 s with
          | Some n => Ok (VNumber n)
          | None => Err ParseIntError
          end
      | R_boolean => Ok (VBoolean (String.eqb s "True"))
      | R_list =>
          try items <-
            (fix each (l : list Pair) : Result (list Value) :=
               match l with
               | [] => Ok []
               | MkPair R_list_item _ _ item_inner :: l' =>
                   match item_inner with
                   | [] => Panic
                   | first :: _ =>
                       try v <- parse_value first;
                       try vs <- each l';
                       Ok (v :: vs)
                   end
               | _ :: l' => each l'
               end) inner;
          Ok (VList items)
      | R_target_ref => Ok (VTargetRef s)
      | R_identifier => Ok (VIdentifier s)
      | _ => Ok (VString s)
      end
  end.

(** The [for arg in inner] loop of [parse_statement]: a named argument has
    two pairs inside, a positional one has one and is stored as "name". *)
Fixpoint collect_attributes (args : list Pair) (attributes : gmap string Value)
  : Result (gmap string Value) :=
  match args with
  | [] => Ok attributes
  | arg :: args' =>
      match into_inner arg with
      | [n; v] =>
          try value <- parse_value v;
          collect_attributes args' (<[as_str n := value]> attributes)
      | [v] =>
          try value <- parse_value v;
          collect_attributes args' (<["name" := value]> attributes)
      | _ => collect_attributes args' attributes
      end
  end.

Section BuildFileParser.

(** [self.package_name] *)
Variable package_name : string.

(** [BuildParser::parse], the function that pest derives from the grammar. *)
Variable BuildParser_parse : RuleTag -> string -> Result (list Pair).

Definition parse_statement (pair : Pair) : Result (option Rule) :=
  match as_rule pair with
  | R_function_call =>
      let location :=
        {| line := fst (line_col pair); column := snd (line_col pair) |} in
      match into_inner pair with
      | [] => Panic
      | first :: inner =>
          let kind := as_str first in
          if negb (is_bazel_rule kind) then Ok None
          else
            try attributes <- collect_attributes inner ∅;
            match attributes !! "name" with
            | Some (VString n) =>
                Ok (Some {| name := "//" +:+ package_name +:+ ":" +:+ n;
                            kind := kind;
                            attributes := attributes;
                            location := location |})
            | _ => Ok None
            end
      end
  | _ => Ok None
  end.

(** The [for pair in pairs] loop of [parse], pushing onto [rules]. *)
Fixpoint parse_pairs (pairs : list Pair) (rules : list Rule)
  : Result (list Rule) :=
  match pairs with
  | [] => Ok rules
  | p :: pairs' =>
      try r <- parse_statement p;
      match r with
      | Some rule => parse_pairs pairs' (rules ++ [rule])
      | None => parse_pairs pairs' rules
      end
  end.

Definition parse (content : string) : Result (list Rule) :=
  try pairs <- BuildParser_parse R_file content;
  parse_pairs pairs [].

End BuildFileParser.

(** What the caller of [parse] can show the user: [handle_did_open] sends
    the error of a failed parse as the file's diagnostic, and a successful
    parse carries none. *)
Definition diagnostics {A : Type} (r : Result A) : list Error :=
  match r with
  | Err e => [e]
  | _ => []
  end.

End Parser.

(** * [ParseCache] ([bazel/cache.rs]) *)

Module Cache.

Import Parser.

(** [std::time::Instant] and [Duration], in ticks of the monotonic clock. *)
Definition Instant : Type := nat.
Definition Duration : Type := nat.

(** [Instant::elapsed]: saturates at zero. *)
Definition elapsed (now timestamp : Instant) : Duration := now - timestamp.

Section ParseCache.

(** [PathBuf] keys and the 32-byte [blake3] digest. *)
Context {PathBuf : Type} `{Countable PathBuf}.
Context {Digest : Type} `{EqDecision Digest}.
Variable blake3_hash : string -> Digest.

Record CachedParse : Type := {
  rules : list Rule;
  hash : Digest;
  timestamp : Instant
}.

Record ParseCache : Type := {
  cache : gmap PathBuf CachedParse;
  ttl : Duration
}.

Definition new (ttl : Duration) : ParseCache := {| cache := ∅; ttl := ttl |}.

(** [get_or_parse]. The clock is read twice: [t_check] is the reading taken
    by [elapsed()], [t_store] the later [Instant::now()] of the new entry. *)
Definition get_or_parse (self : ParseCache) (t_check t_store : Instant)
    (path : PathBuf) (content : string)
    (parse_fn : string -> Result (list Rule))
  : Result (list Rule) * ParseCache :=
  let h := blake3_hash content in
  let fresh :=
    match cache self !! path with
    | Some cached =>
        if bool_decide (hash cached = h)
           && Nat.ltb (elapsed t_check (timestamp cached)) (ttl self)
        then Some (rules cached) else None
    | None => None
    end in
  match fresh with
  | Some rs => (Ok rs, self)
  | None =>
      match parse_fn content with
      | Ok rs =>
          (Ok rs,
           {| cache := <[path := {| rules := rs; hash := h; timestamp := t_store |}]>
                         (cache self);
              ttl := ttl self |})
      | Err e => (Err e, self)
      | Panic => (Panic, self)
      end
  end.

Definition invalidate (self : ParseCache) (path : PathBuf) : ParseCache :=
  {| cache := delete path (cache self); ttl := ttl self |}.

End ParseCache.

End Cache.

(** * [BazelClient] ([bazel/client.rs]) *)

Module Client.

(** ** [lru::LruCache<String, V>]

    Entries in order of use, the most recently used first. [get] promotes
    the entry it finds; [put] promotes or adds, evicting the least recently
    used entry of a full cache. *)
Section Lru.

Context {V : Type}.

Record LruCache : Type := { cap : nat; entries : list (string * V) }.

Definition lru_new (cap : nat) : LruCache := {| cap := cap; entries := [] |}.

Fixpoint assoc (k : string) (l : list (string * V)) : option V :=
  match l with
  | [] => None
  | (k', v) :: l' => if String.eqb k k' then Some v else assoc k l'
  end.

Fixpoint remove_key (k : string) (l : list (string * V)) : list (string * V) :=
  match l with
  | [] => []
  | (k', v) :: l' =>
      if String.eqb k k' then remove_key k l' else (k', v) :: remove_key k l'
  end.



Definition lru_get (k : string) (c : LruCache) : option V * LruCache :=
  match assoc k (entries c) with
  | Some v => (Some v, {| cap := cap c; entries := (k, v) :: remove_key k (entries c) |})
  | None => (None, c)
  end.

Definition lru_put (k : string) (v : V) (c : LruCache) : LruCache :=
  match assoc k (entries c) with
  | Some _ => {| cap := cap c; entries := (k, v) :: remove_key k (entries c) |}
  | None =>
      let kept :=
        if Nat.ltb (length (entries c)) (cap c) then entries c
        else removelast (entries c) in
      {| cap := cap c; entries := (k, v) :: kept |}
  end.

(** What [LruCache] keeps: one entry per key, and no more entries than its
    capacity. *)
Definition lru_wf (c : LruCache) : Prop :=
  NoDup (fst <$> entries c) /\ length (entries c) <= cap c.

End Lru.

Arguments LruCache V : clear implicits.

(** [std::process::Output] *)
Record Output : Type := {
  success : bool;       (* output.status.success() *)
  stdout : string;
  stderr : string
}.

Section BazelClient.

(** The decoded query result and [parse_query_output], whose body the
    design leaves out; [String::from_utf8_lossy]. *)
Context {QueryResult : Type}.
Variable parse_query_output : string -> Result QueryResult.
Variable from_utf8_lossy : string -> string.

(** The client's cache, and the command lines it has run so far (the latest
    first): the trace against which invocations are counted. *)
Record BazelClient : Type := {
  query_cache : LruCache QueryResult;
  spawned : list (list string)
}.

(** [BazelClient::new]: a cache of capacity 1000. *)
Definition new : BazelClient :=
  {| query_cache := lru_new 1000; spawned := [] |}.

Definition query_args (query : string) : list string :=
  [ "query"; query; "--output=proto";
    "--proto:output_rule_attrs=srcs,deps,visibility,testonly" ].

(** [query]. [tool] is the external build tool as it answers at the moment
    of the call: given the command line, the subprocess cannot be started
    ([Err]) or runs to an [Output]. *)
Definition query (tool : list string -> Result Output) (self : BazelClient)
    (query : string) : Result QueryResult * BazelClient :=
  match lru_get query (query_cache self) with
  | (Some result, cache) =>
      (Ok result, {| query_cache := cache; spawned := spawned self |})
  | (None, cache) =>
      let ran := {| query_cache := cache;
                    spawned := query_args query :: spawned self |} in
      match tool (query_args query) with
      | Ok output =>
          if negb (success output)
          then (Err (Bail ("Bazel query failed: " +:+ from_utf8_lossy (stderr output))),
                ran)
          else
            match parse_query_output (stdout output) with
            | Ok result =>
                (Ok result,
                 {| query_cache := lru_put query result cache;
                    spawned := spawned ran |})
            | Err e => (Err e, ran)
            | Panic => (Panic, ran)
            end
      | Err e => (Err e, ran)
      | Panic => (Panic, ran)
      end
  end.

(** What reaches the client between calls. A change of a file is not an
    input of [BazelClient]: no method of the client receives it, and only
    [query] touches [query_cache]; time passing is not an input either. *)
Inductive event : Type :=
| Query (tool : list string -> Result Output) (q : string)
| FileChanged (path : string)
| Elapse (d : nat).

Definition step (self : BazelClient) (ev : event) : BazelClient :=
  match ev with
  | Query tool q => snd (query tool self q)
  | FileChanged _ => self
  | Elapse _ => self
  end.

Definition run (evs : list event) (self : BazelClient) : BazelClient :=
  foldl step self evs.

Definition invocations (self : BazelClient) : nat := length (spawned self).

End BazelClient.

(** ** [BazelClient::build]

    The child process as the client meets it: what each [next_line()] gives
    until the stream ends, and what [wait()] gives. *)
Record Child : Type := {
  stdout_lines : list (Result string);
  exit_success : Result bool        (* child.wait().await, status.success() *)
}.

Record BuildResult : Type := { build_success : bool }.

Section Build.

(** The decoded event, [serde_json::from_str::<BuildEvent>] and the outcome
    of [handle_build_event], whose bodies the design leaves out. *)
Context {BuildEvent : Type}.
Variable from_str : string -> option BuildEvent.
Variable handle_build_event : BuildEvent -> Result unit.

Definition build_args (target : string) : list string :=
  [ "build"; target; "--build_event_json_file=-" ].

(** The loop [while let Some(line) = lines.next_line().await?]; [handled]
    are the events given to [handle_build_event] so far, in order. *)
Fixpoint read_events (lines : list (Result string)) (handled : list BuildEvent)
  : Result unit * list BuildEvent :=
  match lines with
  | [] => (Ok tt, handled)
  | Ok line :: lines' =>
      match from_str line with
      | Some event =>
          match handle_build_event event with
          | Ok _ => read_events lines' (handled ++ [event])
          | Err e => (Err e, handled ++ [event])
          | Panic => (Panic, handled ++ [event])
          end
      | None => read_events lines' handled
      end
  | Err e :: _ => (Err e, handled)
  | Panic :: _ => (Panic, handled)
  end.

(** [build]: [spawn] starts the tool on a command line, or fails. *)
Definition build (spawn : list string -> Result Child) (target : string)
  : Result BuildResult * list BuildEvent :=
  match spawn (build_args target) with
  | Ok child =>
      match read_events (stdout_lines child) [] with
      | (Ok _, handled) =>
          (try status <- exit_success child; Ok {| build_success := status |},
           handled)
      | (Err e, handled) => (Err e, handled)
      | (Panic, handled) => (Panic, handled)
      end
  | Err e => (Err e, [])
  | Panic => (Panic, [])
  end.

End Build.

End Client.

(** * [BuildGraph] ([bazel/build_graph.rs]) *)

Module Graph.

Import Pest.

Record BazelTarget : Type := {
  label : string;
  kind : string;
  srcs : list string;
  deps : list string;
  location : Parser.Location;
  attributes : gmap string Parser.Value
}.

(** The ways in which the runs of several threads can be merged into one
    sequence: each step takes the next operation of some thread. *)
Inductive interleaving {A : Type} : list (list A) -> list A -> Prop :=
| interleaving_done (threads : list (list A)) :
    Forall (fun t => t = []) threads -> interleaving threads []
| interleaving_step (threads : list (list A)) (i : nat) (a : A) (t sched : list A) :
    threads !! i = Some (a :: t) ->
    interleaving (<[i := t]> threads) sched ->
    interleaving threads (a :: sched).

Section BuildGraph.

(** [PathBuf] with [Path::parent] and [Path::join]; [Url] with
    [Url::to_file_path]. *)
Context {PathBuf : Type} `{Countable PathBuf}.
Context {Url : Type}.
Variable parent : PathBuf -> option PathBuf.
Variable join : PathBuf -> string -> PathBuf.
Variable to_file_path : Url -> option PathBuf.

(** The file system as [std::fs::read_to_string] finds it during the scan,
    the parser derived from the grammar, [parse_rule] (used by
    [parse_build_file], its body is not part of the design) and the
    [Display] of an error. *)
Variable read_to_string : PathBuf -> Result string.
Variable BuildParser_parse : RuleTag -> string -> Result (list Pair).
Variable parse_rule : Pair -> PathBuf -> Result (option BazelTarget).
Variable display : Error -> string.

Record BuildGraph : Type := {
  targets : gmap string BazelTarget;
  file_to_targets : gmap PathBuf (list string);
  workspace_root : PathBuf
}.

Definition empty (root : PathBuf) : BuildGraph :=
  {| targets := ∅; file_to_targets := ∅; workspace_root := root |}.

(** The two operations that [parse_build_file] performs on the concurrent
    maps, each atomic on its map:
    [file_to_targets.entry(p).or_insert_with(Vec::new).push(l)] and
    [targets.insert(l, t)]. *)
Inductive op : Type :=
| Push (file : PathBuf) (l : string)
| Insert (l : string) (t : BazelTarget).

Definition apply_op (g : BuildGraph) (o : op) : BuildGraph :=
  match o with
  | Push file l =>
      {| targets := targets g;
         file_to_targets :=
           <[file := default [] (file_to_targets g !! file) ++ [l]]>
             (file_to_targets g);
         workspace_root := workspace_root g |}
  | Insert l t =>
      {| targets := <[l := t]> (targets g);
         file_to_targets := file_to_targets g;
         workspace_root := workspace_root g |}
  end.

Definition run_ops (g : BuildGraph) (ops : list op) : BuildGraph :=
  foldl apply_op g ops.

(** The labels pushed for [file], and the targets inserted under [l], by a
    sequence of operations, in the order of the sequence. *)
Definition pushed (file : PathBuf) (ops : list op) : list string :=
  omap (fun o => match o with
                 | Push f l => if bool_decide (f = file) then Some l else None
                 | Insert _ _ => None
                 end) ops.

Definition inserted (l : string) (ops : list op) : list BazelTarget :=
  omap (fun o => match o with
                 | Insert l' t => if bool_decide (l' = l) then Some t else None
                 | Push _ _ => None
                 end) ops.

(** The two indices agree: every label of the file index has a Target. *)
Definition consistent (g : BuildGraph) : Prop :=
  forall file labels l,
    file_to_targets g !! file = Some labels -> l ∈ labels ->
    is_Some (targets g !! l).

(** The loop [for src in &target.srcs]; [path.parent().unwrap()] panics for
    a path without parent. *)
Fixpoint update_file_mappings (path : PathBuf) (l : string) (srcs : list string)
    (g : BuildGraph) : Result unit * BuildGraph :=
  match srcs with
  | [] => (Ok tt, g)
  | src :: srcs' =>
      match parent path with
      | None => (Panic, g)
      | Some dir =>
          update_file_mappings path l srcs' (apply_op g (Push (join dir src) l))
      end
  end.

(** The loop [for pair in pairs] of [parse_build_file]. *)
Fixpoint index_pairs (path : PathBuf) (pairs : list Pair) (g : BuildGraph)
  : Result unit * BuildGraph :=
  match pairs with
  | [] => (Ok tt, g)
  | p :: pairs' =>
      match parse_rule p path with
      | Ok (Some target) =>
          match update_file_mappings path (label target) (srcs target) g with
          | (Ok _, g1) =>
              index_pairs path pairs' (apply_op g1 (Insert (label target) target))
          | failed => failed
          end
      | Ok None => index_pairs path pairs' g
      | Err e => (Err e, g)
      | Panic => (Panic, g)
      end
  end.

Definition parse_build_file (g : BuildGraph) (path : PathBuf)
  : Result unit * BuildGraph :=
  match read_to_string path with
  | Ok content =>
      match BuildParser_parse R_file content with
      | Ok pairs => index_pairs path pairs g
      | Err e => (Err e, g)
      | Panic => (Panic, g)
      end
  | Err e => (Err e, g)
  | Panic => (Panic, g)
  end.

Definition get_target_for_file (g : BuildGraph) (file : Url) : option BazelTarget :=
  path ← to_file_path file;
  labels ← file_to_targets g !! path;
  l ← head labels;
  targets g !! l.

(** ** The operations of one file, apart from the graph they act on

    [parse_build_file] reads nothing from the graph, so what it does to the
    maps is a fixed sequence of operations followed by its result. *)

Definition target_ops (path : PathBuf) (target : BazelTarget)
  : list op * Result unit :=
  match srcs target, parent path with
  | [], _ => ([Insert (label target) target], Ok tt)
  | _ :: _, None => ([], Panic)
  | _ :: _, Some dir =>
      (map (fun src => Push (join dir src) (label target)) (srcs target)
         ++ [Insert (label target) target], Ok tt)
  end.

Fixpoint pairs_ops (path : PathBuf) (pairs : list Pair) : list op * Result unit :=
  match pairs with
  | [] => ([], Ok tt)
  | p :: pairs' =>
      match parse_rule p path with
      | Ok (Some target) =>
          match target_ops path target with
          | (ops, Ok _) =>
              let '(ops', r) := pairs_ops path pairs' in (ops ++ ops', r)
          | failed => failed
          end
      | Ok None => pairs_ops path pairs'
      | Err e => ([], Err e)
      | Panic => ([], Panic)
      end
  end.

Definition file_ops (path : PathBuf) : list op * Result unit :=
  match read_to_string path with
  | Ok content =>
      match BuildParser_parse R_file content with
      | Ok pairs => pairs_ops path pairs
      | Err e => ([], Err e)
      | Panic => ([], Panic)
      end
  | Err e => ([], Err e)
  | Panic => ([], Panic)
  end.

(** The targets that a file's scan produces, in the order of the file. *)
Fixpoint pairs_targets (path : PathBuf) (pairs : list Pair) : list BazelTarget :=
  match pairs with
  | [] => []
  | p :: pairs' =>
      match parse_rule p path with
      | Ok (Some target) => target :: pairs_targets path pairs'
      | _ => pairs_targets path pairs'
      end
  end.

Definition file_targets (path : PathBuf) : list BazelTarget :=
  match read_to_string path with
  | Ok content =>
      match BuildParser_parse R_file content with
      | Ok pairs => pairs_targets path pairs
      | _ => []
      end
  | _ => []
  end.

(** ** [scan_workspace]

    [build_files] is the vector collected from the directory walk. The files
    are parsed by [par_iter], so the operations of different files reach the
    maps in any interleaving [sched]; the results come back in the order of
    the files, an [Err] among them is logged as a warning, and the scan
    returns [Ok(())]. A panic in a worker is a panic of the scan. *)

Definition is_panic {A : Type} (r : Result A) : bool :=
  match r with Panic => true | _ => false end.

Definition warning (r : Result unit) : option string :=
  match r with
  | Err e => Some ("Failed to parse BUILD file: " +:+ display e)
  | _ => None
  end.

Record Scan : Type := {
  graph : BuildGraph;
  log : list string;
  returned : Result unit
}.

Definition scan_with (sched : list op) (g : BuildGraph) (build_files : list PathBuf)
  : Scan :=
  let results := map (fun path => snd (file_ops path)) build_files in
  {| graph := run_ops g sched;
     log := omap warning results;
     returned := if existsb is_panic results then Panic else Ok tt |}.

Definition scan_workspace (g : BuildGraph) (build_files : list PathBuf)
    (out : Scan) : Prop :=
  exists sched,
    interleaving (map (fun path => fst (file_ops path)) build_files) sched
    /\ out = scan_with sched g build_files.

(** One schedule that is always possible: one file after the other. *)
Definition scan_in_order (g : BuildGraph) (build_files : list PathBuf) : Scan :=
  scan_with (concat (map (fun path => fst (file_ops path)) build_files))
    g build_files.

End BuildGraph.

End Graph.

(** * A concrete workspace

    The instances at which the properties below are exercised: paths as
    lists of components, a file system given as a table, and a [parse_rule]. *)

Module Workspace.

Import Pest.
Import Graph.

(** [PathBuf], compared by components as [Path::eq] does: the text is cut
    at each '/', empty and "." components are dropped, except a "." at the
    start of a relative path, and a leading '/' gives the root component. *)
Abbreviation PathBuf := (list string) (only parsing).

Fixpoint split_on (sep : ascii) (cur s : string) : list string :=
  match s with
  | EmptyString => [cur]
  | String c s' =>
      if Ascii.eqb c sep then cur :: split_on sep EmptyString s'
      else split_on sep (cur +:+ String c EmptyString) s'
  end.

Definition is_absolute (s : string) : bool :=
  match s with
  | String c _ => Ascii.eqb c "/"%char
  | EmptyString => false
  end.

(** The normal components of a text: what lies between the '/', without
    the empty pieces and the "." ones. *)
Definition parts (s : string) : PathBuf :=
  filter (fun c => c <> EmptyString /\ c <> ".") (split_on "/"%char EmptyString s).

Definition components (s : string) : PathBuf :=
  (if is_absolute s then ["/"]
   else if bool_decide (head (split_on "/"%char EmptyString s) = Some ".")
   then ["."] else [])
  ++ parts s.

(** [Path::parent]: the root and the empty path have none. *)
Definition parent (p : PathBuf) : option PathBuf :=
  if bool_decide (p = [] \/ p = ["/"]) then None else Some (removelast p).

(** [Path::join]: an absolute argument replaces the path; a relative one is
    appended, and a "." at its start is then no longer at the start. *)
Definition join (p : PathBuf) (s : string) : PathBuf :=
  if is_absolute s then components s
  else match p with
       | [] => components s
       | _ => p ++ parts s
       end.

(** [Url::to_file_path] of a [file://] URL. *)
Definition to_file_path (url : string) : option PathBuf :=
  components <$> strip_prefix "file://" url.

(** [Display] of an error, for the concrete scans below. The text of a
    pest error, which in the program shows the position and the line of
    the failure, is not modelled: one fixed text stands for it, and no
    property below depends on what it is. *)
Definition display (e : Error) : string :=
  match e with
  | PestError => "expected statement"
  | ParseIntError => "invalid digit found in string"
  | IoError msg => msg
  | Bail msg => msg
  | DecodeError msg => msg
  end.

(** ** [parse_rule] *)

Fixpoint first_call (p : Pair) : option Pair :=
  match p with
  | MkPair R_function_call _ _ _ => Some p
  | MkPair _ _ _ inner =>
      (fix among (l : list Pair) : option Pair :=
         match l with
         | [] => None
         | q :: l' =>
             match first_call q with
             | Some c => Some c
             | None => among l'
             end
         end) inner
  end.

(** The pair inside the value of the argument called [n]. *)
Fixpoint argument_value (n : string) (args : list Pair) : option Pair :=
  match args with
  | [] => None
  | MkPair R_argument _ _ [MkPair R_identifier k _ _; MkPair R_value _ _ [v]] :: args' =>
      if String.eqb k n then Some v else argument_value n args'
  | _ :: args' => argument_value n args'
  end.

Definition unquote (s : string) : string :=
  substring 1 (String.length s - 2) s.

Definition string_of (p : Pair) : option string :=
  match p with
  | MkPair R_string s _ _ => Some (unquote s)
  | _ => None
  end.

Definition strings_of (p : Pair) : list string :=
  match p with
  | MkPair R_list _ _ items =>
      omap (fun item =>
              match item with
              | MkPair R_list_item _ _ [q] => string_of q
              | _ => None
              end) items
  | _ => []
  end.

Fixpoint strip_components (root p : PathBuf) : PathBuf :=
  match root, p with
  | r :: root', c :: p' => if String.eqb r c then strip_components root' p' else p
  | _, _ => p
  end.

Fixpoint join_with (sep : string) (l : list string) : string :=
  match l with
  | [] => EmptyString
  | [c] => c
  | c :: l' => c +:+ sep +:+ join_with sep l'
  end.

(** The package of a BUILD file: its directory relative to the root. *)
Definition package_of (root path : PathBuf) : string :=
  join_with "/" (strip_components root (removelast path)).

Definition qualify (package dep : string) : string :=
  match dep with
  | String c _ => if Ascii.eqb c ":"%char then "//" +:+ package +:+ dep else dep
  | EmptyString => dep
  end.

(** Modelled from the spec: [parse_rule], which [parse_build_file] calls and
    whose body the design does not give. A rule invocation whose kind is on
    the allow-list and which has a string [name] becomes the Target labelled
    package + ":" + name, with the entries of its [srcs] as declared sources
    and those of its [deps], package-qualified, as declared dependencies. *)
Definition parse_rule (root : PathBuf) (p : Pair) (path : PathBuf)
  : Result (option BazelTarget) :=
  match first_call p with
  | Some (MkPair _ _ lc (MkPair _ kind _ _ :: args)) =>
      if Parser.is_bazel_rule kind then
        match argument_value "name" args ≫= string_of with
        | Some n =>
            let package := package_of root path in
            Ok (Some {|
              label := "//" +:+ package +:+ ":" +:+ n;
              Graph.kind := kind;
              srcs := from_option strings_of [] (argument_value "srcs" args);
              deps := qualify package
                        <$> from_option strings_of [] (argument_value "deps" args);
              location := {| Parser.line := fst lc; Parser.column := snd lc |};
              attributes := ∅ |})
        | None => Ok None
        end
      else Ok None
  | _ => Ok None
  end.

(** A file system given by a table of paths and contents. *)
Fixpoint read_from (files : list (PathBuf * string)) (path : PathBuf)
  : Result string :=
  match files with
  | [] => Err (IoError "No such file or directory (os error 2)")
  | (p, content) :: files' =>
      if bool_decide (p = path) then Ok content else read_from files' path
  end.

Definition root : PathBuf := components "/ws".

Definition scan_showing (display : Error -> string)
    (files : list (PathBuf * string)) (build_files : list PathBuf)
  : Scan (PathBuf := PathBuf) :=
  scan_in_order parent join (read_from files) BuildParser_parse
    (parse_rule root) display (Graph.empty root) build_files.

Definition scan (files : list (PathBuf * string)) (build_files : list PathBuf)
  : Scan (PathBuf := PathBuf) :=
  scan_showing display files build_files.

Definition target_for_file (g : BuildGraph (PathBuf := PathBuf)) (url : string)
  : option BazelTarget :=
  get_target_for_file to_file_path g url.

(** The scenario of the specification: one rule in [pkg/BUILD]. *)
Definition server_build : string :=
  "go_binary(name = 'server', srcs = ['main.go'], deps = [':lib'])".

Definition pkg_BUILD : PathBuf := components "/ws/pkg/BUILD".
Definition pkg_BUILD_bazel : PathBuf := components "/ws/pkg/BUILD.bazel".

(** Two BUILD files of one directory claiming [util.go]: the test first. *)
Definition shared_files : list (PathBuf * string) :=
  [ (pkg_BUILD, "go_test(name = 'util_test', srcs = ['util.go', 'util_test.go'])");
    (pkg_BUILD_bazel, "go_library(name = 'util', srcs = ['util.go'])") ].

(** The operations and the result of one file, and the targets of its scan. *)
Definition ops_of (files : list (PathBuf * string)) (path : PathBuf)
  : list (op (PathBuf := PathBuf)) * Result unit :=
  file_ops parent join (read_from files) BuildParser_parse (parse_rule root) path.

Definition server_target : BazelTarget :=
  {| label := "//pkg:server";
     Graph.kind := "go_binary";
     srcs := ["main.go"];
     deps := ["//pkg:lib"];
     location := {| Parser.line := 1; Parser.column := 1 |};
     attributes := ∅ |}.

(** [pkg/BUILD] scanned, then edited (the rule is renamed) and parsed
    again. *)
Definition renamed_build : string :=
  "go_binary(name = 'api', srcs = ['main.go'])".

Definition scanned : BuildGraph (PathBuf := PathBuf) :=
  graph (scan [(pkg_BUILD, server_build)] [pkg_BUILD]).

Definition updated : BuildGraph (PathBuf := PathBuf) :=
  snd (parse_build_file parent join (read_from [(pkg_BUILD, renamed_build)])
         BuildParser_parse (parse_rule root) scanned pkg_BUILD).

(** Two workspaces with the same two BUILD files, in each of which the
    other one is unfinished. *)
Definition lib_BUILD : PathBuf := components "/ws/lib/BUILD".
Definition lib_build : string := "go_library(name = 'lib', srcs = ['lib.go'])".
Definition unfinished : string := "go_binary(".

Definition pkg_broken : list (PathBuf * string) :=
  [ (pkg_BUILD, unfinished); (lib_BUILD, lib_build) ].
Definition lib_broken : list (PathBuf * string) :=
  [ (pkg_BUILD, lib_build); (lib_BUILD, unfinished) ].

(** A parse cache keyed by paths, with the text itself as its digest, and
    the parser of package "pkg" as [parse_fn]. *)
Definition parse_fn : string -> Result (list Parser.Rule) :=
  Parser.parse "pkg" BuildParser_parse.

Definition warm_cache : Cache.ParseCache (PathBuf := PathBuf) (Digest := string) :=
  snd (Cache.get_or_parse id (Cache.new 300) 0 0 pkg_BUILD server_build parse_fn).

(** A build tool whose answer to a query is one line of labels, before and
    after an edit of [pkg/BUILD], and one that fails. *)
Definition decode (out : string) : Result (list string) := Ok [out].

Definition tool_before (args : list string) : Result Client.Output :=
  Ok {| Client.success := true; Client.stdout := "//pkg:server";
        Client.stderr := EmptyString |}.


Definition tool_failing (args : list string) : Result Client.Output :=
  Ok {| Client.success := false; Client.stdout := EmptyString;
        Client.stderr := "ERROR: no such package 'pkg'" |}.

Definition client_query := Client.query decode id.
Definition fresh_client : Client.BazelClient (QueryResult := list string) :=
  Client.new.

(** The pair of an invocation given by its text. *)
Definition call_of (text : string) : Pair :=
  match BuildParser_parse R_function_call text with
  | Ok (p :: _) => p
  | _ => MkPair EOI EmptyString (0, 0) []
  end.

Definition server_call : Pair :=
  Eval vm_compute in call_of "go_binary(name = 'server')".
Definition macro_call : Pair :=
  Eval vm_compute in call_of "my_macro(name = 'gen')".
Definition nameless_call : Pair :=
  Eval vm_compute in call_of "go_binary(srcs = ['main.go'])".

(** A well-formed rule followed by an unfinished one. *)
Definition first_statement : string := "go_binary(name = 'server')".
Definition broken_build : string :=
  first_statement +:+ newline +:+ "go_binary(".

End Workspace.

(** * [BazelLanguageServer] ([server.rs]) *)

Module Server.

(** A [serde_json::Value], as far as [as_str] tells values apart. *)
Inductive Json : Type :=
| JString (s : string)
| JNull
| JBool (b : bool)
| JNumber (n : Z).

Definition as_str (v : Json) : option string :=
  match v with
  | JString s => Some s
  | _ => None
  end.

(** [tower_lsp::jsonrpc::Error]: [invalid_params] with its message, or the
    error of a failed client operation. *)
Inductive RpcError : Type :=
| InvalidParams (msg : string)
| Failed (e : Error).

(** What [execute_command] asks of the client. *)
Inductive ClientCall : Type :=
| CallBuild (target : string)
| CallTest (target : string).

(** The outcome of a request: [Ok(value)], [Err(error)], or a panic of the
    handler. *)
Inductive Response : Type :=
| Responded (value : option Json)
| Refused (e : RpcError)
| Aborted.

(** The commands that [initialize] advertises in
    [execute_command_provider]. *)
Definition advertised_commands : list string :=
  [ "bazel.build"; "bazel.test"; "bazel.run" ].

Section ExecuteCommand.

(** [self.bazel_client.build] and [.test]: whether the operation fails. *)
Variable client_build : string -> Result unit.
Variable client_test : string -> Result unit.

(** [params.arguments.get(0).and_then(|v| v.as_str())] *)
Definition first_target (arguments : list Json) : option string :=
  head arguments ≫= as_str.

Definition respond (r : Result unit) : Response :=
  match r with
  | Ok _ => Responded None
  | Err e => Refused (Failed e)
  | Panic => Aborted
  end.

(** [execute_command]: the response, and the calls made on the client. *)
Definition execute_command (command : string) (arguments : list Json)
  : Response * list ClientCall :=
  if String.eqb command "bazel.build" then
    match first_target arguments with
    | None => (Refused (InvalidParams "Missing target"), [])
    | Some target => (respond (client_build target), [CallBuild target])
    end
  else if String.eqb command "bazel.test" then
    match first_target arguments with
    | None => (Refused (InvalidParams "Missing target"), [])
    | Some target => (respond (client_test target), [CallTest target])
    end
  else (Responded None, []).

End ExecuteCommand.

(** [lsp_types::Command] of a code lens. *)
Record LensCommand : Type := {
  title : string;
  command : string;
  arguments : list Json
}.

Section CodeLens.

Context {PathBuf : Type} `{Countable PathBuf}.
Context {Url : Type}.
Variable to_file_path : Url -> option PathBuf.

(** [uri.path()], [BazelTarget::is_test] and [BuildGraph::get_code_lenses],
    the last two used by [code_lens] without a body in the design. *)
Variable url_path : Url -> string.
Variable is_test : Graph.BazelTarget -> bool.
Variable get_code_lenses : Graph.BuildGraph (PathBuf := PathBuf) -> Url ->
                           Result (list LensCommand).

(** [str::ends_with] *)
Definition ends_with (s suffix : string) : bool :=
  let n := String.length s in
  let m := String.length suffix in
  Nat.leb m n && String.eqb (substring (n - m) m s) suffix.

Definition test_lenses (target : Graph.BazelTarget) : list LensCommand :=
  [ {| title := "Run Test"; command := "bazel.test";
       arguments := [JString (Graph.label target)] |};
    {| title := "Debug Test"; command := "bazel.debug";
       arguments := [JString (Graph.label target)] |} ].

(** [code_lens], the titles without their pictograms. *)
Definition code_lens (g : Graph.BuildGraph (PathBuf := PathBuf)) (uri : Url)
  : Result (option (list LensCommand)) :=
  if ends_with (url_path uri) "BUILD" || ends_with (url_path uri) "BUILD.bazel"
  then try lenses <- get_code_lenses g uri; Ok (Some lenses)
  else
    match Graph.get_target_for_file to_file_path g uri with
    | Some target =>
        if is_test target then Ok (Some (test_lenses target)) else Ok None
    | None => Ok None
    end.

End CodeLens.

End Server.

(** * Discovery of the BUILD files ([scan_workspace], the directory walk) *)

Module Discovery.

(** Paths by components, as in [Workspace]. [Path::starts_with] compares
    whole components; [file_name] is the last one. *)
Definition file_name (p : list string) : string := List.last p EmptyString.

Fixpoint starts_with (p base : list string) : bool :=
  match base, p with
  | [], _ => true
  | b :: base', c :: p' => String.eqb b c && starts_with p' base'
  | _ :: _, [] => false
  end.

(** The predicate of [.filter(...)]. *)
Definition is_build_file (p : list string) : bool :=
  (String.eqb (file_name p) "BUILD" || String.eqb (file_name p) "BUILD.bazel")
  && negb (starts_with p (Workspace.components "bazel-")).

(** The walk gives entries or errors; [filter_map(|e| e.ok())] drops the
    errors, the filter keeps the BUILD files, [collect] keeps the order. *)
Definition discover (walk : list (Result (list string))) : list (list string) :=
  filter (fun p => is_build_file p = true)
    (omap (fun e => match e with Ok p => Some p | _ => None end) walk).

End Discovery.

(** * The tree of targets ([providers/targetProvider.ts]) *)

Module TargetProvider.

(** The [BazelTarget] of the extension, as [bazel/getAllTargets] sends it. *)
Record BazelTarget : Type := {
  label : string;
  kind : string;
  package : string;
  srcs : option (list string);
  deps : option (list string)
}.

(** A [Map<string, BazelTarget[]>]: its keys in the order of their first
    insertion. *)
Definition TargetMap : Type := list (string * list BazelTarget).

Fixpoint map_get (m : TargetMap) (k : string) : option (list BazelTarget) :=
  match m with
  | [] => None
  | (k', v) :: m' => if String.eqb k k' then Some v else map_get m' k
  end.

(** [targets.get(k)!.push(t)] *)
Fixpoint map_push (m : TargetMap) (k : string) (t : BazelTarget) : TargetMap :=
  match m with
  | [] => []
  | (k', v) :: m' =>
      if String.eqb k k' then (k', v ++ [t]) :: m' else (k', v) :: map_push m' k t
  end.

(** The loop of [loadTargets] over the result of the request. *)
Fixpoint group (result : list BazelTarget) (targets : TargetMap) : TargetMap :=
  match result with
  | [] => targets
  | target :: result' =>
      let targets1 :=
        match map_get targets (package target) with
        | Some _ => targets
        | None => targets ++ [(package target, [])]
        end in
      group result' (map_push targets1 (package target) target)
  end.

(** [loadTargets] after [this.targets.clear()]. *)
Definition loadTargets (result : list BazelTarget) : TargetMap := group result [].

(** [s.split(':')]: the pieces between the colons. *)
Fixpoint split_colon (cur s : string) : list string :=
  match s with
  | EmptyString => [cur]
  | String c s' =>
      if Ascii.eqb c ":"%char then cur :: split_colon EmptyString s'
      else split_colon (cur +:+ String c EmptyString) s'
  end.

(** [target.label.split(':')[1]], the label of a target's tree item;
    [None] is JavaScript's [undefined]. *)
Definition target_name (l : string) : option string :=
  nth_error (split_colon EmptyString l) 1.

(** The children of a package element: [this.targets.get(label) || []]
    mapped to the names. *)
Definition package_children (targets : TargetMap) (pkg : string)
  : list (option string) :=
  map (fun t => target_name (label t)) (default [] (map_get targets pkg)).

End TargetProvider.

(** * The shape of the pairs of an invocation *)

Module Shape.

Import Pest.

(** An [argument] pair as the grammar builds it: a name and a [value], or
    a [value] alone. *)
Definition is_argument (p : Pair) : Prop :=
  as_rule p = R_argument
  /\ match into_inner p with
     | [n; v] => as_rule n = R_identifier /\ as_rule v = R_value
     | [v] => as_rule v = R_value
     | _ => False
     end.

(** [arg] stores the value pair [v] under [key]: a named argument under
    its name, a positional one under "name". *)
Definition binds (arg : Pair) (key : string) (v : Pair) : Prop :=
  (exists n, into_inner arg = [n; v] /\ key = as_str n)
  \/ (into_inner arg = [v] /\ key = "name").

End Shape.

(** * Sample inputs for the further properties *)

Module Samples.

Import Pest.

(** The pair that the grammar gives for a text read as [rule]. *)
Definition pair_of (rule : RuleTag) (text : string) : Pair :=
  match BuildParser_parse rule text with
  | Ok (p :: _) => p
  | _ => MkPair EOI EmptyString (0, 0) []
  end.

Definition huge_list : Pair :=
  Eval vm_compute in pair_of R_list "[1, 99999999999999999999]".

Definition named_argument : Pair :=
  Eval vm_compute in pair_of R_argument "name = 'a'".

Definition positional_argument : Pair :=
  Eval vm_compute in pair_of R_argument "'b'".

(** A [parse_rule] that fails on an invocation it cannot turn into a
    Target, and the pairs of two files: one rule, and a rule without name. *)
Definition strict_parse_rule (p : Pair) (path : list string)
  : Result (option Graph.BazelTarget) :=
  match Workspace.parse_rule Workspace.root p path with
  | Ok None => Err (Bail "rule without a name")
  | r => r
  end.

Definition server_file : Pair :=
  Eval vm_compute in pair_of R_file Workspace.server_build.

Definition nameless_file : Pair :=
  Eval vm_compute in pair_of R_file "go_binary(srcs = ['x.go'])".

(** Two BUILD files that parse, scanned in the order of the files and
    with the operations of the second file first. *)
Definition two_files : list (list string * string) :=
  [ (Workspace.pkg_BUILD, Workspace.server_build);
    (Workspace.lib_BUILD, Workspace.lib_build) ].

Definition two_build_files : list (list string) :=
  [ Workspace.pkg_BUILD; Workspace.lib_BUILD ].

Definition scan_with_schedule (sched : list (Graph.op (PathBuf := list string)))
  : Graph.Scan (PathBuf := list string) :=
  Graph.scan_with Workspace.parent Workspace.join (Workspace.read_from two_files)
    BuildParser_parse (Workspace.parse_rule Workspace.root) Workspace.display
    sched (Graph.empty Workspace.root) two_build_files.

Definition lib_first : list (Graph.op (PathBuf := list string)) :=
  fst (Workspace.ops_of two_files Workspace.lib_BUILD)
  ++ fst (Workspace.ops_of two_files Workspace.pkg_BUILD).

(** A build tool that cannot be started. *)
Definition tool_missing (args : list string) : Result Client.Output :=
  Err (IoError "No such file or directory (os error 2)").

(** A client whose cache holds two expressions and is full. *)
Definition small_client : Client.BazelClient (QueryResult := list string) :=
  {| Client.query_cache :=
       {| Client.cap := 2;
          Client.entries := [("deps(//pkg:lib)", ["//pkg:lib"]);
                             ("deps(//pkg:server)", ["//pkg:server"])] |};
     Client.spawned := [] |}.

(** A build whose output has two event lines around a line that is not
    one; events are kept as their text, and a handler that accepts them. *)
Definition event_of (line : string) : option string :=
  match Pest.strip_prefix "{" line with
  | Some _ => Some line
  | None => None
  end.

Definition accept (event : string) : Result unit := Ok tt.

Definition refuse_finished (event : string) : Result unit :=
  if String.eqb event "{finished}" then Err (Bail "handler failed") else Ok tt.

Definition build_child : Client.Child :=
  {| Client.stdout_lines := [Ok "{started}"; Ok "INFO: not an event";
                             Ok "{finished}"; Ok "{summary}"];
     Client.exit_success := Ok true |}.

Definition spawn_build (args : list string) : Result Client.Child :=
  Ok build_child.

(** What [parse_statement] makes of the invocation of the scenario. *)
Definition server_rule : option Parser.Rule :=
  match Parser.parse_statement "pkg" (Workspace.call_of Workspace.server_build) with
  | Ok r => r
  | _ => None
  end.

(** A client operation that succeeds, and one that fails. *)
Definition client_ok (target : string) : Result unit := Ok tt.

Definition client_failing (target : string) : Result unit :=
  Err (Bail "test failed").

(** A server over [file://] URLs: the path of a URL, a test by the suffix
    of its kind, and no lenses of its own for BUILD files. *)
Definition url_path (uri : string) : string :=
  default uri (Pest.strip_prefix "file://" uri).

Definition is_test (t : Graph.BazelTarget) : bool :=
  Server.ends_with (Graph.kind t) "_test".

Definition no_lenses (g : Graph.BuildGraph (PathBuf := list string)) (uri : string)
  : Result (list Server.LensCommand) := Ok [].

(** Two BUILD files of one directory claiming [util.go]: the library
    first. *)
Definition library_first : list (list string * string) :=
  [ (Workspace.pkg_BUILD, "go_library(name = 'util', srcs = ['util.go'])");
    (Workspace.pkg_BUILD_bazel,
     "go_test(name = 'util_test', srcs = ['util.go', 'util_test.go'])") ].

Definition library_graph : Graph.BuildGraph (PathBuf := list string) :=
  Graph.graph (Workspace.scan library_first
                 [Workspace.pkg_BUILD; Workspace.pkg_BUILD_bazel]).

Definition util_library : Graph.BazelTarget :=
  {| Graph.label := "//pkg:util";
     Graph.kind := "go_library";
     Graph.srcs := ["util.go"];
     Graph.deps := [];
     Graph.location := {| Parser.line := 1; Parser.column := 1 |};
     Graph.attributes := ∅ |}.

End Samples.

(** * Properties of the derived parser *)

Section PestFacts.

Import Pest.

Variable src : string.

(** A parser that knows more about the nested expressions knows more about
    the expression. *)
Lemma step_mono (rec1 rec2 : bool -> expr -> nat -> string -> outcome) :
  (forall a e p r, below (rec1 a e p r) (rec2 a e p r)) ->
  forall a e p r, below (step src rec1 a e p r) (step src rec2 a e p r).
Proof.
  intros Hrec a e p r. unfold step.
  destruct e; try (now right);
    repeat match goal with
           | |- below Exhausted _ => now left
           | |- below ?x ?x => now right
           | |- context [if a then _ else _] => destruct a
           | |- context [rec1 ?a' ?e' ?p' ?r'] =>
               let Hx := fresh "Hx" in
               destruct (Hrec a' e' p' r') as [Hx|Hx]; rewrite Hx; clear Hx;
               [ cbn | destruct (rec2 a' e' p' r'); cbn ]
           end.
Qed.

Lemma run_mono fuel : forall a e p r,
  below (run src fuel a e p r) (run src (S fuel) a e p r).
Proof.
  induction fuel as [|fuel IH]; intros a e p r; [now left|].
  change (below (step src (run src fuel) a e p r)
            (step src (run src (S fuel)) a e p r)).
  now apply step_mono.
Qed.

(** Once the budget suffices, a larger one changes nothing: a rejection is
    a rejection by the grammar. *)
Lemma run_stable fuel fuel' a e p r o :
  fuel <= fuel' ->
  run src fuel a e p r = o -> o <> Exhausted -> run src fuel' a e p r = o.
Proof.
  induction 1 as [|fuel' Hle IH]; intros Hrun Hne; [exact Hrun|].
  destruct (run_mono fuel' a e p r) as [Hx|Hx].
  - rewrite (IH Hrun Hne) in Hx. now subst.
  - rewrite <- Hx. now apply IH.
Qed.

End PestFacts.

(** The pairs returned for the start rule [file] are the one pair of that
    rule, which holds the statements inside. *)
Lemma file_is_one_pair (content : string) (pairs : list Pest.Pair) :
  Pest.BuildParser_parse Pest.R_file content = Ok pairs ->
  exists text start inner, pairs = [Pest.MkPair Pest.R_file text start inner].
Proof.
  unfold Pest.BuildParser_parse, Pest.budget.
  destruct (64 * (String.length content + 4))%nat as [|fuel] eqn:Hb; [lia|].
  cbn [Pest.run]. unfold Pest.step at 1. cbn [Pest.grammar fst snd orb Pest.normal
    Pest.silent Pest.atomic_body].
  destruct (Pest.run content fuel false _ 0 content) as [| |p1 r1 toks];
    try discriminate.
  intros [= <-]. eauto.
Qed.

(** [parse] iterates over the pairs returned for [file] and hands each to
    [parse_statement]; with the derived parser that is the pair of the
    whole file, which is not an invocation, so the rules of an accepted file
    come out empty. The properties below do not depend on this: they are
    stated for [parse_statement] on any pair and for [parse] over any
    parser. *)
Lemma parse_of_accepted_file (package_name content : string)
    (pairs : list Pest.Pair) :
  Pest.BuildParser_parse Pest.R_file content = Ok pairs ->
  Parser.parse package_name Pest.BuildParser_parse content = Ok [].
Proof.
  intros Hp. destruct (file_is_one_pair content pairs Hp) as (text & start & inner & ->).
  unfold Parser.parse. now rewrite Hp.
Qed.

(** * Properties of the parser *)

Section ParserFacts.

Import Pest Parser.

Variable package_name : string.
Variable BuildParser_parse : RuleTag -> string -> Result (list Pair).

Abbreviation parse_statement := (Parser.parse_statement package_name).
Abbreviation parse_pairs := (Parser.parse_pairs package_name).
Abbreviation parse := (Parser.parse package_name BuildParser_parse).

(** The rules that a list of pairs yields when every statement converts. *)
Lemma parse_pairs_ok pairs : forall rules rules',
  parse_pairs pairs rules = Ok rules' ->
  Forall (fun p => is_ok (parse_statement p) = true) pairs
  /\ rules' = rules ++ omap (fun p => match parse_statement p with
                                      | Ok r => r
                                      | _ => None
                                      end) pairs.
Proof.
  induction pairs as [|p pairs IH]; intros rules rules' Hp; simpl in Hp.
  - inversion Hp; subst. split; [constructor | now rewrite app_nil_r].
  - destruct (parse_statement p) as [[rule|]| |] eqn:Hs; simpl in Hp;
      try discriminate.
    + apply IH in Hp as [Hall ->]. split.
      * constructor; [now rewrite Hs | exact Hall].
      * simpl. rewrite Hs. now rewrite <- app_assoc.
    + apply IH in Hp as [Hall ->]. split.
      * constructor; [now rewrite Hs | exact Hall].
      * simpl. now rewrite Hs.
Qed.

(** The first statement that fails to convert ends the loop with its
    failure, whatever follows it. *)
Lemma parse_pairs_first_failure pairs : forall rules,
  is_ok (parse_pairs pairs rules) = false ->
  exists before p after,
    pairs = before ++ p :: after
    /\ Forall (fun q => is_ok (parse_statement q) = true) before
    /\ ((exists e, parse_statement p = Err e /\ parse_pairs pairs rules = Err e)
        \/ (parse_statement p = Panic /\ parse_pairs pairs rules = Panic)).
Proof.
  induction pairs as [|q pairs IH]; intros rules Hf; simpl in Hf; [discriminate|].
  destruct (parse_statement q) as [r|e|] eqn:Hs.
  - assert (Hrest : exists rules1,
               parse_pairs (q :: pairs) rules = parse_pairs pairs rules1
               /\ is_ok (parse_pairs pairs rules1) = false).
    { simpl. rewrite Hs. simpl. destruct r as [rule|]; simpl in Hf; eauto. }
    destruct Hrest as (rules1 & Heq & Hf1).
    destruct (IH rules1 Hf1) as (before & p & after & -> & Hall & Hp).
    exists (q :: before), p, after. split; [reflexivity|]. split.
    + constructor; [now rewrite Hs | exact Hall].
    + rewrite Heq. exact Hp.
  - exists [], q, pairs. split; [reflexivity|]. split; [constructor|].
    left. exists e. split; [exact Hs|]. simpl. now rewrite Hs.
  - exists [], q, pairs. split; [reflexivity|]. split; [constructor|].
    right. split; [exact Hs|]. simpl. now rewrite Hs.
Qed.

(** C1, as amended: [parse] is all or nothing. When the grammar rejects the
    input the call returns that one error, for the whole file and without
    any statement; when the grammar accepts it, either every statement
    converts and the rules of those statements are returned in order, or
    the first statement that fails to convert ends the call: the statements
    before it have converted, and the call returns the failure of that
    statement, whatever the statements after it are, and no rule. Nothing
    is recovered at a statement boundary. *)
Theorem parse_all_or_nothing (content : string) :
  match BuildParser_parse R_file content with
  | Err e => parse content = Err e /\ diagnostics (parse content) = [e]
  | Ok pairs =>
      (Forall (fun p => is_ok (parse_statement p) = true) pairs
       /\ parse content = Ok (omap (fun p => match parse_statement p with
                                             | Ok r => r
                                             | _ => None
                                             end) pairs))
      \/ (exists before p after,
            pairs = before ++ p :: after
            /\ Forall (fun q => is_ok (parse_statement q) = true) before
            /\ ((exists e, parse_statement p = Err e
                           /\ parse content = Err e
                           /\ diagnostics (parse content) = [e])
                \/ (parse_statement p = Panic /\ parse content = Panic)))
  | Panic => parse content = Panic
  end.
Proof.
  unfold Parser.parse.
  destruct (BuildParser_parse R_file content) as [pairs|e|]; simpl; auto.
  destruct (parse_pairs pairs []) as [rules|e|] eqn:Hp.
  - left. apply parse_pairs_ok in Hp as [Hall ->]. auto.
  - right. destruct (parse_pairs_first_failure pairs []) as
      (before & p & after & Hsplit & Hall & Hfail); [now rewrite Hp|].
    exists before, p, after. split; [exact Hsplit|]. split; [exact Hall|].
    rewrite Hp in Hfail. destruct Hfail as [(e' & Hs & [= <-])|[_ Hpanic]];
      [|discriminate].
    left. exists e. auto.
  - right. destruct (parse_pairs_first_failure pairs []) as
      (before & p & after & Hsplit & Hall & Hfail); [now rewrite Hp|].
    exists before, p, after. split; [exact Hsplit|]. split; [exact Hall|].
    rewrite Hp in Hfail. destruct Hfail as [(e' & _ & Hne)|[Hs _]];
      [discriminate|].
    now right.
Qed.

(** The conversion of an invocation, case by case. *)
Lemma parse_statement_call p first args :
  as_rule p = R_function_call ->
  into_inner p = first :: args ->
  parse_statement p =
    if is_bazel_rule (as_str first) then
      try attrs <- collect_attributes args ∅;
      match attrs !! "name" with
      | Some (VString n) =>
          Ok (Some {| name := "//" +:+ package_name +:+ ":" +:+ n;
                      kind := as_str first;
                      attributes := attrs;
                      location := {| line := fst (line_col p);
                                     column := snd (line_col p) |} |})
      | _ => Ok None
      end
    else Ok None.
Proof.
  intros Hr Hi. unfold Parser.parse_statement. rewrite Hr, Hi.
  now destruct (is_bazel_rule (as_str first)).
Qed.

(** C6, as amended: an invocation becomes a Rule exactly when its call name
    is in the built-in list of [is_bazel_rule], its arguments convert and
    its name attribute is a string; an invocation of any other kind yields
    nothing at all, [Ok(None)], the same as a statement that is not a call. *)
Theorem promotion_by_builtin_list (p first : Pair) (args : list Pair) :
  as_rule p = R_function_call ->
  into_inner p = first :: args ->
  (is_bazel_rule (as_str first) = false -> parse_statement p = Ok None)
  /\ (forall r, parse_statement p = Ok (Some r) <->
        is_bazel_rule (as_str first) = true
        /\ exists attrs n,
             collect_attributes args ∅ = Ok attrs
             /\ attrs !! "name" = Some (VString n)
             /\ r = {| name := "//" +:+ package_name +:+ ":" +:+ n;
                       kind := as_str first;
                       attributes := attrs;
                       location := {| line := fst (line_col p);
                                      column := snd (line_col p) |} |}).
Proof.
  intros Hr Hi. rewrite (parse_statement_call p first args Hr Hi). split.
  - now intros ->.
  - intros r. destruct (is_bazel_rule (as_str first)); [|split; [discriminate | now intros [? _]]].
    destruct (collect_attributes args ∅) as [attrs| |]; simpl.
    + split.
      * destruct (attrs !! "name") as [[n| | | | | |]|] eqn:Hn; try discriminate.
        intros [= <-]. split; [reflexivity|]. now exists attrs, n.
      * intros [_ (attrs' & n & [= <-] & Hn & ->)]. now rewrite Hn.
    + split; [discriminate | intros [_ (? & ? & ? & _)]; discriminate].
    + split; [discriminate | intros [_ (? & ? & ? & _)]; discriminate].
Qed.

(** C8, as amended: an invocation of a listed kind whose name attribute is
    missing or is not a string is dropped without any diagnostic:
    [parse_statement] returns [Ok(None)], an outcome that carries no error,
    and [parse] goes on with the next pair as if the statement were absent. *)
Theorem nameless_invocation_dropped (p first : Pair) (args : list Pair)
    (attrs : gmap string Value) :
  as_rule p = R_function_call ->
  into_inner p = first :: args ->
  is_bazel_rule (as_str first) = true ->
  collect_attributes args ∅ = Ok attrs ->
  (forall n, attrs !! "name" <> Some (VString n)) ->
  parse_statement p = Ok None
  /\ diagnostics (parse_statement p) = []
  /\ forall rest rules, parse_pairs (p :: rest) rules = parse_pairs rest rules.
Proof.
  intros Hr Hi Hk Hc Hn.
  assert (Hs : parse_statement p = Ok None).
  { rewrite (parse_statement_call p first args Hr Hi), Hk, Hc. simpl.
    destruct (attrs !! "name") as [[n| | | | | |]|] eqn:E; try reflexivity.
    now destruct (Hn n). }
  split; [exact Hs|]. split; [now rewrite Hs|].
  intros rest rules. simpl. now rewrite Hs.
Qed.

End ParserFacts.

(** C1, as the specification has it, fails: a file whose first statement is
    well formed and whose second is unfinished gives an error for the whole
    file, and no statement. *)
Lemma parse_rejects_whole_file :
  is_ok (Pest.BuildParser_parse Pest.R_statement Workspace.first_statement) = true
  /\ Parser.parse "pkg" Pest.BuildParser_parse Workspace.broken_build
     = Err PestError.
Proof. split; vm_compute; reflexivity. Qed.

(** The rejection above is the grammar's: no deeper recursion accepts the
    file. *)
Lemma broken_build_rejected_at_any_depth (fuel : nat) :
  Pest.budget Workspace.broken_build <= fuel ->
  Pest.run Workspace.broken_build fuel false (Pest.Call Pest.R_file) 0
    Workspace.broken_build = Pest.NoMatch.
Proof.
  intros Hle. eapply run_stable; [exact Hle | vm_compute; reflexivity | discriminate].
Qed.

(** C6, as the specification has it, fails: an invocation whose kind is
    not listed leaves nothing behind, neither a Rule nor a statement. *)
Lemma unlisted_invocation_not_retained :
  Pest.BuildParser_parse Pest.R_function_call "my_macro(name = 'gen')"
  = Ok [Workspace.macro_call]
  /\ Parser.is_bazel_rule "my_macro" = false
  /\ Parser.parse_statement "pkg" Workspace.macro_call = Ok None
  /\ Parser.parse_pairs "pkg" [Workspace.macro_call] [] = Ok [].
Proof. repeat split; vm_compute; reflexivity. Qed.

Lemma promotion_by_builtin_list_witness :
  (Parser.is_bazel_rule "go_binary" = false ->
   Parser.parse_statement "pkg" Workspace.server_call = Ok None)
  /\ (forall r, Parser.parse_statement "pkg" Workspace.server_call = Ok (Some r) <->
        Parser.is_bazel_rule "go_binary" = true
        /\ exists attrs n,
             Parser.collect_attributes
               (tail (Pest.into_inner Workspace.server_call)) ∅ = Ok attrs
             /\ attrs !! "name" = Some (Parser.VString n)
             /\ r = {| Parser.name := "//" +:+ "pkg" +:+ ":" +:+ n;
                       Parser.kind := "go_binary";
                       Parser.attributes := attrs;
                       Parser.location := {| Parser.line := 1; Parser.column := 1 |} |}).
Proof.
  apply (promotion_by_builtin_list "pkg" Workspace.server_call
           (Pest.MkPair Pest.R_identifier "go_binary" (1, 1) [])
           (tail (Pest.into_inner Workspace.server_call))); reflexivity.
Defined.

(** C8, as the specification has it, fails: a listed invocation without a
    name is dropped and nothing tells the caller. *)
Lemma nameless_invocation_silent :
  Pest.BuildParser_parse Pest.R_function_call "go_binary(srcs = ['main.go'])"
  = Ok [Workspace.nameless_call]
  /\ Parser.is_bazel_rule "go_binary" = true
  /\ Parser.parse_statement "pkg" Workspace.nameless_call = Ok None
  /\ Parser.diagnostics (Parser.parse_statement "pkg" Workspace.nameless_call) = []
  /\ Parser.parse_pairs "pkg" [Workspace.nameless_call] [] = Ok []
  /\ Parser.diagnostics (Parser.parse_pairs "pkg" [Workspace.nameless_call] []) = [].
Proof. repeat split; vm_compute; reflexivity. Qed.

Lemma nameless_invocation_dropped_witness :
  Parser.parse_statement "pkg" Workspace.nameless_call = Ok None
  /\ Parser.diagnostics (Parser.parse_statement "pkg" Workspace.nameless_call) = []
  /\ forall rest rules,
       Parser.parse_pairs "pkg" (Workspace.nameless_call :: rest) rules
       = Parser.parse_pairs "pkg" rest rules.
Proof.
  apply (nameless_invocation_dropped "pkg" Workspace.nameless_call
           (Pest.MkPair Pest.R_identifier "go_binary" (1, 1) [])
           (tail (Pest.into_inner Workspace.nameless_call))
           {[ "srcs" := Parser.VString "['main.go']" ]}).
  - reflexivity.
  - reflexivity.
  - reflexivity.
  - vm_compute. reflexivity.
  - intros n. vm_compute. discriminate.
Defined.

(** * Properties of the parse cache *)

Section CacheFacts.

Import Cache.

Context {PathBuf : Type} `{Countable PathBuf}.
Context {Digest : Type} `{EqDecision Digest}.
Variable blake3_hash : string -> Digest.

Abbreviation get_or_parse := (Cache.get_or_parse blake3_hash).

(** C10, as amended: the cached rules are returned only when the entry of
    the path has the hash of the supplied content and is younger than the
    time-to-live, and then the cache is left as it is; in every other case
    the supplied content is parsed, and a fresh entry is stored when that
    parse succeeds, while a failing parse returns its error and leaves the
    cache as it was. *)
Theorem get_or_parse_cases (self : ParseCache) (t_check t_store : Instant)
    (path : PathBuf) (content : string) (parse_fn : string -> Result (list Parser.Rule)) :
  (exists cached,
      cache self !! path = Some cached
      /\ hash cached = blake3_hash content
      /\ elapsed t_check (timestamp cached) < ttl self
      /\ get_or_parse self t_check t_store path content parse_fn
         = (Ok (rules cached), self))
  \/ ((forall cached, cache self !! path = Some cached ->
         hash cached <> blake3_hash content
         \/ ttl self <= elapsed t_check (timestamp cached))
      /\ match parse_fn content with
         | Ok rs =>
             get_or_parse self t_check t_store path content parse_fn
             = (Ok rs,
                {| cache := <[path := {| rules := rs;
                                         hash := blake3_hash content;
                                         timestamp := t_store |}]> (cache self);
                   ttl := ttl self |})
         | Err e =>
             get_or_parse self t_check t_store path content parse_fn = (Err e, self)
         | Panic =>
             get_or_parse self t_check t_store path content parse_fn = (Panic, self)
         end).
Proof.
  unfold Cache.get_or_parse.
  destruct (cache self !! path) as [cached|] eqn:Hc.
  - destruct (decide (hash cached = blake3_hash content)) as [Hh|Hh].
    + destruct (Nat.ltb_spec (elapsed t_check (timestamp cached)) (ttl self)) as [Hl|Hl].
      * left. exists cached. rewrite bool_decide_eq_true_2 by exact Hh.
        repeat split; auto.
      * right. rewrite bool_decide_eq_true_2 by exact Hh. simpl. split.
        -- intros c [= <-]. now right.
        -- now destruct (parse_fn content).
    + right. rewrite bool_decide_eq_false_2 by exact Hh. simpl. split.
      * intros c [= <-]. now left.
      * now destruct (parse_fn content).
  - right. split; [discriminate|]. now destruct (parse_fn content).
Qed.

End CacheFacts.

(** C10, as stated, fails: the content of the file has changed, so the
    entry is not served, but the parse of the new content fails and no
    fresh entry is stored; the entry of the old content stays. *)
Lemma failed_reparse_stores_nothing :
  Cache.hash <$> (Cache.cache Workspace.warm_cache !! Workspace.pkg_BUILD)
  = Some Workspace.server_build
  /\ Workspace.server_build <> Workspace.broken_build
  /\ Cache.get_or_parse id Workspace.warm_cache 10 10 Workspace.pkg_BUILD
       Workspace.broken_build Workspace.parse_fn
     = (Err PestError, Workspace.warm_cache).
Proof.
  split; [vm_compute; reflexivity|]. split; [discriminate|].
  vm_compute. reflexivity.
Qed.

(** * Properties of the query client *)

Section LruFacts.

Import Client.

Context {V : Type}.
Implicit Types (l : list (string * V)) (c : LruCache V).







Lemma lru_get_cap k c : cap (snd (lru_get k c)) = cap c.
Proof. unfold lru_get. now destruct (assoc k (entries c)). Qed.

Lemma lru_put_cap k v c : cap (lru_put k v c) = cap c.
Proof. unfold lru_put. now destruct (assoc k (entries c)). Qed.

Lemma lru_get_miss k c : assoc k (entries c) = None -> lru_get k c = (None, c).
Proof. unfold lru_get. now intros ->. Qed.

End LruFacts.

Section ClientFacts.

Import Client.

Context {QueryResult : Type}.
Variable parse_query_output : string -> Result QueryResult.
Variable from_utf8_lossy : string -> string.

Abbreviation query := (Client.query parse_query_output from_utf8_lossy).
Abbreviation step := (Client.step parse_query_output from_utf8_lossy).
Abbreviation run := (Client.run parse_query_output from_utf8_lossy).

Implicit Types (self : BazelClient (QueryResult := QueryResult)).



(** A miss runs the tool once. *)
Lemma query_miss tool self q :
  assoc q (entries (query_cache self)) = None ->
  spawned (snd (query tool self q)) = query_args q :: spawned self.
Proof.
  intros Ha. unfold Client.query. rewrite (lru_get_miss q _ Ha).
  destruct (tool (query_args q)) as [output| |]; simpl; try reflexivity.
  destruct (success output); simpl; [|reflexivity].
  now destruct (parse_query_output (stdout output)).
Qed.


Lemma query_cap tool self q :
  cap (query_cache (snd (query tool self q))) = cap (query_cache self).
Proof.
  unfold Client.query.
  destruct (lru_get q (query_cache self)) as [[result|] cache] eqn:Hg;
    pose proof (lru_get_cap q (query_cache self)) as Hc; rewrite Hg in Hc;
    simpl in Hc.
  - exact Hc.
  - destruct (tool (query_args q)) as [output| |]; simpl; try exact Hc.
    destruct (success output); simpl; [|exact Hc].
    destruct (parse_query_output (stdout output)); simpl; try exact Hc.
    now rewrite lru_put_cap.
Qed.


Lemma step_cap self ev : cap (query_cache (step self ev)) = cap (query_cache self).
Proof. destruct ev; simpl; [apply query_cap | reflexivity | reflexivity]. Qed.





(** C4: a call whose subprocess exits non-zero returns an error that
    carries the tool's diagnostic text, not a result; the cache is left as
    it was, so the next call for the same expression runs the subprocess
    again. *)
Theorem failed_query_not_cached (tool : list string -> Result Output) self
    (Q : string) (output : Output) :
  assoc Q (entries (query_cache self)) = None ->
  tool (query_args Q) = Ok output ->
  success output = false ->
  fst (query tool self Q)
  = Err (Bail ("Bazel query failed: " +:+ from_utf8_lossy (stderr output)))
  /\ query_cache (snd (query tool self Q)) = query_cache self
  /\ invocations (snd (query tool self Q)) = S (invocations self)
  /\ forall tool',
       invocations (snd (query tool' (snd (query tool self Q)) Q))
       = S (invocations (snd (query tool self Q))).
Proof.
  intros Hmiss Htool Hfail.
  assert (Hq : query tool self Q
               = (Err (Bail ("Bazel query failed: " +:+ from_utf8_lossy (stderr output))),
                  {| query_cache := query_cache self;
                     spawned := query_args Q :: spawned self |})).
  { unfold Client.query. rewrite (lru_get_miss Q _ Hmiss), Htool, Hfail. reflexivity. }
  rewrite Hq. simpl. repeat split.
  intros tool'. unfold invocations.
  rewrite (query_miss tool' _ Q); [reflexivity | exact Hmiss].
Qed.

End ClientFacts.



Lemma failed_query_not_cached_witness :
  fst (Workspace.client_query Workspace.tool_failing Workspace.fresh_client
         "deps(//pkg:server)")
  = Err (Bail ("Bazel query failed: " +:+ "ERROR: no such package 'pkg'")).
Proof.
  apply (failed_query_not_cached Workspace.decode id Workspace.tool_failing
           Workspace.fresh_client "deps(//pkg:server)"
           {| Client.success := false; Client.stdout := EmptyString;
              Client.stderr := "ERROR: no such package 'pkg'" |});
    reflexivity.
Defined.

(** * Properties of the build graph *)

Section InterleavingFacts.

Import Graph.

Context {A : Type}.
Implicit Types (threads : list (list A)) (sched : list A).

(** A schedule holds the operations of the threads, and nothing else. *)
Lemma interleaving_elem threads sched (a : A) :
  interleaving threads sched ->
  a ∈ sched <-> exists i t, threads !! i = Some t /\ a ∈ t.
Proof.
  induction 1 as [threads Hall | threads i b t sched Hi Hrest IH].
  - split.
    + intros Hin. inversion Hin.
    + intros (i & t & Hi & Hin). rewrite Forall_forall in Hall.
      rewrite (Hall t) in Hin by (eapply list_elem_of_lookup_2, Hi).
      inversion Hin.
  - rewrite elem_of_cons, IH. split.
    + intros [->|(j & t' & Hj & Hin)].
      * exists i, (b :: t). split; [exact Hi | left].
      * destruct (decide (i = j)) as [->|Hne].
        -- rewrite list_lookup_insert_eq in Hj by (eapply lookup_lt_Some, Hi).
           inversion Hj; subst. exists j, (b :: t'). split; [exact Hi | now right].
        -- rewrite list_lookup_insert_ne in Hj by exact Hne. eauto.
    + intros (j & t' & Hj & Hin). destruct (decide (i = j)) as [->|Hne].
      * rewrite Hi in Hj. inversion Hj; subst.
        apply elem_of_cons in Hin as [->|Hin]; [now left|].
        right. exists j, t. split; [|exact Hin].
        apply list_lookup_insert_eq. eapply lookup_lt_Some, Hi.
      * right. exists j, t'. split; [|exact Hin].
        now rewrite list_lookup_insert_ne.
Qed.

Lemma interleaving_cons_nil threads sched :
  interleaving threads sched -> interleaving ([] :: threads) sched.
Proof.
  induction 1 as [threads Hall | threads i b t sched Hi Hrest IH].
  - constructor. now constructor.
  - apply (interleaving_step _ (S i) b t); [exact Hi | exact IH].
Qed.

(** Running the threads one after the other is one of the schedules. *)
Lemma interleaving_concat threads : interleaving threads (concat threads).
Proof.
  induction threads as [|t threads IH]; simpl.
  - constructor. constructor.
  - induction t as [|a t IHt]; simpl.
    + now apply interleaving_cons_nil.
    + apply (interleaving_step _ 0 a t); [reflexivity | exact IHt].
Qed.

End InterleavingFacts.

Section GraphFacts.

Import Pest Graph.

Context {PathBuf : Type} `{Countable PathBuf}.
Context {Url : Type}.
Variable parent : PathBuf -> option PathBuf.
Variable join : PathBuf -> string -> PathBuf.
Variable to_file_path : Url -> option PathBuf.
Variable read_to_string : PathBuf -> Result string.
Variable BuildParser_parse : RuleTag -> string -> Result (list Pair).
Variable parse_rule : Pair -> PathBuf -> Result (option BazelTarget).
Variable display : Error -> string.

Abbreviation update_file_mappings := (Graph.update_file_mappings parent join).
Abbreviation index_pairs := (Graph.index_pairs parent join parse_rule).
Abbreviation parse_build_file :=
  (Graph.parse_build_file parent join read_to_string BuildParser_parse parse_rule).
Abbreviation get_target_for_file := (Graph.get_target_for_file to_file_path).
Abbreviation target_ops := (Graph.target_ops parent join).
Abbreviation pairs_ops := (Graph.pairs_ops parent join parse_rule).
Abbreviation file_ops :=
  (Graph.file_ops parent join read_to_string BuildParser_parse parse_rule).
Abbreviation pairs_targets := (Graph.pairs_targets parse_rule).
Abbreviation file_targets :=
  (Graph.file_targets read_to_string BuildParser_parse parse_rule).
Abbreviation scan_with :=
  (Graph.scan_with parent join read_to_string BuildParser_parse parse_rule display).
Abbreviation scan_workspace :=
  (Graph.scan_workspace parent join read_to_string BuildParser_parse parse_rule display).
Abbreviation scan_in_order :=
  (Graph.scan_in_order parent join read_to_string BuildParser_parse parse_rule display).

Implicit Types (g : BuildGraph (PathBuf := PathBuf)) (ops : list (op (PathBuf := PathBuf))).
Implicit Types (path file : PathBuf) (t : BazelTarget).

(** ** The two maps after a sequence of operations *)

Lemma run_ops_file_to_targets ops : forall g file,
  file_to_targets (run_ops g ops) !! file =
    match pushed file ops with
    | [] => file_to_targets g !! file
    | ls => Some (default [] (file_to_targets g !! file) ++ ls)
    end.
Proof.
  induction ops as [|o ops IH] using rev_ind; intros g file; [reflexivity|].
  unfold run_ops, pushed in *. rewrite foldl_snoc, omap_app.
  fold (run_ops g ops). destruct o as [f l|l t]; simpl.
  - destruct (decide (f = file)) as [->|Hne].
    + rewrite bool_decide_eq_true_2 by reflexivity. rewrite lookup_insert_eq.
      fold (pushed file ops). unfold run_ops. rewrite IH. fold (pushed file ops).
      destruct (pushed file ops) as [|l0 ls]; simpl.
      * reflexivity.
      * now rewrite <- app_assoc.
    + rewrite bool_decide_eq_false_2 by exact Hne.
      rewrite lookup_insert_ne by exact Hne. rewrite app_nil_r. apply IH.
  - rewrite app_nil_r. apply IH.
Qed.

Lemma run_ops_targets ops : forall g l,
  targets (run_ops g ops) !! l =
    match last (inserted l ops) with
    | Some t => Some t
    | None => targets g !! l
    end.
Proof.
  induction ops as [|o ops IH] using rev_ind; intros g l; [reflexivity|].
  unfold run_ops, inserted in *. rewrite foldl_snoc, omap_app.
  destruct o as [f l'|l' t]; simpl.
  - rewrite app_nil_r. apply IH.
  - destruct (decide (l' = l)) as [->|Hne].
    + rewrite bool_decide_eq_true_2 by reflexivity. rewrite lookup_insert_eq.
      now rewrite last_snoc.
    + rewrite bool_decide_eq_false_2 by exact Hne.
      rewrite lookup_insert_ne by exact Hne. rewrite app_nil_r. apply IH.
Qed.

Lemma elem_of_pushed file l ops : l ∈ pushed file ops <-> Push file l ∈ ops.
Proof.
  unfold pushed. rewrite list_elem_of_omap. split.
  - intros ([f l'|l' t] & Hin & Hsome); [|discriminate].
    destruct (decide (f = file)) as [->|Hne].
    + rewrite bool_decide_eq_true_2 in Hsome by reflexivity. now inversion Hsome; subst.
    + rewrite bool_decide_eq_false_2 in Hsome by exact Hne. discriminate.
  - intros Hin. exists (Push file l). split; [exact Hin|].
    now rewrite bool_decide_eq_true_2.
Qed.

Lemma elem_of_inserted l t ops : t ∈ inserted l ops <-> Insert l t ∈ ops.
Proof.
  unfold inserted. rewrite list_elem_of_omap. split.
  - intros ([f l'|l' t'] & Hin & Hsome); [discriminate|].
    destruct (decide (l' = l)) as [->|Hne].
    + rewrite bool_decide_eq_true_2 in Hsome by reflexivity. now inversion Hsome; subst.
    + rewrite bool_decide_eq_false_2 in Hsome by exact Hne. discriminate.
  - intros Hin. exists (Insert l t). split; [exact Hin|].
    now rewrite bool_decide_eq_true_2.
Qed.

(** A label pushed for a file is among the labels of that file. *)
Lemma pushed_indexed g ops file l :
  Push file l ∈ ops ->
  exists labels, file_to_targets (run_ops g ops) !! file = Some labels /\ l ∈ labels.
Proof.
  intros Hin. apply elem_of_pushed in Hin. rewrite run_ops_file_to_targets.
  destruct (pushed file ops) as [|l0 ls] eqn:Hp; [inversion Hin|].
  eexists. split; [reflexivity|]. apply elem_of_app. now right.
Qed.

(** A label inserted holds the target of its last insertion. *)
Lemma inserted_indexed g ops l t :
  Insert l t ∈ ops ->
  exists t', targets (run_ops g ops) !! l = Some t' /\ Insert l t' ∈ ops.
Proof.
  intros Hin. apply elem_of_inserted in Hin. rewrite run_ops_targets.
  destruct (last (inserted l ops)) as [t'|] eqn:Hl.
  - exists t'. split; [reflexivity|]. apply elem_of_inserted.
    now apply last_Some_elem_of.
  - apply last_None in Hl. rewrite Hl in Hin. inversion Hin.
Qed.

(** The file a lookup resolves to is the first one pushed for the path. *)
Lemma first_pushed_wins root ops (file : Url) path :
  to_file_path file = Some path ->
  get_target_for_file (run_ops (Graph.empty root) ops) file
  = (l ← head (pushed path ops); targets (run_ops (Graph.empty root) ops) !! l).
Proof.
  intros Hp. unfold Graph.get_target_for_file. rewrite Hp. simpl.
  rewrite run_ops_file_to_targets. simpl. rewrite lookup_empty. simpl.
  now destruct (pushed path ops).
Qed.

(** ** The operations of a file and the state-passing reading agree *)

Lemma update_file_mappings_ops path l srcs : forall g,
  update_file_mappings path l srcs g =
    match srcs, parent path with
    | [], _ => (Ok tt, g)
    | _ :: _, None => (Panic, g)
    | _ :: _, Some dir =>
        (Ok tt, run_ops g (map (fun src => Push (join dir src) l) srcs))
    end.
Proof.
  induction srcs as [|src srcs IH]; intros g; [reflexivity|].
  simpl. destruct (parent path) as [dir|]; [|reflexivity].
  rewrite IH. now destruct srcs.
Qed.

Lemma index_pairs_ops path pairs : forall g,
  index_pairs path pairs g
  = (snd (pairs_ops path pairs), run_ops g (fst (pairs_ops path pairs))).
Proof.
  induction pairs as [|p pairs IH]; intros g; [reflexivity|].
  simpl. destruct (parse_rule p path) as [[target|]| |]; try reflexivity.
  - rewrite update_file_mappings_ops. unfold Graph.target_ops.
    destruct (srcs target) as [|src srcs'] eqn:Hs.
    + rewrite IH. destruct (pairs_ops path pairs) as [ops' r]. reflexivity.
    + destruct (parent path) as [dir|]; [|reflexivity].
      rewrite IH. destruct (pairs_ops path pairs) as [ops' r]. simpl.
      f_equal. unfold run_ops. rewrite !foldl_app. reflexivity.
  - apply IH.
Qed.

Lemma parse_build_file_ops g path :
  parse_build_file g path
  = (snd (file_ops path), run_ops g (fst (file_ops path))).
Proof.
  unfold Graph.parse_build_file, Graph.file_ops.
  destruct (read_to_string path) as [content| |]; try reflexivity.
  destruct (BuildParser_parse R_file content) as [pairs| |]; try reflexivity.
  apply index_pairs_ops.
Qed.

(** ** What the operations of a file contain *)

Lemma target_ops_insert path target l t :
  Insert l t ∈ fst (target_ops path target) ->
  l = label target /\ t = target
  /\ forall s, s ∈ srcs target ->
       exists dir, parent path = Some dir
                   /\ Push (join dir s) l ∈ fst (target_ops path target).
Proof.
  unfold Graph.target_ops. destruct (srcs target) as [|src srcs'] eqn:Hs.
  - simpl. intros Hin. apply list_elem_of_singleton in Hin. inversion Hin; subst.
    repeat split. intros s Hin'. inversion Hin'.
  - destruct (parent path) as [dir|]; simpl; [|intros Hin; inversion Hin].
    intros Hin. apply elem_of_cons in Hin as [Hin|Hin]; [discriminate|].
    apply elem_of_app in Hin as [Hin|Hin].
    + apply list_elem_of_fmap in Hin as (? & ? & _). discriminate.
    + apply list_elem_of_singleton in Hin. inversion Hin; subst.
      repeat split. intros s Hin'. exists dir. split; [reflexivity|].
      apply elem_of_cons in Hin' as [->|Hin']; [left|right].
      apply elem_of_app. left. apply list_elem_of_fmap. now exists s.
Qed.

Lemma target_ops_ok path target :
  snd (target_ops path target) = Ok tt ->
  Insert (label target) target ∈ fst (target_ops path target).
Proof.
  unfold Graph.target_ops. destruct (srcs target) as [|src srcs'].
  - intros _. simpl. left.
  - destruct (parent path) as [dir|]; simpl; [|discriminate].
    intros _. right. apply elem_of_app. right. left.
Qed.

Lemma target_ops_failed path target :
  snd (target_ops path target) <> Ok tt -> fst (target_ops path target) = [].
Proof.
  unfold Graph.target_ops. destruct (srcs target) as [|src srcs'].
  - now intros [].
  - destruct (parent path) as [dir|]; simpl; [now intros []|reflexivity].
Qed.

Lemma pairs_ops_insert path pairs l t :
  Insert l t ∈ fst (pairs_ops path pairs) ->
  l = label t
  /\ forall s, s ∈ srcs t ->
       exists dir, parent path = Some dir
                   /\ Push (join dir s) l ∈ fst (pairs_ops path pairs).
Proof.
  induction pairs as [|p pairs IH]; simpl; [intros Hin; inversion Hin|].
  destruct (parse_rule p path) as [[target|]| |]; simpl;
    try (intros Hin; now inversion Hin); [|exact IH].
  destruct (target_ops path target) as [ops r] eqn:Ht.
  destruct r as [[]| |]; simpl.
  - destruct (pairs_ops path pairs) as [ops' r'] eqn:Hp. simpl in *.
    intros Hin. apply elem_of_app in Hin as [Hin|Hin].
    + pose proof (target_ops_insert path target l t) as Hti.
      rewrite Ht in Hti. simpl in Hti. destruct (Hti Hin) as (-> & -> & Hs).
      split; [reflexivity|]. intros s Hin'. destruct (Hs s Hin') as (dir & Hd & Hpush).
      exists dir. split; [exact Hd|]. apply elem_of_app. now left.
    + destruct (IH Hin) as [-> Hs]. split; [reflexivity|].
      intros s Hin'. destruct (Hs s Hin') as (dir & Hd & Hpush).
      exists dir. split; [exact Hd|]. apply elem_of_app. now right.
  - pose proof (target_ops_failed path target) as Hf. rewrite Ht in Hf.
    simpl in Hf. rewrite Hf by discriminate. intros Hin. inversion Hin.
  - pose proof (target_ops_failed path target) as Hf. rewrite Ht in Hf.
    simpl in Hf. rewrite Hf by discriminate. intros Hin. inversion Hin.
Qed.

Lemma pairs_ops_ok_targets path pairs t :
  snd (pairs_ops path pairs) = Ok tt ->
  t ∈ pairs_targets path pairs ->
  Insert (label t) t ∈ fst (pairs_ops path pairs).
Proof.
  induction pairs as [|p pairs IH]; simpl; [intros _ Hin; inversion Hin|].
  destruct (parse_rule p path) as [[target|]| |]; simpl; try discriminate; [|exact IH].
  destruct (target_ops path target) as [ops r] eqn:Ht.
  destruct r as [[]| |]; simpl; try discriminate.
  destruct (pairs_ops path pairs) as [ops' r'] eqn:Hp. simpl in *.
  intros Hok Hin. apply elem_of_app. apply elem_of_cons in Hin as [->|Hin].
  - left. pose proof (target_ops_ok path target) as Hto. rewrite Ht in Hto.
    now apply Hto.
  - right. now apply IH.
Qed.

Lemma file_ops_insert path l t :
  Insert l t ∈ fst (file_ops path) ->
  l = label t
  /\ forall s, s ∈ srcs t ->
       exists dir, parent path = Some dir
                   /\ Push (join dir s) l ∈ fst (file_ops path).
Proof.
  unfold Graph.file_ops.
  destruct (read_to_string path) as [content| |]; simpl;
    try (intros Hin; now inversion Hin).
  destruct (BuildParser_parse R_file content) as [pairs| |]; simpl;
    try (intros Hin; now inversion Hin).
  apply pairs_ops_insert.
Qed.

Lemma file_ops_ok_targets path t :
  snd (file_ops path) = Ok tt ->
  t ∈ file_targets path ->
  Insert (label t) t ∈ fst (file_ops path).
Proof.
  unfold Graph.file_ops, Graph.file_targets.
  destruct (read_to_string path) as [content| |]; simpl; try discriminate.
  destruct (BuildParser_parse R_file content) as [pairs| |]; simpl; try discriminate.
  apply pairs_ops_ok_targets.
Qed.

(** What a schedule of a scan holds: the operations of the scanned files. *)
Lemma sched_elem build_files sched (o : op) :
  interleaving (map (fun f => fst (file_ops f)) build_files) sched ->
  o ∈ sched <-> exists f, f ∈ build_files /\ o ∈ fst (file_ops f).
Proof.
  intros Hint. rewrite (interleaving_elem _ _ o Hint). split.
  - intros (i & t & Hi & Hin). change (map ?f ?l) with (f <$> l) in Hi.
    rewrite list_lookup_fmap in Hi.
    destruct (build_files !! i) as [f|] eqn:Hf; [|discriminate].
    inversion Hi; subst. exists f. split; [|exact Hin].
    eapply list_elem_of_lookup_2, Hf.
  - intros (f & Hf & Hin). apply list_elem_of_lookup_1 in Hf as [i Hi].
    exists i, (fst (file_ops f)). split; [|exact Hin].
    change (map ?f ?l) with (f <$> l). now rewrite list_lookup_fmap, Hi.
Qed.

Lemma scan_in_order_possible g build_files :
  scan_workspace g build_files (scan_in_order g build_files).
Proof. eexists. split; [apply interleaving_concat | reflexivity]. Qed.

(** The log of a scan in which the files of [ok] parse. *)
Lemma quiet_files ok :
  (forall f, f ∈ ok -> snd (file_ops f) = Ok tt) ->
  omap (Graph.warning display) (map (fun f => snd (file_ops f)) ok) = []
  /\ existsb is_panic (map (fun f => snd (file_ops f)) ok) = false.
Proof.
  induction ok as [|f ok IH]; intros Hok; [split; reflexivity|].
  destruct IH as [IH1 IH2]; [intros f' Hin; apply Hok; now right|].
  simpl. rewrite (Hok f) by left. simpl. auto.
Qed.

(** C3, as amended: [get_target_for_file] returns the Target stored under
    the first label that the scan recorded for the path, that is the label
    of the claiming Target whose source entry reached the index first,
    whatever the kinds of the Targets that claim the path; it is [None]
    when no label was recorded for the path. *)
Theorem target_for_file_first_claim (root : PathBuf) (build_files : list PathBuf)
    (out : Scan) (file : Url) (path : PathBuf) :
  scan_workspace (Graph.empty root) build_files out ->
  to_file_path file = Some path ->
  exists sched,
    interleaving (map (fun f => fst (file_ops f)) build_files) sched
    /\ graph out = run_ops (Graph.empty root) sched
    /\ get_target_for_file (graph out) file
       = (l ← head (pushed path sched); targets (graph out) !! l).
Proof.
  intros (sched & Hint & ->) Hp. exists sched. split; [exact Hint|].
  split; [reflexivity|]. simpl. now apply first_pushed_wins.
Qed.

(** C7, as amended: a Target that the scan has indexed is returned by
    [get_target_for_file] for each of its declared sources, resolved against
    the directory of its BUILD file, provided no other Target of the scan
    claims that path and no other Target of the scan has its label. *)
Theorem round_trip_unshared_source (root : PathBuf) (build_files : list PathBuf)
    (out : Scan) (f dir : PathBuf) (t : BazelTarget) (s : string) (file : Url) :
  scan_workspace (Graph.empty root) build_files out ->
  f ∈ build_files ->
  Insert (label t) t ∈ fst (file_ops f) ->
  s ∈ srcs t ->
  parent f = Some dir ->
  to_file_path file = Some (join dir s) ->
  (forall f' l', f' ∈ build_files ->
                 Push (join dir s) l' ∈ fst (file_ops f') -> l' = label t) ->
  (forall f' t', f' ∈ build_files ->
                 Insert (label t) t' ∈ fst (file_ops f') -> t' = t) ->
  get_target_for_file (graph out) file = Some t.
Proof.
  intros (sched & Hint & ->) Hf Hins Hs Hdir Hp Hclaim Hlabel. simpl.
  rewrite (first_pushed_wins root sched file _ Hp).
  destruct (file_ops_insert f _ _ Hins) as [_ Hpushes].
  destruct (Hpushes s Hs) as (dir' & Hdir' & Hpush).
  rewrite Hdir in Hdir'. inversion Hdir'; subst dir'.
  assert (Hin : Push (join dir s) (label t) ∈ sched).
  { apply (sched_elem build_files sched _ Hint). eauto. }
  apply elem_of_pushed in Hin.
  destruct (pushed (join dir s) sched) as [|l0 ls] eqn:Hpushed; [inversion Hin|].
  simpl.
  assert (Hl0 : l0 = label t).
  { assert (Hin0 : Push (join dir s) l0 ∈ sched).
    { apply elem_of_pushed. rewrite Hpushed. left. }
    apply (sched_elem build_files sched _ Hint) in Hin0 as (f' & Hf' & Hin0).
    eapply Hclaim; eassumption. }
  subst l0.
  assert (Hi : Insert (label t) t ∈ sched).
  { apply (sched_elem build_files sched _ Hint). eauto. }
  destruct (inserted_indexed (Graph.empty root) sched _ _ Hi) as (t' & -> & Hi').
  apply (sched_elem build_files sched _ Hint) in Hi' as (f' & Hf' & Hi').
  f_equal. eapply Hlabel; eassumption.
Qed.

(** C5, as amended: when one file of the scan fails and the others parse,
    the scan returns [Ok(())]; for every Target of the other files, its
    label holds a Target that the scan inserted under it and is among the
    labels of each of its resolved sources; and the failure is reported by
    exactly one warning in the log, made of the text of the error alone. *)
Theorem scan_isolates_failing_file (g : BuildGraph) (before after : list PathBuf)
    (bad : PathBuf) (e : Error) (out : Scan) :
  scan_workspace g (before ++ bad :: after) out ->
  snd (file_ops bad) = Err e ->
  (forall f, f ∈ before ++ after -> snd (file_ops f) = Ok tt) ->
  returned out = Ok tt
  /\ log out = ["Failed to parse BUILD file: " +:+ display e]
  /\ forall f t, f ∈ before ++ after -> t ∈ file_targets f ->
       (exists t' f', targets (graph out) !! label t = Some t'
                      /\ f' ∈ before ++ bad :: after
                      /\ Insert (label t) t' ∈ fst (file_ops f'))
       /\ forall s, s ∈ srcs t ->
            exists dir labels,
              parent f = Some dir
              /\ file_to_targets (graph out) !! join dir s = Some labels
              /\ label t ∈ labels.
Proof.
  intros (sched & Hint & ->) Hbad Hok.
  destruct (quiet_files before) as [Hb1 Hb2];
    [intros f Hin; apply Hok, elem_of_app; now left|].
  destruct (quiet_files after) as [Ha1 Ha2];
    [intros f Hin; apply Hok, elem_of_app; now right|].
  unfold Graph.scan_with. cbn [returned log graph]. rewrite !map_app.
  rewrite existsb_app, omap_app. cbn [map existsb].
  change (omap (Graph.warning display)
            (snd (file_ops bad) :: map (fun path => snd (file_ops path)) after))
    with (match Graph.warning display (snd (file_ops bad)) with
          | Some w => w :: omap (Graph.warning display)
                             (map (fun path => snd (file_ops path)) after)
          | None => omap (Graph.warning display)
                      (map (fun path => snd (file_ops path)) after)
          end).
  rewrite Hb1, Hb2, Ha1, Ha2, Hbad. cbn.
  split; [reflexivity|]. split; [reflexivity|].
  intros f t Hf Ht.
  assert (Hf' : f ∈ before ++ bad :: after).
  { apply elem_of_app in Hf as [Hf|Hf]; apply elem_of_app; [now left|].
    right. now right. }
  pose proof (file_ops_ok_targets f t (Hok f Hf) Ht) as Hins.
  assert (Hi : Insert (label t) t ∈ sched).
  { apply (sched_elem _ sched _ Hint). eauto. }
  split.
  - destruct (inserted_indexed g sched _ _ Hi) as (t' & Ht' & Hi').
    apply (sched_elem _ sched _ Hint) in Hi' as (f' & Hin' & Hi'). eauto.
  - intros s Hs. destruct (file_ops_insert f _ _ Hins) as [_ Hpushes].
    destruct (Hpushes s Hs) as (dir & Hdir & Hpush).
    assert (Hp : Push (join dir s) (label t) ∈ sched).
    { apply (sched_elem _ sched _ Hint). eauto. }
    destruct (pushed_indexed g sched _ _ Hp) as (labels & Hl & Hin). eauto.
Qed.

(** ** Parsing a file again *)

Lemma target_ops_push path target file l :
  Push file l ∈ fst (target_ops path target) ->
  Insert l target ∈ fst (target_ops path target).
Proof.
  unfold Graph.target_ops. destruct (srcs target) as [|src srcs'] eqn:Hs.
  - simpl. intros Hin. apply list_elem_of_singleton in Hin. discriminate.
  - destruct (parent path) as [dir|]; simpl; [|intros Hin; inversion Hin].
    intros Hin. apply elem_of_cons in Hin as [Hin|Hin].
    + inversion Hin; subst. right. apply elem_of_app. right. left.
    + apply elem_of_app in Hin as [Hin|Hin].
      * apply list_elem_of_fmap in Hin as (src' & Heq & _). inversion Heq; subst.
        right. apply elem_of_app. right. left.
      * apply list_elem_of_singleton in Hin. discriminate.
Qed.

Lemma pairs_ops_push path pairs file l :
  Push file l ∈ fst (pairs_ops path pairs) ->
  exists t, Insert l t ∈ fst (pairs_ops path pairs).
Proof.
  induction pairs as [|p pairs IH]; simpl; [intros Hin; inversion Hin|].
  destruct (parse_rule p path) as [[target|]| |]; simpl;
    try (intros Hin; now inversion Hin); [|exact IH].
  destruct (target_ops path target) as [ops r] eqn:Ht.
  pose proof (target_ops_push path target file l) as Htp.
  pose proof (target_ops_failed path target) as Hf.
  rewrite Ht in Htp, Hf. simpl in Htp, Hf.
  destruct r as [[]| |]; simpl.
  - destruct (pairs_ops path pairs) as [ops' r'] eqn:Hp. simpl in *.
    intros Hin. apply elem_of_app in Hin as [Hin|Hin].
    + exists target. apply elem_of_app. left. now apply Htp.
    + destruct (IH Hin) as [t Ht']. exists t. apply elem_of_app. now right.
  - rewrite Hf by discriminate. intros Hin. inversion Hin.
  - rewrite Hf by discriminate. intros Hin. inversion Hin.
Qed.

Lemma file_ops_push path file l :
  Push file l ∈ fst (file_ops path) ->
  exists t, Insert l t ∈ fst (file_ops path).
Proof.
  unfold Graph.file_ops.
  destruct (read_to_string path) as [content| |]; simpl;
    try (intros Hin; now inversion Hin).
  destruct (BuildParser_parse R_file content) as [pairs| |]; simpl;
    try (intros Hin; now inversion Hin).
  apply pairs_ops_push.
Qed.

Lemma run_ops_keeps_targets g ops l :
  is_Some (targets g !! l) -> is_Some (targets (run_ops g ops) !! l).
Proof.
  intros Hs. rewrite run_ops_targets.
  destruct (last (inserted l ops)); [eauto | exact Hs].
Qed.

Lemma run_ops_keeps_labels g ops file labels :
  file_to_targets g !! file = Some labels ->
  file_to_targets (run_ops g ops) !! file = Some (labels ++ pushed file ops).
Proof.
  intros Hl. rewrite run_ops_file_to_targets, Hl. simpl.
  destruct (pushed file ops); [now rewrite app_nil_r | reflexivity].
Qed.

(** The Targets that the operations of a file insert are Targets of the
    file; when the file succeeds they are all of them, in its order. *)
Lemma pairs_ops_insert_target path pairs l t :
  Insert l t ∈ fst (pairs_ops path pairs) -> t ∈ pairs_targets path pairs.
Proof.
  induction pairs as [|p pairs IH]; simpl; [intros Hin; inversion Hin|].
  destruct (parse_rule p path) as [[target|]| |]; simpl;
    try (intros Hin; now inversion Hin); [|exact IH].
  destruct (target_ops path target) as [ops r] eqn:Ht.
  pose proof (target_ops_insert path target l t) as Hti.
  pose proof (target_ops_failed path target) as Hf.
  rewrite Ht in Hti, Hf. simpl in Hti, Hf.
  destruct r as [[]| |]; simpl.
  - destruct (pairs_ops path pairs) as [ops' r'] eqn:Hp. simpl in *.
    intros Hin. apply elem_of_app in Hin as [Hin|Hin].
    + destruct (Hti Hin) as (_ & -> & _). left.
    + right. now apply IH.
  - rewrite Hf by discriminate. intros Hin. inversion Hin.
  - rewrite Hf by discriminate. intros Hin. inversion Hin.
Qed.

Lemma file_ops_insert_target path l t :
  Insert l t ∈ fst (file_ops path) -> t ∈ file_targets path.
Proof.
  unfold Graph.file_ops, Graph.file_targets.
  destruct (read_to_string path) as [content| |]; simpl;
    try (intros Hin; now inversion Hin).
  destruct (BuildParser_parse R_file content) as [pairs| |]; simpl;
    try (intros Hin; now inversion Hin).
  apply pairs_ops_insert_target.
Qed.

Lemma inserted_app l (ops ops' : list (op (PathBuf := PathBuf))) :
  inserted l (ops ++ ops') = inserted l ops ++ inserted l ops'.
Proof. apply omap_app. Qed.

Lemma inserted_pushes l (f : string -> op (PathBuf := PathBuf))
    (srcs : list string) :
  (forall src, exists file l', f src = Push file l') ->
  inserted l (map f srcs) = [].
Proof.
  intros Hf. induction srcs as [|src srcs IH]; [reflexivity|].
  change (map f (src :: srcs)) with ([f src] ++ map f srcs).
  rewrite inserted_app, IH. destruct (Hf src) as (file & l' & ->). reflexivity.
Qed.

Lemma target_ops_inserted path target l :
  snd (target_ops path target) = Ok tt ->
  inserted l (fst (target_ops path target))
  = filter (fun t => label t = l) [target].
Proof.
  assert (Hone : inserted (PathBuf := PathBuf) l [Insert (label target) target]
                 = filter (fun t => label t = l) [target]).
  { rewrite filter_cons, filter_nil. unfold inserted. simpl.
    destruct (decide (label target = l)) as [Heq|Hne].
    - now rewrite bool_decide_eq_true_2.
    - now rewrite bool_decide_eq_false_2. }
  unfold Graph.target_ops. destruct (srcs target) as [|src srcs']; [intros _; exact Hone|].
  destruct (parent path) as [dir|]; simpl; [intros _|discriminate].
  change (Push (join dir src) (label target)
          :: map (fun src0 => Push (join dir src0) (label target)) srcs'
             ++ [Insert (label target) target])
    with (map (fun src0 => Push (join dir src0) (label target)) (src :: srcs')
          ++ [Insert (label target) target]).
  rewrite inserted_app, inserted_pushes by eauto. exact Hone.
Qed.

Lemma pairs_ops_inserted path pairs l :
  snd (pairs_ops path pairs) = Ok tt ->
  inserted l (fst (pairs_ops path pairs))
  = filter (fun t => label t = l) (pairs_targets path pairs).
Proof.
  induction pairs as [|p pairs IH]; simpl; [reflexivity|].
  destruct (parse_rule p path) as [[target|]| |]; simpl; try discriminate; [|exact IH].
  pose proof (target_ops_inserted path target l) as Hto.
  destruct (target_ops path target) as [ops r] eqn:Ht.
  destruct r as [[]| |]; simpl; try discriminate.
  destruct (pairs_ops path pairs) as [ops' r'] eqn:Hp. simpl in *.
  intros Hok. rewrite inserted_app, Hto, IH by (reflexivity || exact Hok).
  change (target :: pairs_targets path pairs)
    with ([target] ++ pairs_targets path pairs).
  now rewrite filter_app.
Qed.

Lemma file_ops_inserted path l :
  snd (file_ops path) = Ok tt ->
  inserted l (fst (file_ops path))
  = filter (fun t => label t = l) (file_targets path).
Proof.
  unfold Graph.file_ops, Graph.file_targets.
  destruct (read_to_string path) as [content| |]; simpl; try discriminate.
  destruct (BuildParser_parse R_file content) as [pairs| |]; simpl; try discriminate.
  apply pairs_ops_inserted.
Qed.

(** C9, as amended: parsing a file again adds the Targets of the file to
    the two indices and removes nothing. Nothing is removed: a label under
    which the graph held a Target still holds one, a label that no Target
    of the file bears holds what it held, and every list of labels is kept
    and extended at its end by the labels that the call pushes for the
    path. The Targets are added: when the call returns [Ok(())], every
    Target of the file has under its label the last Target of the file
    that bears this label, and its label is among those pushed for each of
    its sources, resolved against the directory of the file. When every
    label of the file index had a Target before the call, every label has
    one after it. *)
Theorem reparse_only_adds (g : BuildGraph) (path : PathBuf) :
  consistent g ->
  let after := snd (parse_build_file g path) in
  let added := fun file => pushed file (fst (file_ops path)) in
  consistent after
  /\ (forall l, is_Some (targets g !! l) -> is_Some (targets after !! l))
  /\ (forall l, (forall t, t ∈ file_targets path -> label t <> l) ->
                targets after !! l = targets g !! l)
  /\ (forall file labels,
        file_to_targets g !! file = Some labels ->
        file_to_targets after !! file = Some (labels ++ added file))
  /\ (fst (parse_build_file g path) = Ok tt ->
      forall t, t ∈ file_targets path ->
        targets after !! label t
        = last (filter (fun t' => label t' = label t) (file_targets path))
        /\ forall s, s ∈ srcs t ->
             exists dir,
               parent path = Some dir
               /\ label t ∈ added (join dir s)
               /\ file_to_targets after !! join dir s
                  = Some (default [] (file_to_targets g !! join dir s)
                          ++ added (join dir s))).
Proof.
  intros Hcons. rewrite parse_build_file_ops. cbn [fst snd].
  set (ops := fst (file_ops path)). split; [|split; [|split; [|split]]].
  - intros file labels l Hl Hin. rewrite run_ops_file_to_targets in Hl.
    assert (Hcase : (exists old, file_to_targets g !! file = Some old /\ l ∈ old)
                    \/ l ∈ pushed file ops).
    { destruct (pushed file ops) as [|l0 ls] eqn:Hp.
      - left. eauto.
      - inversion Hl; subst. apply elem_of_app in Hin as [Hin|Hin]; [|now right].
        left. destruct (file_to_targets g !! file) as [old|]; [eauto|inversion Hin]. }
    destruct Hcase as [(old & Hold & Hin')|Hin'].
    + apply run_ops_keeps_targets. eapply Hcons; eassumption.
    + apply elem_of_pushed in Hin'. destruct (file_ops_push _ _ _ Hin') as [t Ht].
      destruct (inserted_indexed g ops _ _ Ht) as (t' & -> & _). eauto.
  - intros l. apply run_ops_keeps_targets.
  - intros l Hnone. rewrite run_ops_targets.
    destruct (inserted l ops) as [|t ts] eqn:Hi; [reflexivity|].
    assert (Hin : Insert l t ∈ ops).
    { apply elem_of_inserted. rewrite Hi. left. }
    destruct (file_ops_insert path l t Hin) as [-> _].
    destruct (Hnone t (file_ops_insert_target path _ t Hin) eq_refl).
  - intros file labels Hl. now apply run_ops_keeps_labels.
  - intros Hok t Ht. split.
    + rewrite run_ops_targets. unfold ops. rewrite file_ops_inserted by exact Hok.
      destruct (last (filter (fun t' => label t' = label t) (file_targets path)))
        as [t'|] eqn:Hlast; [reflexivity|].
      apply last_None in Hlast.
      assert (Hin : t ∈ filter (fun t' => label t' = label t) (file_targets path)).
      { apply list_elem_of_filter. auto. }
      rewrite Hlast in Hin. inversion Hin.
    + intros s Hs.
      destruct (file_ops_insert path _ _ (file_ops_ok_targets path _ Hok Ht))
        as [_ Hpushes].
      destruct (Hpushes _ Hs) as (dir & Hdir & Hpush).
      exists dir. split; [exact Hdir|].
      apply elem_of_pushed in Hpush. split; [exact Hpush|].
      rewrite run_ops_file_to_targets. unfold ops.
      destruct (pushed (join dir s) (fst (file_ops path))) as [|l0 ls];
        [inversion Hpush | reflexivity].
Qed.

End GraphFacts.

(** C3, as stated, fails: [util.go] is claimed by a test and by a library;
    the test was indexed first and is returned, although a Target of a
    non-test kind claims the file. *)
Lemma test_target_returned_for_shared_file :
  let g := Graph.graph (Workspace.scan Workspace.shared_files
                          [Workspace.pkg_BUILD; Workspace.pkg_BUILD_bazel]) in
  Graph.kind <$> Graph.targets g !! "//pkg:util" = Some "go_library"
  /\ Graph.srcs <$> Graph.targets g !! "//pkg:util" = Some ["util.go"]
  /\ Graph.file_to_targets g !! Workspace.components "/ws/pkg/util.go"
     = Some ["//pkg:util_test"; "//pkg:util"]
  /\ Graph.label <$> Workspace.target_for_file g "file:///ws/pkg/util.go"
     = Some "//pkg:util_test"
  /\ Graph.kind <$> Workspace.target_for_file g "file:///ws/pkg/util.go"
     = Some "go_test".
Proof. vm_compute. repeat split. Qed.

Lemma target_for_file_first_claim_witness :
  exists sched,
    Graph.interleaving
      (map (fun f => fst (Workspace.ops_of Workspace.shared_files f))
         [Workspace.pkg_BUILD; Workspace.pkg_BUILD_bazel]) sched
    /\ Graph.graph (Workspace.scan Workspace.shared_files
                      [Workspace.pkg_BUILD; Workspace.pkg_BUILD_bazel])
       = Graph.run_ops (Graph.empty Workspace.root) sched
    /\ Workspace.target_for_file
         (Graph.graph (Workspace.scan Workspace.shared_files
                         [Workspace.pkg_BUILD; Workspace.pkg_BUILD_bazel]))
         "file:///ws/pkg/util.go"
       = (l ← head (Graph.pushed (Workspace.components "/ws/pkg/util.go") sched);
          Graph.targets
            (Graph.graph (Workspace.scan Workspace.shared_files
                            [Workspace.pkg_BUILD; Workspace.pkg_BUILD_bazel])) !! l).
Proof.
  apply (target_for_file_first_claim Workspace.parent Workspace.join
           Workspace.to_file_path (Workspace.read_from Workspace.shared_files)
           Pest.BuildParser_parse (Workspace.parse_rule Workspace.root)
           Workspace.display Workspace.root
           [Workspace.pkg_BUILD; Workspace.pkg_BUILD_bazel]
           (Workspace.scan Workspace.shared_files
              [Workspace.pkg_BUILD; Workspace.pkg_BUILD_bazel])
           "file:///ws/pkg/util.go" (Workspace.components "/ws/pkg/util.go")).
  - apply scan_in_order_possible.
  - reflexivity.
Defined.

(** C7, as stated, fails: the library is indexed and declares [util.go],
    but the lookup of that file returns the test. *)
Lemma round_trip_fails_for_shared_source :
  let out := Workspace.scan Workspace.shared_files
               [Workspace.pkg_BUILD; Workspace.pkg_BUILD_bazel] in
  exists t dir,
    Graph.targets (Graph.graph out) !! "//pkg:util" = Some t
    /\ Graph.Insert "//pkg:util" t
       ∈ fst (Workspace.ops_of Workspace.shared_files Workspace.pkg_BUILD_bazel)
    /\ "util.go" ∈ Graph.srcs t
    /\ Workspace.parent Workspace.pkg_BUILD_bazel = Some dir
    /\ Workspace.to_file_path "file:///ws/pkg/util.go"
       = Some (Workspace.join dir "util.go")
    /\ Workspace.target_for_file (Graph.graph out) "file:///ws/pkg/util.go"
       <> Some t.
Proof.
  eexists _, _. split; [vm_compute; reflexivity|].
  split; [vm_compute; right; left|].
  split; [left|].
  split; [vm_compute; reflexivity|].
  split; [vm_compute; reflexivity|].
  vm_compute. discriminate.
Qed.

Lemma round_trip_unshared_source_witness :
  Workspace.target_for_file
    (Graph.graph (Workspace.scan [(Workspace.pkg_BUILD, Workspace.server_build)]
                    [Workspace.pkg_BUILD]))
    "file:///ws/pkg/main.go"
  = Some Workspace.server_target.
Proof.
  apply (round_trip_unshared_source Workspace.parent Workspace.join
           Workspace.to_file_path
           (Workspace.read_from [(Workspace.pkg_BUILD, Workspace.server_build)])
           Pest.BuildParser_parse (Workspace.parse_rule Workspace.root)
           Workspace.display Workspace.root [Workspace.pkg_BUILD]
           (Workspace.scan [(Workspace.pkg_BUILD, Workspace.server_build)]
              [Workspace.pkg_BUILD])
           Workspace.pkg_BUILD (Workspace.components "/ws/pkg")
           Workspace.server_target "main.go" "file:///ws/pkg/main.go").
  - apply scan_in_order_possible.
  - left.
  - vm_compute. right. left.
  - left.
  - reflexivity.
  - reflexivity.
  - intros f' l' Hf Hin. apply list_elem_of_singleton in Hf. subst f'.
    vm_compute in Hin. apply elem_of_cons in Hin as [Hin|Hin].
    + inversion Hin. reflexivity.
    + apply list_elem_of_singleton in Hin. discriminate.
  - intros f' t' Hf Hin. apply list_elem_of_singleton in Hf. subst f'.
    vm_compute in Hin. apply elem_of_cons in Hin as [Hin|Hin].
    + discriminate.
    + apply list_elem_of_singleton in Hin. inversion Hin. reflexivity.
Defined.

(** C5, as stated, fails: in one workspace [pkg/BUILD] is the file that
    fails, in the other [lib/BUILD], with the same error. Whatever the text
    of the error is, the scans return the same value and log the same
    single warning, the text of the error after a fixed prefix, so what the
    scan reports does not tell which file failed. *)
Lemma warning_does_not_name_the_file :
  let build_files := [Workspace.pkg_BUILD; Workspace.lib_BUILD] in
  snd (Workspace.ops_of Workspace.pkg_broken Workspace.pkg_BUILD) = Err PestError
  /\ snd (Workspace.ops_of Workspace.pkg_broken Workspace.lib_BUILD) = Ok tt
  /\ snd (Workspace.ops_of Workspace.lib_broken Workspace.pkg_BUILD) = Ok tt
  /\ snd (Workspace.ops_of Workspace.lib_broken Workspace.lib_BUILD) = Err PestError
  /\ forall display : Error -> string,
       let scan := Workspace.scan_showing display in
       Graph.log (scan Workspace.pkg_broken build_files)
       = ["Failed to parse BUILD file: " +:+ display PestError]
       /\ Graph.log (scan Workspace.lib_broken build_files)
          = Graph.log (scan Workspace.pkg_broken build_files)
       /\ Graph.returned (scan Workspace.pkg_broken build_files) = Ok tt
       /\ Graph.returned (scan Workspace.lib_broken build_files) = Ok tt.
Proof.
  do 4 (split; [vm_compute; reflexivity|]).
  intros display. vm_compute. repeat split.
Qed.

Lemma scan_isolates_failing_file_witness :
  Graph.returned (Workspace.scan Workspace.pkg_broken
                    [Workspace.pkg_BUILD; Workspace.lib_BUILD]) = Ok tt
  /\ Graph.log (Workspace.scan Workspace.pkg_broken
                  [Workspace.pkg_BUILD; Workspace.lib_BUILD])
     = ["Failed to parse BUILD file: " +:+ Workspace.display PestError].
Proof.
  destruct (scan_isolates_failing_file Workspace.parent Workspace.join
              (Workspace.read_from Workspace.pkg_broken)
              Pest.BuildParser_parse (Workspace.parse_rule Workspace.root)
              Workspace.display (Graph.empty Workspace.root)
              [] [Workspace.lib_BUILD] Workspace.pkg_BUILD PestError
              (Workspace.scan Workspace.pkg_broken
                 [Workspace.pkg_BUILD; Workspace.lib_BUILD]))
    as (Hreturned & Hlog & _).
  - apply scan_in_order_possible.
  - vm_compute. reflexivity.
  - intros f Hf. apply list_elem_of_singleton in Hf. subst f.
    vm_compute. reflexivity.
  - split; [exact Hreturned | exact Hlog].
Defined.

(** C9, as stated, fails: after [pkg/BUILD] was edited and parsed again, the
    Target it no longer declares is still in both indices, before the new
    one in the list of its source, and is still the one returned for that
    source. *)
Lemma reparse_keeps_old_contribution :
  Graph.targets Workspace.updated !! "//pkg:server" = Some Workspace.server_target
  /\ Graph.label <$> Graph.targets Workspace.updated !! "//pkg:api" = Some "//pkg:api"
  /\ Graph.file_to_targets Workspace.updated !! Workspace.components "/ws/pkg/main.go"
     = Some ["//pkg:server"; "//pkg:api"]
  /\ Workspace.target_for_file Workspace.updated "file:///ws/pkg/main.go"
     = Some Workspace.server_target.
Proof. vm_compute. repeat split. Qed.

Lemma reparse_only_adds_witness :
  Graph.consistent Workspace.updated
  /\ Graph.targets Workspace.updated !! "//pkg:server"
     = Graph.targets Workspace.scanned !! "//pkg:server"
  /\ Graph.file_to_targets Workspace.updated !! Workspace.components "/ws/pkg/main.go"
     = Some (["//pkg:server"]
             ++ Graph.pushed (Workspace.components "/ws/pkg/main.go")
                  (fst (Workspace.ops_of [(Workspace.pkg_BUILD, Workspace.renamed_build)]
                          Workspace.pkg_BUILD))).
Proof.
  assert (Hscanned : Graph.consistent Workspace.scanned).
  { apply (reparse_only_adds Workspace.parent Workspace.join
             (Workspace.read_from [(Workspace.pkg_BUILD, Workspace.server_build)])
             Pest.BuildParser_parse (Workspace.parse_rule Workspace.root)
             (Graph.empty Workspace.root) Workspace.pkg_BUILD).
    intros file labels l Hl. simpl in Hl. rewrite lookup_empty in Hl. discriminate. }
  destruct (reparse_only_adds Workspace.parent Workspace.join
              (Workspace.read_from [(Workspace.pkg_BUILD, Workspace.renamed_build)])
              Pest.BuildParser_parse (Workspace.parse_rule Workspace.root)
              Workspace.scanned Workspace.pkg_BUILD Hscanned)
    as (Hcons & _ & Hother & Hkept & _).
  split; [exact Hcons|]. split.
  - apply Hother. intros t Ht Hl. vm_compute in Ht.
    apply list_elem_of_singleton in Ht. subst t. discriminate.
  - apply Hkept. vm_compute. reflexivity.
Defined.

(** * Further properties of the parser *)

Section MoreParserFacts.

Import Pest Parser.

(** Induction on a pair with the pairs inside it. *)
Lemma Pair_nested_ind (P : Pair -> Prop) :
  (forall rule text start inner,
      Forall P inner -> P (MkPair rule text start inner)) ->
  forall p, P p.
Proof.
  intros Hstep. fix IH 1. intros [rule text start inner].
  apply Hstep. induction inner as [|q inner IHinner]; constructor.
  - apply IH.
  - exact IHinner.
Qed.

Lemma parse_value_errors_nested (p : Pair) :
  (forall e, parse_value p = Err e -> e = ParseIntError)
  /\ Forall (fun q => forall e, parse_value q = Err e -> e = ParseIntError)
       (into_inner p).
Proof.
  induction p as [rule text start inner IH] using Pair_nested_ind.
  assert (Hinner : Forall (fun q => forall e, parse_value q = Err e -> e = ParseIntError)
                     inner).
  { eapply Forall_impl; [exact IH|]. now intros q [Hq _]. }
  split; [|exact Hinner].
  intros e. destruct rule; simpl; try discriminate.
  - destruct (Nat.ltb (String.length text) 2); discriminate.
  - destruct (parse_i64 text); [discriminate | now intros [= <-]].
  - match goal with
    | |- bind ?items _ = _ -> _ => destruct items as [vs|e'|] eqn:Hitems
    end; simpl; try discriminate.
    intros [= <-]. clear Hinner. revert e' Hitems.
    induction inner as [|q inner IHinner]; intros e' Hitems; [discriminate|].
    inversion IH as [|? ? [_ Hq] Hrest]; subst.
    destruct q as [qrule qtext qstart qinner].
    destruct qrule; try (now apply IHinner).
    destruct qinner as [|first qinner']; [discriminate|].
    simpl in Hq. inversion Hq as [|? ? Hfirst _]; subst.
    destruct (parse_value first) as [v|e1|] eqn:Hv; simpl in Hitems.
    + match type of Hitems with
      | bind ?rest _ = _ => destruct rest as [vs'|e2|] eqn:Hrest'
      end; simpl in Hitems; try discriminate.
      inversion Hitems; subst. now apply IHinner.
    + inversion Hitems; subst. now apply Hfirst.
    + discriminate.
Qed.

(** X1: [parse_value] fails with one error only, the one of an integer that
    does not fit in 64 bits, whether the number is the value itself or lies
    somewhere in a list. *)
Theorem parse_value_only_int_errors (p : Pair) (e : Error) :
  parse_value p = Err e -> e = ParseIntError.
Proof. apply parse_value_errors_nested. Qed.

Variable package_name : string.

Abbreviation parse_statement := (Parser.parse_statement package_name).
Abbreviation parse_pairs := (Parser.parse_pairs package_name).

Lemma parse_statement_some p r :
  parse_statement p = Ok (Some r) ->
  is_bazel_rule (kind r) = true
  /\ exists n, attributes r !! "name" = Some (VString n)
               /\ name r = "//" +:+ package_name +:+ ":" +:+ n.
Proof.
  unfold Parser.parse_statement.
  destruct (as_rule p); try discriminate.
  destruct (into_inner p) as [|first args]; [discriminate|].
  destruct (is_bazel_rule (as_str first)) eqn:Hk; simpl; [|discriminate].
  destruct (collect_attributes args ∅) as [attrs| |]; simpl; try discriminate.
  destruct (attrs !! "name") as [[n| | | | | |]|] eqn:Hn; try discriminate.
  intros [= <-]. simpl. split; [exact Hk|]. now exists n.
Qed.

(** X2: every rule that the loop of [parse] returns has a kind of the
    built-in list, a string-valued name attribute, and for label that name
    prefixed by "//", the package and ":". *)
Theorem parsed_rules_are_listed_and_labelled (pairs : list Pair) (rules : list Rule) :
  parse_pairs pairs [] = Ok rules ->
  Forall (fun r => is_bazel_rule (kind r) = true
                   /\ exists n, attributes r !! "name" = Some (VString n)
                                /\ name r = "//" +:+ package_name +:+ ":" +:+ n)
    rules.
Proof.
  intros Hp. apply parse_pairs_ok in Hp as [_ ->]. simpl.
  apply Forall_forall. intros r Hin.
  apply list_elem_of_omap in Hin as (p & _ & Hr).
  destruct (parse_statement p) as [[r'|]| |] eqn:Hs; try discriminate.
  inversion Hr; subst. now apply (parse_statement_some p).
Qed.

Lemma collect_attributes_app a : forall b m,
  collect_attributes (a ++ b) m
  = try m' <- collect_attributes a m; collect_attributes b m'.
Proof.
  induction a as [|arg a IH]; intros b m; [reflexivity|].
  simpl. destruct (into_inner arg) as [|x [|y [|z rest]]]; try apply IH.
  - destruct (parse_value x); simpl; [apply IH | reflexivity | reflexivity].
  - destruct (parse_value y); simpl; [apply IH | reflexivity | reflexivity].
Qed.

(** X3: the last argument wins. An argument that follows others replaces
    what they stored under its key, where the key of a named argument is its
    name and the key of a positional argument is "name": a positional
    argument overrides an earlier [name = ...]. *)
Theorem last_argument_wins (args : list Pair) (arg v : Pair) (key : string)
    (x : Value) (m attrs : gmap string Value) :
  collect_attributes args m = Ok attrs ->
  (exists n, into_inner arg = [n; v] /\ key = as_str n)
  \/ (into_inner arg = [v] /\ key = "name") ->
  parse_value v = Ok x ->
  collect_attributes (args ++ [arg]) m = Ok (<[key := x]> attrs)
  /\ forall attrs', collect_attributes (args ++ [arg]) m = Ok attrs' ->
                    attrs' !! key = Some x.
Proof.
  intros Hargs Harg Hv.
  assert (Hc : collect_attributes (args ++ [arg]) m = Ok (<[key := x]> attrs)).
  { rewrite collect_attributes_app, Hargs. simpl.
    destruct Harg as [(n & -> & ->)|[-> ->]]; now rewrite Hv. }
  split; [exact Hc|]. intros attrs' Hc'. rewrite Hc in Hc'.
  inversion Hc'; subst. apply lookup_insert_eq.
Qed.

Lemma substring_prefix body : forall rest,
  substring 0 (String.length body) (body +:+ rest) = body.
Proof.
  induction body as [|c body IH]; intros rest; simpl.
  - now destruct rest.
  - now rewrite IH.
Qed.

Lemma length_append_one body c :
  String.length (body +:+ String c EmptyString) = S (String.length body).
Proof. induction body as [|d body IH]; simpl; [reflexivity | now rewrite IH]. Qed.

(** X5: a string literal gives back the text between its first and its
    last byte, whatever that text is: nothing inside is unescaped or
    trimmed, and the two bytes need not be quotes, nor the same. They are
    taken to be ASCII characters, so that the slice falls on character
    boundaries. *)
Theorem string_literal_round_trip (opening closing : ascii) (body : string)
    (start : nat * nat) (inner : list Pair) :
  nat_of_ascii opening < 128 ->
  nat_of_ascii closing < 128 ->
  parse_value (MkPair R_string
                 (String opening (body +:+ String closing EmptyString))
                 start inner)
  = Ok (VString body).
Proof.
  intros _ _. cbn [parse_value]. cbn [String.length]. rewrite length_append_one.
  change (Nat.ltb (S (S (String.length body))) 2) with false. cbv iota.
  replace (S (S (String.length body)) - 2) with (String.length body) by lia.
  cbn [substring]. now rewrite substring_prefix.
Qed.

End MoreParserFacts.

Lemma string_literal_round_trip_witness :
  Parser.parse_value
    (Pest.MkPair Pest.R_string
       (String "'"%char (" a\n b " +:+ String "'"%char EmptyString)) (1, 1) [])
  = Ok (Parser.VString " a\n b ").
Proof.
  apply (string_literal_round_trip "'"%char "'"%char " a\n b " (1, 1) []);
    vm_compute; lia.
Defined.

Lemma parse_value_only_int_errors_witness :
  Parser.parse_value Samples.huge_list = Err ParseIntError
  /\ ParseIntError = ParseIntError.
Proof.
  split; [vm_compute; reflexivity|].
  apply (parse_value_only_int_errors Samples.huge_list ParseIntError).
  vm_compute. reflexivity.
Defined.

Lemma parsed_rules_are_listed_and_labelled_witness :
  Forall (fun r => Parser.is_bazel_rule (Parser.kind r) = true
                   /\ exists n, Parser.attributes r !! "name" = Some (Parser.VString n)
                                /\ Parser.name r = "//" +:+ "pkg" +:+ ":" +:+ n)
    [ {| Parser.name := "//pkg:'server'";
         Parser.kind := "go_binary";
         Parser.attributes := {[ "name" := Parser.VString "'server'" ]};
         Parser.location := {| Parser.line := 1; Parser.column := 1 |} |} ].
Proof.
  apply (parsed_rules_are_listed_and_labelled "pkg"
           [Workspace.server_call; Workspace.macro_call]).
  vm_compute. reflexivity.
Defined.

Lemma last_argument_wins_witness :
  Parser.collect_attributes
    ([Samples.named_argument] ++ [Samples.positional_argument]) ∅
  = Ok (<["name" := Parser.VString "'b'"]> {[ "name" := Parser.VString "'a'" ]})
  /\ forall attrs',
       Parser.collect_attributes
         ([Samples.named_argument] ++ [Samples.positional_argument]) ∅ = Ok attrs' ->
       attrs' !! "name" = Some (Parser.VString "'b'").
Proof.
  apply (last_argument_wins [Samples.named_argument] Samples.positional_argument
           (Pest.MkPair Pest.R_value "'b'" (1, 1)
              [Pest.MkPair Pest.R_string "'b'" (1, 1) []])
           "name" (Parser.VString "'b'") ∅ {[ "name" := Parser.VString "'a'" ]}).
  - vm_compute. reflexivity.
  - right. split; reflexivity.
  - reflexivity.
Defined.

(** * Further properties of the parse cache *)

Section MoreCacheFacts.

Import Cache.

Context {PathBuf : Type} `{Countable PathBuf}.
Context {Digest : Type} `{EqDecision Digest}.
Variable blake3_hash : string -> Digest.

Abbreviation get_or_parse := (Cache.get_or_parse blake3_hash).

Implicit Types (self : ParseCache (PathBuf := PathBuf) (Digest := Digest)).

(** X6: what [get_or_parse] has returned it serves again. After a call
    that returned rules, a later call for the same path and content returns
    the same rules without parsing, whatever parser it is given, and leaves
    the cache as it is, as long as the age of the entry is below the
    time-to-live; the entry is stamped with the store time of the first
    call, or was already fresh when that call was itself served from the
    cache. *)
Theorem get_or_parse_serves_again self (t_check t_store : Instant)
    (path : PathBuf) (content : string)
    (parse_fn : string -> Result (list Parser.Rule)) (rs : list Parser.Rule) self1 :
  get_or_parse self t_check t_store path content parse_fn = (Ok rs, self1) ->
  exists stamp,
    (stamp = t_store \/ elapsed t_check stamp < ttl self)
    /\ forall (t_check' t_store' : Instant) parse_fn',
         elapsed t_check' stamp < ttl self ->
         get_or_parse self1 t_check' t_store' path content parse_fn' = (Ok rs, self1).
Proof.
  unfold Cache.get_or_parse.
  destruct (cache self !! path) as [cached|] eqn:Hc.
  - destruct (decide (hash cached = blake3_hash content)) as [Hh|Hh];
      [rewrite (bool_decide_eq_true_2 _ Hh) | rewrite (bool_decide_eq_false_2 _ Hh)];
      simpl.
    + destruct (Nat.ltb_spec (elapsed t_check (timestamp cached)) (ttl self)) as [Hl|Hl].
      * intros [= <- <-]. exists (timestamp cached). split; [now right|].
        intros t1 t2 f Hfresh. rewrite Hc, (bool_decide_eq_true_2 _ Hh). simpl.
        destruct (Nat.ltb_spec (elapsed t1 (timestamp cached)) (ttl self)); [reflexivity|lia].
      * destruct (parse_fn content) as [rs'| |]; try discriminate.
        intros [= <- <-]. exists t_store. split; [now left|].
        intros t1 t2 f Hfresh. simpl. rewrite lookup_insert_eq. simpl.
        rewrite bool_decide_eq_true_2 by reflexivity. simpl.
        destruct (Nat.ltb_spec (elapsed t1 t_store) (ttl self)); [reflexivity|lia].
    + destruct (parse_fn content) as [rs'| |]; try discriminate.
      intros [= <- <-]. exists t_store. split; [now left|].
      intros t1 t2 f Hfresh. simpl. rewrite lookup_insert_eq. simpl.
      rewrite bool_decide_eq_true_2 by reflexivity. simpl.
      destruct (Nat.ltb_spec (elapsed t1 t_store) (ttl self)); [reflexivity|lia].
  - destruct (parse_fn content) as [rs'| |]; try discriminate.
    intros [= <- <-]. exists t_store. split; [now left|].
    intros t1 t2 f Hfresh. simpl. rewrite lookup_insert_eq. simpl.
    rewrite bool_decide_eq_true_2 by reflexivity. simpl.
    destruct (Nat.ltb_spec (elapsed t1 t_store) (ttl self)); [reflexivity|lia].
Qed.

(** X7: an entry expires when its age reaches the time-to-live, not after
    it: from then on the content is parsed again even though it has not
    changed, and the call returns what the parser returns. With a
    time-to-live of zero nothing is ever served from the cache. *)
Theorem get_or_parse_expired self (t_check t_store : Instant)
    (path : PathBuf) (content : string)
    (parse_fn : string -> Result (list Parser.Rule)) :
  (forall cached, cache self !! path = Some cached ->
                  ttl self <= elapsed t_check (timestamp cached)) ->
  fst (get_or_parse self t_check t_store path content parse_fn) = parse_fn content.
Proof.
  intros Hexp. unfold Cache.get_or_parse.
  destruct (cache self !! path) as [cached|] eqn:Hc.
  - specialize (Hexp cached eq_refl).
    destruct (Nat.ltb_spec (elapsed t_check (timestamp cached)) (ttl self)); [lia|].
    rewrite andb_false_r. now destruct (parse_fn content).
  - now destruct (parse_fn content).
Qed.

(** X8: [invalidate] forces the next call for the path to parse, and
    changes nothing for the other paths: a call for another path returns
    what it would have returned without the invalidation. *)
Theorem invalidate_forces_parse self (t_check t_store : Instant)
    (path : PathBuf) (content : string)
    (parse_fn : string -> Result (list Parser.Rule)) :
  fst (get_or_parse (invalidate self path) t_check t_store path content parse_fn)
  = parse_fn content
  /\ forall path' content',
       path' <> path ->
       fst (get_or_parse (invalidate self path) t_check t_store path' content' parse_fn)
       = fst (get_or_parse self t_check t_store path' content' parse_fn).
Proof.
  split.
  - unfold Cache.get_or_parse, invalidate. simpl. rewrite lookup_delete_eq.
    now destruct (parse_fn content).
  - intros path' content' Hne. unfold Cache.get_or_parse, invalidate. simpl.
    rewrite lookup_delete_ne by congruence.
    destruct (cache self !! path') as [cached|]; simpl.
    + destruct (bool_decide _ && _); [reflexivity|].
      now destruct (parse_fn content').
    + now destruct (parse_fn content').
Qed.

End MoreCacheFacts.

Lemma get_or_parse_serves_again_witness :
  exists stamp,
    (stamp = 0 \/ Cache.elapsed 0 stamp < Cache.ttl Workspace.warm_cache)
    /\ forall (t_check' t_store' : Cache.Instant) parse_fn',
         Cache.elapsed t_check' stamp < Cache.ttl Workspace.warm_cache ->
         Cache.get_or_parse id Workspace.warm_cache t_check' t_store'
           Workspace.pkg_BUILD Workspace.server_build parse_fn'
         = (Ok [], Workspace.warm_cache).
Proof.
  apply (get_or_parse_serves_again id (Cache.new 300) 0 0 Workspace.pkg_BUILD
           Workspace.server_build Workspace.parse_fn [] Workspace.warm_cache).
  vm_compute. reflexivity.
Defined.

Lemma invalidate_forces_parse_witness :
  fst (Cache.get_or_parse id (Cache.invalidate Workspace.warm_cache Workspace.lib_BUILD)
         10 10 Workspace.pkg_BUILD Workspace.server_build Workspace.parse_fn)
  = fst (Cache.get_or_parse id Workspace.warm_cache
           10 10 Workspace.pkg_BUILD Workspace.server_build Workspace.parse_fn).
Proof.
  apply (proj2 (invalidate_forces_parse id Workspace.warm_cache 10 10
                  Workspace.lib_BUILD Workspace.lib_build Workspace.parse_fn)).
  vm_compute. discriminate.
Defined.

Lemma get_or_parse_expired_witness :
  fst (Cache.get_or_parse id Workspace.warm_cache 300 300 Workspace.pkg_BUILD
         Workspace.server_build Workspace.parse_fn)
  = Workspace.parse_fn Workspace.server_build.
Proof.
  apply (get_or_parse_expired id Workspace.warm_cache 300 300 Workspace.pkg_BUILD
           Workspace.server_build Workspace.parse_fn).
  intros cached Hc. vm_compute in Hc. inversion Hc; subst.
  apply Nat.leb_le. vm_compute. reflexivity.
Defined.

(** * Further properties of the query client *)

Section MoreLruFacts.

Import Client.

Context {V : Type}.
Implicit Types (l : list (string * V)) (c : LruCache V).

Lemma assoc_none_keys k l : assoc k l = None <-> k ∉ (fst <$> l).
Proof.
  induction l as [|[k' v] l IH]; simpl.
  - split; [intros _ Hin; inversion Hin | reflexivity].
  - rewrite not_elem_of_cons. destruct (String.eqb_spec k k') as [->|Hne].
    + split; [discriminate | now intros [? _]].
    + rewrite IH. tauto.
Qed.

Lemma remove_key_keys k q l : q ∈ (fst <$> remove_key k l) -> q ∈ (fst <$> l) /\ q <> k.
Proof.
  induction l as [|[k' v] l IH]; simpl; [intros Hin; inversion Hin|].
  destruct (String.eqb_spec k k') as [->|Hne]; simpl.
  - intros Hin. destruct (IH Hin). split; [now right | assumption].
  - rewrite !elem_of_cons. intros [->|Hin]; [split; [now left | congruence]|].
    destruct (IH Hin). split; [now right | assumption].
Qed.

Lemma remove_key_NoDup k l : NoDup (fst <$> l) -> NoDup (fst <$> remove_key k l).
Proof.
  induction l as [|[k' v] l IH]; simpl; [constructor|].
  rewrite NoDup_cons. intros [Hnin Hnd].
  destruct (String.eqb k k'); simpl; [now apply IH|].
  apply NoDup_cons. split; [|now apply IH].
  intros Hin. apply remove_key_keys in Hin as [Hin _]. contradiction.
Qed.

Lemma remove_key_length k l : length (remove_key k l) <= length l.
Proof.
  induction l as [|[k' v] l IH]; simpl; [lia|].
  destruct (String.eqb k k'); simpl; lia.
Qed.

Lemma remove_key_shorter k v l :
  assoc k l = Some v -> length (remove_key k l) < length l.
Proof.
  induction l as [|[k' v'] l IH]; simpl; [discriminate|].
  destruct (String.eqb k k'); simpl.
  - intros _. pose proof (remove_key_length k l). lia.
  - intros Ha. specialize (IH Ha). lia.
Qed.

Lemma removelast_keys q l : q ∈ (fst <$> removelast l) -> q ∈ (fst <$> l).
Proof.
  induction l as [|e l IH]; [easy|].
  destruct l as [|e' l']; [intros Hin; inversion Hin|].
  change (removelast (e :: e' :: l')) with (e :: removelast (e' :: l')).
  rewrite fmap_cons. intros Hin.
  apply elem_of_cons in Hin as [->|Hin]; rewrite fmap_cons; [left|].
  right. now apply IH.
Qed.

Lemma removelast_NoDup l : NoDup (fst <$> l) -> NoDup (fst <$> removelast l).
Proof.
  induction l as [|e l IH]; [easy|].
  destruct l as [|e' l']; [intros _; constructor|].
  change (removelast (e :: e' :: l')) with (e :: removelast (e' :: l')).
  rewrite fmap_cons. intros Hnd. apply NoDup_cons in Hnd as [Hnin Hnd].
  rewrite fmap_cons. apply NoDup_cons. split; [|now apply IH].
  intros Hin. apply Hnin. now apply removelast_keys.
Qed.

Lemma removelast_length l : length (removelast l) = pred (length l).
Proof.
  induction l as [|e l IH]; [reflexivity|].
  destruct l as [|e' l']; [reflexivity|].
  change (removelast (e :: e' :: l')) with (e :: removelast (e' :: l')).
  simpl in *. rewrite IH. reflexivity.
Qed.

Lemma lru_get_wf k c : lru_wf c -> lru_wf (snd (lru_get k c)).
Proof.
  intros [Hnd Hlen]. unfold lru_get.
  destruct (assoc k (entries c)) as [v|] eqn:Ha; simpl; [|now split].
  split; simpl.
  - apply NoDup_cons. split; [|now apply remove_key_NoDup].
    intros Hin. now apply remove_key_keys in Hin as [_ ?].
  - pose proof (remove_key_shorter k v _ Ha). lia.
Qed.

Lemma lru_put_wf k v c : 1 <= cap c -> lru_wf c -> lru_wf (lru_put k v c).
Proof.
  intros Hcap [Hnd Hlen]. unfold lru_put.
  destruct (assoc k (entries c)) as [v'|] eqn:Ha.
  - split; simpl.
    + apply NoDup_cons. split; [|now apply remove_key_NoDup].
      intros Hin. now apply remove_key_keys in Hin as [_ ?].
    + pose proof (remove_key_shorter k v' _ Ha). lia.
  - apply assoc_none_keys in Ha.
    destruct (Nat.ltb_spec (length (entries c)) (cap c)) as [Hlt|Hge]; split; simpl.
    + apply NoDup_cons. now split.
    + lia.
    + apply NoDup_cons. split; [|now apply removelast_NoDup].
      intros Hin. now apply removelast_keys in Hin.
    + rewrite removelast_length. lia.
Qed.

End MoreLruFacts.

Section MoreClientFacts.

Import Client.

Context {QueryResult : Type}.
Variable parse_query_output : string -> Result QueryResult.
Variable from_utf8_lossy : string -> string.

Abbreviation query := (Client.query parse_query_output from_utf8_lossy).
Abbreviation step := (Client.step parse_query_output from_utf8_lossy).
Abbreviation run := (Client.run parse_query_output from_utf8_lossy).

Implicit Types (self : BazelClient (QueryResult := QueryResult)).

Lemma query_wf tool self q :
  1 <= cap (query_cache self) ->
  lru_wf (query_cache self) -> lru_wf (query_cache (snd (query tool self q))).
Proof.
  intros Hcap Hwf. unfold Client.query.
  destruct (assoc q (entries (query_cache self))) as [v|] eqn:Ha.
  - pose proof (lru_get_wf q _ Hwf) as Hg. unfold lru_get in *.
    rewrite Ha in *. exact Hg.
  - rewrite (lru_get_miss q _ Ha).
    destruct (tool (query_args q)) as [output| |]; simpl; try exact Hwf.
    destruct (success output); simpl; [|exact Hwf].
    destruct (parse_query_output (stdout output)); simpl; try exact Hwf.
    now apply lru_put_wf.
Qed.

(** X9: the cache of a client never holds more than 1000 expressions and
    never holds one twice, whatever calls, file changes and delays follow
    [BazelClient::new]. *)
Theorem query_cache_bounded (evs : list event) :
  length (entries (query_cache (run evs new))) <= 1000
  /\ NoDup (fst <$> entries (query_cache (run evs new))).
Proof.
  assert (Hinv : forall self,
             cap (query_cache self) = 1000 -> lru_wf (query_cache self) ->
             cap (query_cache (run evs self)) = 1000
             /\ lru_wf (query_cache (run evs self))).
  { induction evs as [|ev evs IH]; intros self Hcap Hwf; [now split|].
    simpl. apply IH.
    - now rewrite step_cap.
    - destruct ev; simpl; [|exact Hwf|exact Hwf].
      apply query_wf; [lia | exact Hwf]. }
  destruct (Hinv new) as [Hcap [Hnd Hlen]].
  - reflexivity.
  - split; simpl; [constructor | lia].
  - split; [lia | exact Hnd].
Qed.

(** X10: a full cache gives up its least recently used expression. When
    the cache is full and a call for an expression that is not cached
    succeeds, the expression at the end of the order of use is no longer
    cached, and the next call for it runs the tool again. *)
Theorem least_recently_used_is_evicted (tool : list string -> Result Output) self
    (older : list (string * QueryResult)) (Q q : string) (r r' : QueryResult)
    (output : Output) :
  lru_wf (query_cache self) ->
  entries (query_cache self) = older ++ [(Q, r)] ->
  length (entries (query_cache self)) = cap (query_cache self) ->
  assoc q (entries (query_cache self)) = None ->
  tool (query_args q) = Ok output ->
  success output = true ->
  parse_query_output (stdout output) = Ok r' ->
  assoc Q (entries (query_cache (snd (query tool self q)))) = None
  /\ assoc q (entries (query_cache (snd (query tool self q)))) = Some r'
  /\ forall tool',
       spawned (snd (query tool' (snd (query tool self q)) Q))
       = query_args Q :: spawned (snd (query tool self q)).
Proof.
  intros [Hnd _] Hent Hfull Hmiss Htool Hsucc Hdec.
  assert (Hq : query_cache (snd (query tool self q))
               = {| cap := cap (query_cache self); entries := (q, r') :: older |}).
  { unfold Client.query. rewrite (lru_get_miss q _ Hmiss), Htool, Hsucc, Hdec.
    simpl. unfold lru_put. rewrite Hmiss.
    destruct (Nat.ltb_spec (length (entries (query_cache self)))
                (cap (query_cache self))); [lia|].
    now rewrite Hent, removelast_last. }
  assert (HQ : assoc Q ((q, r') :: older) = None).
  { simpl. destruct (String.eqb_spec Q q) as [->|_].
    - rewrite Hent in Hmiss. apply assoc_none_keys in Hmiss.
      exfalso. apply Hmiss. rewrite fmap_app. apply elem_of_app. right. left.
    - apply assoc_none_keys. rewrite Hent, fmap_app in Hnd.
      apply NoDup_app in Hnd as (_ & Hdisj & _). intros Hin.
      apply (Hdisj Q Hin). left. }
  rewrite Hq. simpl. split; [exact HQ|]. split; [now rewrite String.eqb_refl|].
  intros tool'. apply query_miss. now rewrite Hq.
Qed.

(** X11: nothing is cached for a call that does not return a result.
    Whether the tool cannot be started, exits non-zero, or prints what
    cannot be decoded, the call returns the error and the cache is exactly
    what it was. *)
Theorem failed_call_leaves_cache (tool : list string -> Result Output) self
    (Q : string) :
  is_ok (fst (query tool self Q)) = false ->
  query_cache (snd (query tool self Q)) = query_cache self.
Proof.
  unfold Client.query, lru_get.
  destruct (assoc Q (entries (query_cache self))) as [v|]; simpl; [discriminate|].
  destruct (tool (query_args Q)) as [output| |]; simpl; try reflexivity.
  destruct (success output); simpl; [|reflexivity].
  destruct (parse_query_output (stdout output)); simpl;
    [discriminate | reflexivity | reflexivity].
Qed.

End MoreClientFacts.

Section BuildFacts.

Import Client.

Context {BuildEvent : Type}.
Variable from_str : string -> option BuildEvent.
Variable handle_build_event : BuildEvent -> Result unit.

Abbreviation read_events := (Client.read_events from_str handle_build_event).
Abbreviation build := (Client.build from_str handle_build_event).

(** Lines whose events the handler accepts are read through. *)
Lemma read_events_accepted (lines : list string) : forall rest handled,
  Forall (fun line => forall event, from_str line = Some event ->
                                    handle_build_event event = Ok tt) lines ->
  read_events (map Ok lines ++ rest) handled
  = read_events rest (handled ++ omap from_str lines).
Proof.
  induction lines as [|line lines IH]; intros rest handled Hall.
  - simpl. now rewrite app_nil_r.
  - inversion Hall as [|? ? Hline Hrest]; subst. simpl.
    destruct (from_str line) as [event|] eqn:Hd.
    + rewrite (Hline event eq_refl), IH by exact Hrest.
      now rewrite <- app_assoc.
    + now apply IH.
Qed.

(** X12: a build hands the handler the events of the lines that decode, in
    the order of the lines, skips every line that does not decode, and
    succeeds or fails by the exit status of the tool alone, whatever the
    events said. *)
Theorem build_delivers_in_order (spawn : list string -> Result Child)
    (target : string) (lines : list string) (exit : Result bool) :
  spawn (build_args target)
  = Ok {| stdout_lines := map Ok lines; exit_success := exit |} ->
  Forall (fun line => forall event, from_str line = Some event ->
                                    handle_build_event event = Ok tt) lines ->
  build spawn target
  = (try status <- exit; Ok {| build_success := status |}, omap from_str lines).
Proof.
  intros Hspawn Hall. unfold Client.build. rewrite Hspawn. simpl.
  pose proof (read_events_accepted lines [] [] Hall) as Hread.
  rewrite app_nil_r in Hread. rewrite Hread. reflexivity.
Qed.

(** X13: an event that the handler refuses ends the build with the
    handler's error: the lines after it are not read and the exit status of
    the tool is not waited for. *)
Theorem build_stops_at_refused_event (spawn : list string -> Result Child)
    (target : string) (before : list string) (line : string)
    (after : list (Result string)) (exit : Result bool)
    (event : BuildEvent) (e : Error) :
  spawn (build_args target)
  = Ok {| stdout_lines := map Ok before ++ Ok line :: after;
          exit_success := exit |} ->
  Forall (fun line => forall event, from_str line = Some event ->
                                    handle_build_event event = Ok tt) before ->
  from_str line = Some event ->
  handle_build_event event = Err e ->
  build spawn target = (Err e, omap from_str before ++ [event]).
Proof.
  intros Hspawn Hall Hd Hh. unfold Client.build. rewrite Hspawn. simpl.
  rewrite (read_events_accepted before _ [] Hall). simpl.
  now rewrite Hd, Hh.
Qed.

End BuildFacts.

Lemma least_recently_used_is_evicted_witness :
  Client.assoc "deps(//pkg:server)"
    (Client.entries
       (Client.query_cache
          (snd (Workspace.client_query Workspace.tool_before Samples.small_client
                  "deps(//pkg:api)")))) = None.
Proof.
  apply (least_recently_used_is_evicted Workspace.decode id Workspace.tool_before
           Samples.small_client [("deps(//pkg:lib)", ["//pkg:lib"])]
           "deps(//pkg:server)" "deps(//pkg:api)" ["//pkg:server"] ["//pkg:server"]
           {| Client.success := true; Client.stdout := "//pkg:server";
              Client.stderr := EmptyString |}).
  - split; simpl; [|lia].
    apply (bool_decide_eq_true_1 (NoDup ["deps(//pkg:lib)"; "deps(//pkg:server)"])).
    vm_compute. reflexivity.
  - reflexivity.
  - reflexivity.
  - reflexivity.
  - reflexivity.
  - reflexivity.
  - reflexivity.
Defined.

Lemma failed_call_leaves_cache_witness :
  Client.query_cache
    (snd (Workspace.client_query Samples.tool_missing Samples.small_client
            "deps(//pkg:api)"))
  = Client.query_cache Samples.small_client.
Proof.
  apply (failed_call_leaves_cache Workspace.decode id Samples.tool_missing
           Samples.small_client "deps(//pkg:api)").
  reflexivity.
Defined.

Lemma build_delivers_in_order_witness :
  Client.build Samples.event_of Samples.accept Samples.spawn_build "//pkg:server"
  = (Ok {| Client.build_success := true |},
     ["{started}"; "{finished}"; "{summary}"]).
Proof.
  apply (build_delivers_in_order Samples.event_of Samples.accept Samples.spawn_build
           "//pkg:server"
           ["{started}"; "INFO: not an event"; "{finished}"; "{summary}"] (Ok true)).
  - reflexivity.
  - repeat constructor.
Defined.

Lemma build_stops_at_refused_event_witness :
  Client.build Samples.event_of Samples.refuse_finished Samples.spawn_build
    "//pkg:server"
  = (Err (Bail "handler failed"), ["{started}"; "{finished}"]).
Proof.
  apply (build_stops_at_refused_event Samples.event_of Samples.refuse_finished
           Samples.spawn_build "//pkg:server"
           ["{started}"; "INFO: not an event"] "{finished}" [Ok "{summary}"]
           (Ok true) "{finished}" (Bail "handler failed")).
  - reflexivity.
  - repeat constructor; intros event [= <-]; reflexivity.
  - reflexivity.
  - reflexivity.
Defined.

(** * Further properties of the build graph *)

Section MoreGraphFacts.

Import Pest Graph.

Context {PathBuf : Type} `{Countable PathBuf}.
Context {Url : Type}.
Variable parent : PathBuf -> option PathBuf.
Variable join : PathBuf -> string -> PathBuf.
Variable to_file_path : Url -> option PathBuf.
Variable read_to_string : PathBuf -> Result string.
Variable BuildParser_parse : RuleTag -> string -> Result (list Pair).
Variable parse_rule : Pair -> PathBuf -> Result (option BazelTarget).
Variable display : Error -> string.

Abbreviation index_pairs := (Graph.index_pairs parent join parse_rule).
Abbreviation parse_build_file :=
  (Graph.parse_build_file parent join read_to_string BuildParser_parse parse_rule).
Abbreviation get_target_for_file := (Graph.get_target_for_file to_file_path).
Abbreviation file_ops :=
  (Graph.file_ops parent join read_to_string BuildParser_parse parse_rule).
Abbreviation scan_workspace :=
  (Graph.scan_workspace parent join read_to_string BuildParser_parse parse_rule display).
Abbreviation scan_in_order :=
  (Graph.scan_in_order parent join read_to_string BuildParser_parse parse_rule display).

Implicit Types (g : BuildGraph (PathBuf := PathBuf)) (ops : list (op (PathBuf := PathBuf))).
Implicit Types (path file : PathBuf) (t : BazelTarget).

(** X14: a file that no Target of the scan claims has no Target: the
    lookup of a path for which the scan recorded no label is [None]. *)
Theorem unclaimed_file_has_no_target (root : PathBuf) (build_files : list PathBuf)
    (out : Scan) (file : Url) (path : PathBuf) :
  scan_workspace (Graph.empty root) build_files out ->
  to_file_path file = Some path ->
  (forall f l, f ∈ build_files -> Push path l ∉ fst (file_ops f)) ->
  get_target_for_file (graph out) file = None.
Proof.
  intros (sched & Hint & ->) Hp Hnone. simpl.
  rewrite (first_pushed_wins to_file_path root sched file path Hp).
  destruct (pushed path sched) as [|l ls] eqn:Hpushed; [reflexivity|].
  exfalso. assert (Hin : Push path l ∈ sched).
  { apply elem_of_pushed. rewrite Hpushed. left. }
  apply (sched_elem parent join read_to_string BuildParser_parse parse_rule
           build_files sched _ Hint) in Hin as (f & Hf & Hin).
  exact (Hnone f l Hf Hin).
Qed.

(** X15: at the end of a scan the two indices agree, however the workers
    were interleaved: if every label of the file index had a Target before
    the scan, every label of the file index has one after it. *)
Theorem scan_ends_consistent (g : BuildGraph) (build_files : list PathBuf)
    (out : Scan) :
  consistent g ->
  scan_workspace g build_files out ->
  consistent (graph out).
Proof.
  intros Hcons (sched & Hint & ->). simpl.
  intros file labels l Hl Hin. rewrite run_ops_file_to_targets in Hl.
  assert (Hcase : (exists old, file_to_targets g !! file = Some old /\ l ∈ old)
                  \/ l ∈ pushed file sched).
  { destruct (pushed file sched) as [|l0 ls] eqn:Hp.
    - left. eauto.
    - inversion Hl; subst. apply elem_of_app in Hin as [Hin|Hin]; [|now right].
      left. destruct (file_to_targets g !! file) as [old|]; [eauto|inversion Hin]. }
  destruct Hcase as [(old & Hold & Hin')|Hin'].
  - apply run_ops_keeps_targets. eapply Hcons; eassumption.
  - apply elem_of_pushed in Hin'.
    apply (sched_elem parent join read_to_string BuildParser_parse parse_rule
             build_files sched _ Hint) in Hin' as (f & Hf & Hin').
    destruct (file_ops_push parent join read_to_string BuildParser_parse parse_rule
                _ _ _ Hin') as [t Ht].
    assert (Hi : Insert l t ∈ sched).
    { apply (sched_elem parent join read_to_string BuildParser_parse parse_rule
               build_files sched _ Hint). eauto. }
    destruct (inserted_indexed g sched _ _ Hi) as (t' & -> & _). eauto.
Qed.

Lemma warnings_count (results : list (Result unit)) :
  Forall (fun r => r <> Panic) results ->
  length (omap (Graph.warning display) results)
  = length (filter (fun r => is_ok r = false) results).
Proof.
  induction 1 as [|r results Hr Hrest IH]; [reflexivity|].
  destruct r as [[]|e|]; [| |contradiction].
  - rewrite filter_cons_False by (simpl; discriminate). exact IH.
  - rewrite filter_cons_True by reflexivity. simpl. now rewrite <- IH.
Qed.

Lemma no_panic_found (results : list (Result unit)) :
  Forall (fun r => r <> Panic) results -> existsb is_panic results = false.
Proof.
  induction 1 as [|r results Hr Hrest IH]; [reflexivity|].
  simpl. rewrite IH. now destruct r.
Qed.

(** X16: a scan does not fail because files fail. When no worker panics
    the scan returns [Ok(())], even if every file is unreadable or rejected,
    and it logs one warning for each file that failed, no more and no less. *)
Theorem scan_succeeds_with_failing_files (g : BuildGraph)
    (build_files : list PathBuf) (out : Scan) :
  scan_workspace g build_files out ->
  (forall f, f ∈ build_files -> snd (file_ops f) <> Panic) ->
  returned out = Ok tt
  /\ length (log out)
     = length (filter (fun f => is_ok (snd (file_ops f)) = false) build_files).
Proof.
  intros (sched & Hint & ->) Hnp. unfold Graph.scan_with. simpl.
  assert (Hall : Forall (fun r : Result unit => r <> Panic)
                   (map (fun path => snd (file_ops path)) build_files)).
  { apply Forall_forall. intros r Hin.
    change (map ?f ?l) with (f <$> l) in Hin.
    apply list_elem_of_fmap in Hin as (f & -> & Hf). now apply Hnp. }
  rewrite (no_panic_found _ Hall), (warnings_count _ Hall). split; [reflexivity|].
  clear. induction build_files as [|f fs IH]; [reflexivity|].
  simpl. destruct (is_ok (snd (file_ops f))) eqn:Hok.
  - rewrite !filter_cons_False by (rewrite ?Hok; discriminate). exact IH.
  - rewrite !filter_cons_True by (rewrite ?Hok; reflexivity). simpl. now rewrite IH.
Qed.

Lemma index_pairs_app path (before : list Pair) : forall after g,
  index_pairs path (before ++ after) g
  = match index_pairs path before g with
    | (Ok _, g1) => index_pairs path after g1
    | failed => failed
    end.
Proof.
  induction before as [|p before IH]; intros after g; [reflexivity|].
  simpl. destruct (parse_rule p path) as [[target|]| |]; try reflexivity.
  - destruct (Graph.update_file_mappings parent join path (label target)
                (srcs target) g) as [[[]| |] g1]; try reflexivity.
    apply IH.
  - apply IH.
Qed.

(** X17: a file is indexed up to its first failure. When [parse_rule]
    fails on a statement, the Targets of the statements before it stay in
    the graph, the statements after it are not looked at, and the error is
    the result of the file. *)
Theorem file_indexed_up_to_failure (path : PathBuf) (before after : list Pair)
    (p : Pair) (e : Error) (g g1 : BuildGraph) :
  index_pairs path before g = (Ok tt, g1) ->
  parse_rule p path = Err e ->
  index_pairs path (before ++ p :: after) g = (Err e, g1).
Proof.
  intros Hbefore Hp. rewrite index_pairs_app, Hbefore. simpl. now rewrite Hp.
Qed.

Lemma head_app_nonempty {A : Type} (l more : list A) :
  l <> [] -> head (l ++ more) = head l.
Proof. now destruct l. Qed.

(** X18: parsing an unchanged file a second time changes no answer. The
    Targets by label are exactly what they were and every lookup of a file
    returns what it returned, while each list of labels that the file
    contributed to has its labels once more at the end. *)
Theorem reparse_of_unchanged_file (g : BuildGraph) (path : PathBuf) :
  let once := snd (parse_build_file g path) in
  let twice := snd (parse_build_file once path) in
  targets twice = targets once
  /\ (forall file : Url, get_target_for_file twice file = get_target_for_file once file)
  /\ (forall file labels,
        file_to_targets once !! file = Some labels ->
        file_to_targets twice !! file
        = Some (labels ++ pushed file (fst (file_ops path)))).
Proof.
  cbv zeta. rewrite !parse_build_file_ops. simpl.
  set (ops := fst (file_ops path)).
  assert (Htargets : targets (run_ops (run_ops g ops) ops) = targets (run_ops g ops)).
  { apply map_eq. intros l. rewrite (run_ops_targets ops (run_ops g ops)).
    rewrite (run_ops_targets ops g).
    now destruct (last (inserted l ops)). }
  split; [exact Htargets|]. split.
  - intros file. unfold Graph.get_target_for_file.
    destruct (to_file_path file) as [p|]; [simpl|reflexivity].
    rewrite Htargets. rewrite (run_ops_file_to_targets ops (run_ops g ops)).
    destruct (pushed p ops) as [|l0 ls] eqn:Hp; [reflexivity|].
    rewrite (run_ops_file_to_targets ops g), Hp. simpl.
    rewrite head_app_nonempty; [reflexivity|].
    now destruct (default [] (file_to_targets g !! p)).
  - intros file labels Hl. now apply run_ops_keeps_labels.
Qed.

(** X19: when no label is declared twice, the Targets by label do not
    depend on how the workers were interleaved: two scans of the same files
    from the same graph end with the same Targets by label. *)
Theorem targets_independent_of_schedule (g : BuildGraph)
    (build_files : list PathBuf) (out1 out2 : Scan) :
  scan_workspace g build_files out1 ->
  scan_workspace g build_files out2 ->
  (forall f f' l t t', f ∈ build_files -> f' ∈ build_files ->
                       Insert l t ∈ fst (file_ops f) ->
                       Insert l t' ∈ fst (file_ops f') -> t = t') ->
  targets (graph out1) = targets (graph out2).
Proof.
  intros (s1 & Hint1 & ->) (s2 & Hint2 & ->) Huniq. simpl.
  assert (Hone : forall sa sb l t,
             interleaving (map (fun f => fst (file_ops f)) build_files) sa ->
             interleaving (map (fun f => fst (file_ops f)) build_files) sb ->
             last (inserted l sa) = Some t -> last (inserted l sb) = Some t).
  { intros sa sb l t Ha Hb Hlast.
    assert (Hin : Insert l t ∈ sa).
    { apply elem_of_inserted. now apply last_Some_elem_of. }
    apply (sched_elem parent join read_to_string BuildParser_parse parse_rule
             build_files sa _ Ha) in Hin as (f & Hf & Hin).
    assert (Hinb : Insert l t ∈ sb).
    { apply (sched_elem parent join read_to_string BuildParser_parse parse_rule
               build_files sb _ Hb). eauto. }
    apply elem_of_inserted in Hinb.
    destruct (last (inserted l sb)) as [t'|] eqn:Hlb.
    - f_equal. apply last_Some_elem_of, elem_of_inserted in Hlb.
      apply (sched_elem parent join read_to_string BuildParser_parse parse_rule
               build_files sb _ Hb) in Hlb as (f' & Hf' & Hlb).
      exact (Huniq f' f l t' t Hf' Hf Hlb Hin).
    - apply last_None in Hlb. rewrite Hlb in Hinb. inversion Hinb. }
  apply map_eq. intros l. rewrite !run_ops_targets.
  destruct (last (inserted l s1)) as [t1|] eqn:H1.
  - now rewrite (Hone s1 s2 l t1 Hint1 Hint2 H1).
  - destruct (last (inserted l s2)) as [t2|] eqn:H2; [|reflexivity].
    rewrite (Hone s2 s1 l t2 Hint2 Hint1 H2) in H1. discriminate.
Qed.

End MoreGraphFacts.

Lemma unclaimed_file_has_no_target_witness :
  Workspace.target_for_file
    (Graph.graph (Workspace.scan [(Workspace.pkg_BUILD, Workspace.server_build)]
                    [Workspace.pkg_BUILD]))
    "file:///ws/pkg/other.go"
  = None.
Proof.
  apply (unclaimed_file_has_no_target Workspace.parent Workspace.join
           Workspace.to_file_path
           (Workspace.read_from [(Workspace.pkg_BUILD, Workspace.server_build)])
           Pest.BuildParser_parse (Workspace.parse_rule Workspace.root)
           Workspace.display Workspace.root [Workspace.pkg_BUILD]
           (Workspace.scan [(Workspace.pkg_BUILD, Workspace.server_build)]
              [Workspace.pkg_BUILD])
           "file:///ws/pkg/other.go" (Workspace.components "/ws/pkg/other.go")).
  - apply scan_in_order_possible.
  - reflexivity.
  - intros f l Hf Hin. apply list_elem_of_singleton in Hf. subst f.
    vm_compute in Hin. apply elem_of_cons in Hin as [Hin|Hin]; [discriminate|].
    apply list_elem_of_singleton in Hin. discriminate.
Defined.

Lemma scan_ends_consistent_witness :
  Graph.consistent
    (Graph.graph (Workspace.scan Workspace.shared_files
                    [Workspace.pkg_BUILD; Workspace.pkg_BUILD_bazel])).
Proof.
  apply (scan_ends_consistent Workspace.parent Workspace.join
           (Workspace.read_from Workspace.shared_files)
           Pest.BuildParser_parse (Workspace.parse_rule Workspace.root)
           Workspace.display (Graph.empty Workspace.root)
           [Workspace.pkg_BUILD; Workspace.pkg_BUILD_bazel]).
  - intros file labels l Hl. simpl in Hl. rewrite lookup_empty in Hl. discriminate.
  - apply scan_in_order_possible.
Defined.

Lemma scan_succeeds_with_failing_files_witness :
  Graph.returned (Workspace.scan Workspace.pkg_broken
                    [Workspace.pkg_BUILD; Workspace.lib_BUILD]) = Ok tt
  /\ length (Graph.log (Workspace.scan Workspace.pkg_broken
                          [Workspace.pkg_BUILD; Workspace.lib_BUILD]))
     = length (filter (fun f => is_ok (snd (Workspace.ops_of Workspace.pkg_broken f))
                                = false)
                 [Workspace.pkg_BUILD; Workspace.lib_BUILD]).
Proof.
  apply (scan_succeeds_with_failing_files Workspace.parent Workspace.join
           (Workspace.read_from Workspace.pkg_broken)
           Pest.BuildParser_parse (Workspace.parse_rule Workspace.root)
           Workspace.display (Graph.empty Workspace.root)
           [Workspace.pkg_BUILD; Workspace.lib_BUILD]).
  - apply scan_in_order_possible.
  - intros f Hf. apply elem_of_cons in Hf as [->|Hf];
      [|apply list_elem_of_singleton in Hf; subst f]; vm_compute; discriminate.
Defined.

Lemma file_indexed_up_to_failure_witness :
  Graph.index_pairs Workspace.parent Workspace.join Samples.strict_parse_rule
    Workspace.pkg_BUILD ([Samples.server_file] ++ Samples.nameless_file :: [Samples.server_file])
    (Graph.empty Workspace.root)
  = (Err (Bail "rule without a name"), Workspace.scanned).
Proof.
  apply (file_indexed_up_to_failure Workspace.parent Workspace.join
           Samples.strict_parse_rule Workspace.pkg_BUILD
           [Samples.server_file] [Samples.server_file] Samples.nameless_file
           (Bail "rule without a name") (Graph.empty Workspace.root)
           Workspace.scanned).
  - vm_compute. reflexivity.
  - vm_compute. reflexivity.
Defined.

Lemma lib_first_possible :
  Graph.interleaving
    (map (fun f => fst (Workspace.ops_of Samples.two_files f)) Samples.two_build_files)
    Samples.lib_first.
Proof.
  vm_compute.
  repeat (eapply (Graph.interleaving_step _ 1); [reflexivity|]; simpl).
  repeat (eapply (Graph.interleaving_step _ 0); [reflexivity|]; simpl).
  apply Graph.interleaving_done. repeat constructor.
Qed.

Lemma targets_independent_of_schedule_witness :
  Graph.targets (Graph.graph (Workspace.scan Samples.two_files Samples.two_build_files))
  = Graph.targets (Graph.graph (Samples.scan_with_schedule Samples.lib_first)).
Proof.
  apply (targets_independent_of_schedule Workspace.parent Workspace.join
           (Workspace.read_from Samples.two_files)
           Pest.BuildParser_parse (Workspace.parse_rule Workspace.root)
           Workspace.display (Graph.empty Workspace.root) Samples.two_build_files).
  - apply scan_in_order_possible.
  - exists Samples.lib_first. split; [apply lib_first_possible | reflexivity].
  - intros f f' l t t' Hf Hf' Hin Hin'.
    apply elem_of_cons in Hf as [->|Hf];
      [|apply list_elem_of_singleton in Hf; subst f];
      (apply elem_of_cons in Hf' as [->|Hf'];
       [|apply list_elem_of_singleton in Hf'; subst f']);
      vm_compute in Hin, Hin';
      repeat match goal with
             | H : list_elem_of _ _ |- _ => inversion H; clear H; subst
             | H : _ ∈ _ |- _ => inversion H; clear H; subst
             end;
      try reflexivity; try discriminate.
Defined.

(** * Properties of the discovery, the server and the tree of targets *)

(** X20: the walk keeps the readable entries named BUILD or BUILD.bazel,
    and leaves out only those whose path begins with a component that is
    exactly "bazel-": a BUILD file below [bazel-out] or [bazel-bin] is
    scanned like any other. Unreadable entries are dropped without a
    trace. *)
Theorem discover_keeps (walk : list (Result (list string))) (p : list string) :
  p ∈ Discovery.discover walk
  <-> Ok p ∈ walk
      /\ (Discovery.file_name p = "BUILD" \/ Discovery.file_name p = "BUILD.bazel")
      /\ head p <> Some "bazel-".
Proof.
  unfold Discovery.discover. rewrite list_elem_of_filter, list_elem_of_omap.
  unfold Discovery.is_build_file.
  change (Workspace.components "bazel-") with ["bazel-"].
  assert (Hstart : Discovery.starts_with p ["bazel-"] = true <-> head p = Some "bazel-").
  { destruct p as [|c p]; [split; discriminate|].
    cbn [Discovery.starts_with head].
    replace (Discovery.starts_with p []) with true by now destruct p.
    destruct (String.eqb_spec "bazel-" c) as [<-|Hne]; simpl.
    - split; reflexivity.
    - split; [discriminate | intros [= ->]; contradiction]. }
  rewrite andb_true_iff, orb_true_iff, negb_true_iff, !String.eqb_eq.
  split.
  - intros [[Hname Hns] (e & Hin & He)]. destruct e as [q| |]; try discriminate.
    inversion He; subst. split; [exact Hin|]. split; [exact Hname|].
    intros Hhead. apply Hstart in Hhead. congruence.
  - intros (Hin & Hname & Hhead). split.
    + split; [exact Hname|]. destruct (Discovery.starts_with p ["bazel-"]) eqn:Hs;
        [|reflexivity]. exfalso. apply Hhead. now apply Hstart.
    + exists (Ok p). now split.
Qed.

Section ServerFacts.

Import Server.

Variable client_build : string -> Result unit.
Variable client_test : string -> Result unit.

Abbreviation execute_command := (Server.execute_command client_build client_test).

(** X21: a request for [bazel.build] or [bazel.test] whose first argument
    is a string makes exactly one call on the client, the build or the test
    of that string, and answers with what the call gives; the other
    arguments are ignored. No other request reaches the client: whenever a
    call is made, the command is one of the two, the first argument is a
    string, and the call is the only one. A request for [bazel.run], as for
    any other command, makes no call. *)
Theorem execute_command_calls (command : string) (arguments : list Json) :
  (forall target rest,
      arguments = JString target :: rest ->
      (command = "bazel.build" ->
       execute_command command arguments
       = (respond (client_build target), [CallBuild target]))
      /\ (command = "bazel.test" ->
          execute_command command arguments
          = (respond (client_test target), [CallTest target])))
  /\ (forall call,
        call ∈ snd (execute_command command arguments) ->
        exists target rest,
          arguments = JString target :: rest
          /\ snd (execute_command command arguments) = [call]
          /\ ((command = "bazel.build" /\ call = CallBuild target)
              \/ (command = "bazel.test" /\ call = CallTest target))).
Proof.
  split.
  - intros target rest ->. split; intros ->; reflexivity.
  - intros call. unfold Server.execute_command, first_target.
    destruct (String.eqb_spec command "bazel.build") as [->|Hb].
    + destruct arguments as [|[target| | |] rest]; simpl;
        try (intros Hin; now inversion Hin).
      intros Hin. apply list_elem_of_singleton in Hin. subst call.
      exists target, rest. auto.
    + destruct (String.eqb_spec command "bazel.test") as [->|Ht].
      * destruct arguments as [|[target| | |] rest]; simpl;
          try (intros Hin; now inversion Hin).
        intros Hin. apply list_elem_of_singleton in Hin. subst call.
        exists target, rest. auto.
      * intros Hin. inversion Hin.
Qed.

End ServerFacts.

Lemma execute_command_calls_witness :
  Server.execute_command Samples.client_ok Samples.client_failing "bazel.build"
    [Server.JString "//pkg:server"; Server.JNull]
  = (Server.Responded None, [Server.CallBuild "//pkg:server"])
  /\ Server.execute_command Samples.client_ok Samples.client_failing "bazel.test"
       [Server.JString "//pkg:server"; Server.JNull]
     = (Server.Refused (Server.Failed (Bail "test failed")),
        [Server.CallTest "//pkg:server"])
  /\ exists target rest,
       [Server.JString "//pkg:server"; Server.JNull] = Server.JString target :: rest
       /\ snd (Server.execute_command Samples.client_ok Samples.client_failing
                 "bazel.test" [Server.JString "//pkg:server"; Server.JNull])
          = [Server.CallTest "//pkg:server"]
       /\ (("bazel.test" = "bazel.build"
            /\ Server.CallTest "//pkg:server" = Server.CallBuild target)
           \/ ("bazel.test" = "bazel.test"
               /\ Server.CallTest "//pkg:server" = Server.CallTest target)).
Proof.
  destruct (execute_command_calls Samples.client_ok Samples.client_failing
              "bazel.build" [Server.JString "//pkg:server"; Server.JNull])
    as [Hbuild _].
  destruct (execute_command_calls Samples.client_ok Samples.client_failing
              "bazel.test" [Server.JString "//pkg:server"; Server.JNull])
    as [Htest Honly].
  split; [|split].
  - apply (Hbuild "//pkg:server" [Server.JNull]); reflexivity.
  - apply (Htest "//pkg:server" [Server.JNull]); reflexivity.
  - apply (Honly (Server.CallTest "//pkg:server")). simpl. apply list_elem_of_here.
Defined.

Section CodeLensFacts.

Import Server.

Context {PathBuf : Type} `{Countable PathBuf}.
Context {Url : Type}.
Variable to_file_path : Url -> option PathBuf.
Variable url_path : Url -> string.
Variable is_test : Graph.BazelTarget -> bool.
Variable get_code_lenses : Graph.BuildGraph (PathBuf := PathBuf) -> Url ->
                           Result (list LensCommand).

Abbreviation code_lens :=
  (Server.code_lens to_file_path url_path is_test get_code_lenses).

Lemma substring_suffix (prefix suffix : string) :
  substring (String.length prefix) (String.length suffix) (prefix +:+ suffix) = suffix.
Proof.
  induction prefix as [|c prefix IH]; [|exact IH].
  change (EmptyString +:+ suffix) with suffix. simpl.
  induction suffix as [|d suffix IHs]; [reflexivity|].
  cbn [String.length substring]. now rewrite IHs.
Qed.

Lemma length_append (a b : string) :
  String.length (a +:+ b) = String.length a + String.length b.
Proof. induction a as [|c a IH]; simpl; [reflexivity | now rewrite IH]. Qed.

Lemma ends_with_append (prefix suffix : string) :
  ends_with (prefix +:+ suffix) suffix = true.
Proof.
  unfold ends_with. rewrite length_append.
  replace (String.length prefix + String.length suffix - String.length suffix)
    with (String.length prefix) by lia.
  rewrite substring_suffix, String.eqb_refl, andb_true_r.
  apply Nat.leb_le. lia.
Qed.

(** X22: the BUILD-file lenses go to every document whose path ends in the
    letters BUILD, whatever precedes them in the file name: such a document
    is answered by [get_code_lenses], and the Target that owns it is not
    looked up. *)
Theorem code_lens_by_path_suffix (g : Graph.BuildGraph) (uri : Url)
    (prefix : string) :
  url_path uri = prefix +:+ "BUILD" ->
  code_lens g uri = try lenses <- get_code_lenses g uri; Ok (Some lenses).
Proof.
  intros Hpath. unfold Server.code_lens. now rewrite Hpath, ends_with_append.
Qed.

(** X23: a source file gets the test lenses only through the Target that
    claimed it first. When the first label recorded for the file is that of
    a Target that is not a test, the file gets no lens, even if Targets
    recorded after it are tests. *)
Theorem no_test_lens_behind_first_claim (g : Graph.BuildGraph) (uri : Url)
    (path : PathBuf) (l : string) (others : list string) (t : Graph.BazelTarget) :
  ends_with (url_path uri) "BUILD" = false ->
  ends_with (url_path uri) "BUILD.bazel" = false ->
  to_file_path uri = Some path ->
  Graph.file_to_targets g !! path = Some (l :: others) ->
  Graph.targets g !! l = Some t ->
  is_test t = false ->
  code_lens g uri = Ok None.
Proof.
  intros Hb Hbb Hp Hl Ht Htest. unfold Server.code_lens, Graph.get_target_for_file.
  rewrite Hb, Hbb, Hp. simpl. rewrite Hl. simpl. rewrite Ht. simpl.
  now rewrite Htest.
Qed.

End CodeLensFacts.

Lemma code_lens_by_path_suffix_witness :
  Server.code_lens Workspace.to_file_path Samples.url_path Samples.is_test
    Samples.no_lenses Samples.library_graph "file:///ws/pkg/NOT_A_BUILD"
  = (try lenses <- Samples.no_lenses Samples.library_graph
                     "file:///ws/pkg/NOT_A_BUILD";
     Ok (Some lenses)).
Proof.
  apply (code_lens_by_path_suffix Workspace.to_file_path Samples.url_path
           Samples.is_test Samples.no_lenses Samples.library_graph
           "file:///ws/pkg/NOT_A_BUILD" "/ws/pkg/NOT_A_").
  reflexivity.
Defined.

Lemma no_test_lens_behind_first_claim_witness :
  Server.code_lens Workspace.to_file_path Samples.url_path Samples.is_test
    Samples.no_lenses Samples.library_graph "file:///ws/pkg/util.go"
  = Ok None.
Proof.
  apply (no_test_lens_behind_first_claim Workspace.to_file_path Samples.url_path
           Samples.is_test Samples.no_lenses Samples.library_graph
           "file:///ws/pkg/util.go" (Workspace.components "/ws/pkg/util.go")
           "//pkg:util" ["//pkg:util_test"] Samples.util_library);
    vm_compute; reflexivity.
Defined.

Section TargetProviderFacts.

Import TargetProvider.

Implicit Types (m : TargetMap) (t : BazelTarget).

Lemma map_get_app_absent m k k' (v : list BazelTarget) :
  map_get m k = None ->
  map_get (m ++ [(k', v)]) k = if String.eqb k k' then Some v else None.
Proof.
  induction m as [|[k0 v0] m IH]; simpl; [reflexivity|].
  destruct (String.eqb k k0); [discriminate | exact IH].
Qed.

Lemma map_get_app_present m k e (v : list BazelTarget) :
  map_get m k = Some v -> map_get (m ++ [e]) k = Some v.
Proof.
  induction m as [|[k0 v0] m IH]; simpl; [discriminate|].
  destruct (String.eqb k k0); [easy | exact IH].
Qed.

Lemma map_get_push m k k' t :
  map_get (map_push m k' t) k
  = if String.eqb k k' then (fun v => v ++ [t]) <$> map_get m k else map_get m k.
Proof.
  induction m as [|[k0 v0] m IH]; simpl; [now destruct (String.eqb k k')|].
  destruct (String.eqb_spec k' k0) as [->|Hne]; simpl.
  - destruct (String.eqb_spec k k0) as [->|Hk]; [reflexivity|].
    now destruct (String.eqb k k0).
  - destruct (String.eqb_spec k k0) as [->|Hk].
    + destruct (String.eqb_spec k0 k') as [->|_]; [contradiction | reflexivity].
    + exact IH.
Qed.

Lemma group_get (result : list BazelTarget) : forall m pkg,
  map_get (group result m) pkg
  = match map_get m pkg, filter (fun t => package t = pkg) result with
    | Some v, ts => Some (v ++ ts)
    | None, [] => None
    | None, ts => Some ts
    end.
Proof.
  induction result as [|t result IH]; intros m pkg; simpl.
  - destruct (map_get m pkg); [now rewrite app_nil_r | reflexivity].
  - rewrite IH, map_get_push. destruct (String.eqb_spec pkg (package t)) as [->|Hne].
    + rewrite filter_cons_True by reflexivity.
      destruct (map_get m (package t)) as [v|] eqn:Hm; simpl.
      * rewrite Hm. simpl. now rewrite <- app_assoc.
      * rewrite (map_get_app_absent _ _ _ _ Hm), String.eqb_refl. reflexivity.
    + rewrite filter_cons_False by congruence.
      destruct (map_get m (package t)) as [v|] eqn:Hm; [reflexivity|].
      destruct (map_get m pkg) as [v'|] eqn:Hm'.
      * now rewrite (map_get_app_present _ _ _ _ Hm').
      * rewrite (map_get_app_absent _ _ _ _ Hm').
        now destruct (String.eqb_spec pkg (package t)).
Qed.

(** X24: [loadTargets] files every Target under its package and nowhere
    else: the Targets found under a package are those of the result with
    that package, in the order of the result, and a package without Target
    has no entry. *)
Theorem loadTargets_groups_by_package (result : list BazelTarget) (pkg : string) :
  map_get (loadTargets result) pkg
  = match filter (fun t => package t = pkg) result with
    | [] => None
    | ts => Some ts
    end.
Proof. unfold loadTargets. now rewrite group_get. Qed.

Lemma append_one_assoc (cur : string) (c : ascii) (rest : string) :
  (cur +:+ String c EmptyString) +:+ rest = cur +:+ String c rest.
Proof.
  induction cur as [|d cur IH]; [reflexivity|].
  change (String d ((cur +:+ String c EmptyString) +:+ rest)
          = String d (cur +:+ String c rest)).
  now f_equal.
Qed.

Lemma append_empty (s : string) : s +:+ EmptyString = s.
Proof.
  induction s as [|c s IH]; [reflexivity|].
  change (String c (s +:+ EmptyString) = String c s). now f_equal.
Qed.

Lemma split_colon_plain (s : string) : forall cur,
  Forall (fun c => c <> ":"%char) (list_ascii_of_string s) ->
  split_colon cur s = [cur +:+ s].
Proof.
  induction s as [|c s IH]; intros cur Hs; simpl.
  - now rewrite append_empty.
  - inversion Hs as [|? ? Hc Hrest]; subst.
    destruct (Ascii.eqb_spec c ":"%char); [contradiction|].
    rewrite IH by exact Hrest. now rewrite append_one_assoc.
Qed.

Lemma split_colon_at (a b : string) : forall cur,
  Forall (fun c => c <> ":"%char) (list_ascii_of_string a) ->
  split_colon cur (a +:+ String ":"%char b)
  = (cur +:+ a) :: split_colon EmptyString b.
Proof.
  induction a as [|c a IH]; intros cur Ha; simpl.
  - now rewrite append_empty.
  - inversion Ha as [|? ? Hc Hrest]; subst.
    destruct (Ascii.eqb_spec c ":"%char); [contradiction|].
    rewrite IH by exact Hrest. now rewrite append_one_assoc.
Qed.

(** X25: the tree names a Target by what follows the colon of its label: a
    label made of a package part, a colon and a name, neither holding a
    colon, gives the name back; a label without colon gives no name at all
    (the item's label is undefined). *)
Theorem target_name_of_label (pkg name : string) :
  Forall (fun c => c <> ":"%char) (list_ascii_of_string pkg) ->
  Forall (fun c => c <> ":"%char) (list_ascii_of_string name) ->
  target_name (pkg +:+ String ":"%char name) = Some name
  /\ target_name pkg = None.
Proof.
  intros Hpkg Hname. unfold target_name. split.
  - rewrite split_colon_at by exact Hpkg. simpl.
    now rewrite split_colon_plain by exact Hname.
  - now rewrite split_colon_plain by exact Hpkg.
Qed.

End TargetProviderFacts.

Lemma target_name_of_label_witness :
  TargetProvider.target_name ("//pkg" +:+ String ":"%char "server") = Some "server"
  /\ TargetProvider.target_name "//pkg" = None.
Proof.
  apply (target_name_of_label "//pkg" "server");
    repeat (constructor; [discriminate|]); constructor.
Defined.

(** * The pairs of an invocation, and what [parse_statement] makes of them *)

Section InvocationFacts.

Import Pest Parser Shape.

Variable src : string.

Lemma run_Str_inv fuel a s pos rest p r toks :
  run src fuel a (Str s) pos rest = Matched p r toks -> toks = [].
Proof.
  destruct fuel as [|fuel]; [discriminate|]. cbn [run]. unfold step.
  destruct (strip_prefix s rest); [now intros [= _ _ <-] | discriminate].
Qed.

Lemma run_Seq_inv fuel a x y pos rest p r toks :
  run src fuel a (Seq x y) pos rest = Matched p r toks ->
  exists fuel' p1 r1 t1 p2 r2 t3,
    fuel = S fuel'
    /\ run src fuel' a x pos rest = Matched p1 r1 t1
    /\ run src fuel' a y p2 r2 = Matched p r t3
    /\ toks = t1 ++ t3.
Proof.
  destruct fuel as [|fuel]; [discriminate|]. cbn [run]. unfold step.
  destruct (run src fuel a x pos rest) as [| |p1 r1 t1] eqn:Hx; try discriminate.
  destruct (if a then Matched p1 r1 [] else run src fuel true skip_expr p1 r1)
    as [| |p2 r2 t2]; try discriminate.
  destruct (run src fuel a y p2 r2) as [| |p3 r3 t3] eqn:Hy; try discriminate.
  intros [= <- <- <-]. exists fuel, p1, r1, t1, p2, r2, t3. auto.
Qed.

Lemma run_Alt_inv fuel a x y pos rest p r toks :
  run src fuel a (Alt x y) pos rest = Matched p r toks ->
  exists fuel',
    fuel = S fuel'
    /\ (run src fuel' a x pos rest = Matched p r toks
        \/ run src fuel' a y pos rest = Matched p r toks).
Proof.
  destruct fuel as [|fuel]; [discriminate|]. cbn [run]. unfold step.
  destruct (run src fuel a x pos rest) as [| |p1 r1 t1] eqn:Hx; try discriminate.
  - intros Hy. exists fuel. auto.
  - intros [= <- <- <-]. exists fuel. auto.
Qed.

Lemma run_Opt_inv fuel a x pos rest p r toks :
  run src fuel a (Opt x) pos rest = Matched p r toks ->
  toks = []
  \/ exists fuel', fuel = S fuel' /\ run src fuel' a x pos rest = Matched p r toks.
Proof.
  destruct fuel as [|fuel]; [discriminate|]. cbn [run]. unfold step.
  destruct (run src fuel a x pos rest) as [| |p1 r1 t1] eqn:Hx; try discriminate.
  - intros [= _ _ <-]. now left.
  - intros [= <- <- <-]. right. exists fuel. auto.
Qed.

Lemma run_Star_inv fuel a x pos rest p r toks :
  run src fuel a (Star x) pos rest = Matched p r toks ->
  toks = []
  \/ exists fuel' p1 r1 t1 t2,
       fuel = S fuel'
       /\ run src fuel' a x pos rest = Matched p1 r1 t1
       /\ run src fuel' a (Rep x) p1 r1 = Matched p r t2
       /\ toks = t1 ++ t2.
Proof.
  destruct fuel as [|fuel]; [discriminate|]. cbn [run]. unfold step.
  destruct (run src fuel a x pos rest) as [| |p1 r1 t1] eqn:Hx; try discriminate.
  - intros [= _ _ <-]. now left.
  - destruct (run src fuel a (Rep x) p1 r1) as [| |p2 r2 t2] eqn:Hr; try discriminate.
    intros [= <- <- <-]. right. exists fuel, p1, r1, t1, t2. auto.
Qed.

Lemma run_Rep_inv fuel a x pos rest p r toks :
  run src fuel a (Rep x) pos rest = Matched p r toks ->
  toks = []
  \/ exists fuel' p1 r1 p2 r2 t2 t3,
       fuel = S fuel'
       /\ run src fuel' a x p1 r1 = Matched p2 r2 t2
       /\ run src fuel' a (Rep x) p2 r2 = Matched p r t3
       /\ toks = t2 ++ t3.
Proof.
  destruct fuel as [|fuel]; [discriminate|]. cbn [run]. unfold step.
  destruct (if a then Matched pos rest [] else run src fuel true skip_expr pos rest)
    as [| |p1 r1 t1]; try discriminate.
  - intros [= _ _ <-]. now left.
  - destruct (run src fuel a x p1 r1) as [| |p2 r2 t2] eqn:Hx; try discriminate.
    + intros [= _ _ <-]. now left.
    + destruct (run src fuel a (Rep x) p2 r2) as [| |p3 r3 t3] eqn:Hr;
        try discriminate.
      intros [= <- <- <-]. right. exists fuel, p1, r1, p2, r2, t2, t3. auto.
Qed.

(** A rule that is not silent, called outside an atomic rule, gives one
    pair, of that rule; it holds the pairs of the body unless the rule is
    atomic. *)
Lemma run_Call_inv fuel rule pos rest p r toks :
  run src fuel false (Call rule) pos rest = Matched p r toks ->
  silent (fst (grammar rule)) = false ->
  exists fuel' text start inner,
    fuel = S fuel'
    /\ run src fuel' (atomic_body (fst (grammar rule))) (snd (grammar rule)) pos rest
       = Matched p r inner
    /\ toks = [MkPair rule text start
                 (if atomic_body (fst (grammar rule)) then [] else inner)].
Proof.
  destruct fuel as [|fuel]; [discriminate|]. cbn [run]. unfold step at 1.
  intros Hrun Hsilent. rewrite Hsilent in Hrun. simpl in Hrun.
  destruct (run src fuel (atomic_body (fst (grammar rule))) (snd (grammar rule))
              pos rest) as [| |p1 r1 inner] eqn:Hbody; try discriminate.
  inversion Hrun; subst. eauto 10.
Qed.

Lemma argument_pair fuel pos rest p r toks :
  run src fuel false (Call R_argument) pos rest = Matched p r toks ->
  exists arg, toks = [arg] /\ is_argument arg.
Proof.
  intros Hrun. apply run_Call_inv in Hrun as (f1 & text & start & inner & -> & Hbody & ->);
    [|reflexivity].
  eexists. split; [reflexivity|]. split; [reflexivity|]. simpl in *.
  apply run_Alt_inv in Hbody as (f2 & -> & [Hnamed|Hpositional]).
  - apply run_Seq_inv in Hnamed as (f3 & ? & ? & t1 & ? & ? & t3 & -> & Hleft & Hvalue & ->).
    apply run_Seq_inv in Hleft as (f4 & ? & ? & tn & ? & ? & te & -> & Hname & Heq & ->).
    apply run_Call_inv in Hname as (? & ? & ? & ? & _ & _ & ->); [|reflexivity].
    apply run_Str_inv in Heq as ->.
    apply run_Call_inv in Hvalue as (? & ? & ? & ? & _ & _ & ->); [|reflexivity].
    simpl. auto.
  - apply run_Call_inv in Hpositional as (? & ? & ? & ? & _ & _ & ->); [|reflexivity].
    simpl. auto.
Qed.

Lemma more_arguments fuel : forall pos rest p r toks,
  run src fuel false (Rep (Seq (Str ",") (Call R_argument))) pos rest
  = Matched p r toks ->
  Forall is_argument toks.
Proof.
  induction fuel as [|fuel IH]; intros pos rest p r toks Hrun; [discriminate|].
  apply run_Rep_inv in Hrun as [->|(f' & ? & ? & ? & ? & t2 & t3 & [= <-] & Hitem & Hrest & ->)];
    [constructor|].
  apply Forall_app. split; [|eapply IH, Hrest].
  apply run_Seq_inv in Hitem as (? & ? & ? & tc & ? & ? & ta & _ & Hcomma & Harg & ->).
  apply run_Str_inv in Hcomma as ->.
  apply argument_pair in Harg as (arg & -> & Harg). simpl. now constructor.
Qed.

(** The pair of an invocation: its name, then its arguments. *)
Lemma invocation_pair fuel pos rest p r toks :
  run src fuel false (Call R_function_call) pos rest = Matched p r toks ->
  exists text start name args,
    toks = [MkPair R_function_call text start (name :: args)]
    /\ as_rule name = R_identifier
    /\ Forall is_argument args.
Proof.
  intros Hrun.
  apply run_Call_inv in Hrun as (f1 & text & start & inner & -> & Hbody & ->);
    [|reflexivity].
  simpl in *.
  apply run_Seq_inv in Hbody as (? & ? & ? & t1 & ? & ? & tclose & -> & Hbody & Hclose & ->).
  apply run_Str_inv in Hclose as ->.
  apply run_Seq_inv in Hbody as (? & ? & ? & t2 & ? & ? & tcomma & -> & Hbody & Hcomma & ->).
  assert (tcomma = []) as ->.
  { apply run_Opt_inv in Hcomma as [->|(? & _ & Hc)]; [reflexivity|].
    now apply run_Str_inv in Hc. }
  apply run_Seq_inv in Hbody as (? & ? & ? & t3 & ? & ? & targs & -> & Hbody & Hargs & ->).
  apply run_Seq_inv in Hbody as (? & ? & ? & tname & ? & ? & topen & -> & Hname & Hopen & ->).
  apply run_Str_inv in Hopen as ->.
  apply run_Call_inv in Hname as (? & ntext & nstart & ? & _ & _ & ->); [|reflexivity].
  simpl. rewrite !app_nil_r.
  exists text, start, (MkPair R_identifier ntext nstart []), targs.
  split; [reflexivity|]. split; [reflexivity|].
  apply run_Opt_inv in Hargs as [->|(? & _ & Hargs)]; [constructor|].
  apply run_Seq_inv in Hargs as (? & ? & ? & tfirst & ? & ? & tmore & _ & Hfirst & Hmore & ->).
  apply argument_pair in Hfirst as (arg & -> & Harg).
  simpl. constructor; [exact Harg|].
  apply run_Star_inv in Hmore as [->|(? & ? & ? & ta & tb & _ & Hitem & Hrest & ->)];
    [constructor|].
  apply Forall_app. split; [|eapply more_arguments, Hrest].
  apply run_Seq_inv in Hitem as (? & ? & ? & tc & ? & ? & targ & _ & Hc & Ha & ->).
  apply run_Str_inv in Hc as ->.
  apply argument_pair in Ha as (arg' & -> & Harg'). simpl. now constructor.
Qed.

End InvocationFacts.

Section RawAttributes.

Import Pest Parser Shape.

Lemma parse_value_of_value p :
  as_rule p = R_value -> parse_value p = Ok (VString (as_str p)).
Proof. destruct p as [rule text start inner]. simpl. now intros ->. Qed.

Lemma collect_raw (args : list Pair) : forall m,
  Forall is_argument args ->
  exists attrs,
    collect_attributes args m = Ok attrs
    /\ (forall key x, attrs !! key = Some x ->
          m !! key = Some x
          \/ exists arg v, arg ∈ args /\ binds arg key v
                           /\ as_rule v = R_value /\ x = VString (as_str v))
    /\ (forall key, is_Some (m !! key) -> is_Some (attrs !! key))
    /\ (forall arg key v, arg ∈ args -> binds arg key v -> is_Some (attrs !! key)).
Proof.
  induction args as [|arg args IH]; intros m Hargs.
  - exists m. split; [reflexivity|]. split; [auto|]. split; [auto|].
    intros arg key v Hin. inversion Hin.
  - inversion Hargs as [|? ? [_ Harg] Hrest]; subst. simpl.
    destruct (into_inner arg) as [|x [|y [|z rest]]] eqn:Hinner; try contradiction.
    + rewrite (parse_value_of_value x Harg). simpl.
      destruct (IH (<["name" := VString (as_str x)]> m) Hrest)
        as (attrs & -> & Hfrom & Hkeep & Hall).
      exists attrs. split; [reflexivity|]. split; [|split].
      * intros key v Hv. destruct (Hfrom key v Hv) as [Hm|(arg' & v' & Hin & Hb)].
        -- apply lookup_insert_Some in Hm as [[<- <-]|[_ Hm]]; [|now left].
           right. exists arg, x. split; [left|]. split; [|auto].
           right. auto.
        -- right. exists arg', v'. split; [now right | exact Hb].
      * intros key Hk. apply Hkeep. rewrite lookup_insert_is_Some'. now right.
      * intros arg' key v Hin Hb. apply elem_of_cons in Hin as [->|Hin].
        -- destruct Hb as [(n & Hn & _)|[Hv ->]]; [rewrite Hinner in Hn; discriminate|].
           apply Hkeep. rewrite lookup_insert_is_Some'. now left.
        -- eapply Hall; eassumption.
    + destruct Harg as [_ Hy]. rewrite (parse_value_of_value y Hy). simpl.
      destruct (IH (<[as_str x := VString (as_str y)]> m) Hrest)
        as (attrs & -> & Hfrom & Hkeep & Hall).
      exists attrs. split; [reflexivity|]. split; [|split].
      * intros key v Hv. destruct (Hfrom key v Hv) as [Hm|(arg' & v' & Hin & Hb)].
        -- apply lookup_insert_Some in Hm as [[<- <-]|[_ Hm]]; [|now left].
           right. exists arg, y. split; [left|]. split; [|auto].
           left. eauto.
        -- right. exists arg', v'. split; [now right | exact Hb].
      * intros key Hk. apply Hkeep. rewrite lookup_insert_is_Some'. now right.
      * intros arg' key v Hin Hb. apply elem_of_cons in Hin as [->|Hin].
        -- destruct Hb as [(n & Hn & ->)|[Hv _]]; [|rewrite Hinner in Hv; discriminate].
           rewrite Hinner in Hn. injection Hn as <- <-.
           apply Hkeep. rewrite lookup_insert_is_Some'. now left.
        -- eapply Hall; eassumption.
Qed.

(** X26: on every invocation that the grammar accepts, [parse_statement]
    returns [Ok]: it neither fails nor panics. The pair of the invocation
    holds the name of the rule and then its arguments, each a name and a
    value or a value alone. When a Rule is returned, its kind is that name,
    every argument has its key among the attributes, and every attribute is
    the [Value::String] of the text of the value pair of an argument with
    that key: the value is taken as it stands in the file, so that lists,
    numbers and booleans are not decoded and the quotes of a string are
    kept. *)
Theorem invocation_attributes_are_raw_text (package_name text : string)
    (pairs : list Pair) :
  BuildParser_parse R_function_call text = Ok pairs ->
  exists p name args,
    pairs = [p]
    /\ as_rule p = R_function_call
    /\ into_inner p = name :: args
    /\ Forall is_argument args
    /\ (parse_statement package_name p = Ok None
        \/ exists r,
             parse_statement package_name p = Ok (Some r)
             /\ kind r = as_str name
             /\ (forall key x,
                   attributes r !! key = Some x ->
                   exists arg v,
                     arg ∈ args /\ binds arg key v
                     /\ as_rule v = R_value /\ x = VString (as_str v))
             /\ (forall arg key v,
                   arg ∈ args -> binds arg key v ->
                   is_Some (attributes r !! key))).
Proof.
  unfold BuildParser_parse.
  destruct (run text (budget text) false (Call R_function_call) 0 text)
    as [| |p1 r1 toks] eqn:Hrun; try discriminate.
  intros [= <-].
  apply invocation_pair in Hrun as (ptext & start & name & args & -> & Hname & Hargs).
  eexists _, name, args. split; [reflexivity|]. split; [reflexivity|].
  split; [reflexivity|]. split; [exact Hargs|].
  unfold parse_statement. simpl.
  destruct (is_bazel_rule (as_str name)); simpl; [|now left].
  destruct (collect_raw args ∅ Hargs) as (attrs & -> & Hfrom & _ & Hall).
  simpl. destruct (attrs !! "name") as [[n| | | | | |]|]; try (now left).
  right. eexists. split; [reflexivity|]. split; [reflexivity|]. split; [|exact Hall].
  intros key x Hx. destruct (Hfrom key x Hx) as [Hempty|Hfound]; [|exact Hfound].
  rewrite lookup_empty in Hempty. discriminate.
Qed.

End RawAttributes.

(** The rule of the scenario: the name keeps its quotes, the lists are
    text. *)
Lemma invocation_attributes_are_raw_text_witness :
  (Parser.attributes <$> Samples.server_rule)
  = Some (<["name" := Parser.VString "'server'"]>
            (<["srcs" := Parser.VString "['main.go']"]>
               (<["deps" := Parser.VString "[':lib']"]> ∅)))
  /\ (Parser.name <$> Samples.server_rule) = Some "//pkg:'server'"
  /\ exists p name args,
       [Workspace.call_of Workspace.server_build] = [p]
       /\ Pest.as_rule p = Pest.R_function_call
       /\ Pest.into_inner p = name :: args
       /\ Forall Shape.is_argument args
       /\ (Parser.parse_statement "pkg" p = Ok None
           \/ exists r,
                Parser.parse_statement "pkg" p = Ok (Some r)
                /\ Parser.kind r = Pest.as_str name
                /\ (forall key x,
                      Parser.attributes r !! key = Some x ->
                      exists arg v,
                        arg ∈ args /\ Shape.binds arg key v
                        /\ Pest.as_rule v = Pest.R_value
                        /\ x = Parser.VString (Pest.as_str v))
                /\ (forall arg key v,
                      arg ∈ args -> Shape.binds arg key v ->
                      is_Some (Parser.attributes r !! key))).
Proof.
  split; [vm_compute; reflexivity|]. split; [vm_compute; reflexivity|].
  apply (invocation_attributes_are_raw_text "pkg" Workspace.server_build
           [Workspace.call_of Workspace.server_build]).
  vm_compute. reflexivity.
Defined.

(** * Number literals, from the grammar to [parse_value] *)

Section NumberFacts.

Import Pest Parser.

Variable src : string.

Lemma strip_prefix_Some (s : string) : forall rest rest',
  strip_prefix s rest = Some rest' -> rest = s +:+ rest'.
Proof.
  induction s as [|c s IH]; intros rest rest'; simpl.
  - now intros [= ->].
  - destruct rest as [|d rest]; [discriminate|].
    destruct (Ascii.eqb_spec c d) as [->|_]; [|discriminate].
    intros Hs. now rewrite (IH _ _ Hs).
Qed.

Lemma take_str_app (s : string) : forall rest,
  take_str (String.length s) (s +:+ rest) = s.
Proof.
  induction s as [|c s IH]; intros rest; simpl.
  - now destruct rest.
  - now rewrite IH.
Qed.

(** Inside an atomic rule nothing is skipped between the parts of a
    sequence. *)
Lemma run_Seq_atomic fuel x y pos rest p r toks :
  run src fuel true (Seq x y) pos rest = Matched p r toks ->
  exists fuel' p1 r1 t1 t3,
    fuel = S fuel'
    /\ run src fuel' true x pos rest = Matched p1 r1 t1
    /\ run src fuel' true y p1 r1 = Matched p r t3.
Proof.
  destruct fuel as [|fuel]; [discriminate|]. cbn [run]. unfold step.
  destruct (run src fuel true x pos rest) as [| |p1 r1 t1] eqn:Hx; try discriminate.
  destruct (run src fuel true y p1 r1) as [| |p3 r3 t3] eqn:Hy; try discriminate.
  intros [= <- <- <-]. exists fuel, p1, r1, t1, t3. auto.
Qed.

Lemma run_digit fuel pos rest p r toks :
  run src fuel true ASCII_DIGIT pos rest = Matched p r toks ->
  exists c, rest = String c r /\ is_digit c = true /\ p = S pos.
Proof.
  destruct fuel as [|fuel]; [discriminate|]. cbn [run]. unfold step, one_char.
  destruct rest as [|c rest]; [discriminate|].
  destruct (is_digit c) eqn:Hc; [|discriminate].
  intros [= <- <- _]. eauto.
Qed.

(** What a repetition of digits reads: digits, and nothing else. *)
Lemma run_digits fuel : forall pos rest p r toks,
  run src fuel true (Rep ASCII_DIGIT) pos rest = Matched p r toks ->
  exists ds,
    rest = ds +:+ r
    /\ Forall (fun c => is_digit c = true) (list_ascii_of_string ds)
    /\ p = pos + String.length ds.
Proof.
  induction fuel as [|fuel IH]; intros pos rest p r toks; [discriminate|].
  cbn [run]. unfold step.
  destruct (run src fuel true ASCII_DIGIT pos rest) as [| |p2 r2 t2] eqn:Hd;
    try discriminate.
  - intros [= <- <- _]. exists EmptyString. split; [reflexivity|].
    split; [constructor | simpl; lia].
  - destruct (run src fuel true (Rep ASCII_DIGIT) p2 r2) as [| |p3 r3 t3] eqn:Hr;
      try discriminate.
    intros [= <- <- _].
    apply run_digit in Hd as (c & -> & Hc & ->).
    apply IH in Hr as (ds & -> & Hds & ->).
    exists (String c ds). split; [reflexivity|].
    split; [now constructor | simpl; lia].
Qed.

(** The text that the body of [number] reads. *)
Lemma run_number_body fuel pos rest p r toks :
  run src fuel true (snd (grammar R_number)) pos rest = Matched p r toks ->
  exists sign digits,
    rest = sign +:+ digits +:+ r
    /\ (sign = EmptyString \/ sign = "-")
    /\ digits <> EmptyString
    /\ Forall (fun c => is_digit c = true) (list_ascii_of_string digits)
    /\ p = pos + String.length (sign +:+ digits).
Proof.
  simpl. intros Hrun.
  apply run_Seq_atomic in Hrun as (f1 & p1 & r1 & t1 & t3 & -> & Hsign & Hdigits).
  assert (Hs : exists sign, rest = sign +:+ r1
                            /\ (sign = EmptyString \/ sign = "-")
                            /\ p1 = pos + String.length sign).
  { destruct f1 as [|f1]; [discriminate|]. cbn [run] in Hsign. unfold step in Hsign.
    destruct (run src f1 true (Str "-") pos rest) as [| |p0 r0 t0] eqn:Hminus;
      try discriminate.
    - injection Hsign as <- <- _. exists EmptyString. simpl. split; [reflexivity|].
      split; [now left | lia].
    - injection Hsign as <- <- _.
      destruct f1 as [|f1]; [discriminate|]. cbn [run] in Hminus. unfold step in Hminus.
      destruct (strip_prefix "-" rest) as [rest'|] eqn:Hp; [|discriminate].
      injection Hminus as <- <- _. apply strip_prefix_Some in Hp.
      exists "-". split; [exact Hp|]. split; [now right | reflexivity]. }
  destruct Hs as (sign & -> & Hsign' & ->).
  destruct f1 as [|f1]; [discriminate|]. cbn [run] in Hdigits. unfold step in Hdigits.
  destruct (run src f1 true ASCII_DIGIT (pos + String.length sign) r1)
    as [| |p2 r2 t2] eqn:Hfirst; try discriminate.
  destruct (run src f1 true (Rep ASCII_DIGIT) p2 r2) as [| |p3 r3 t3'] eqn:Hmore;
    try discriminate.
  injection Hdigits as <- <- _.
  apply run_digit in Hfirst as (c & -> & Hc & ->).
  apply run_digits in Hmore as (ds & -> & Hds & ->).
  exists sign, (String c ds). split; [reflexivity|]. split; [exact Hsign'|].
  split; [discriminate|]. split; [now constructor|].
  destruct Hsign' as [->| ->]; simpl; lia.
Qed.

(** The pair of a rule called outside an atomic rule spans what its body
    has read. *)
Lemma run_Call_span fuel rule pos rest p r toks :
  run src fuel false (Call rule) pos rest = Matched p r toks ->
  silent (fst (grammar rule)) = false ->
  exists fuel' inner,
    fuel = S fuel'
    /\ run src fuel' (atomic_body (fst (grammar rule))) (snd (grammar rule)) pos rest
       = Matched p r inner
    /\ toks = [MkPair rule (take_str (p - pos) rest) (line_col_from 1 1 pos src)
                 (if atomic_body (fst (grammar rule)) then [] else inner)].
Proof.
  destruct fuel as [|fuel]; [discriminate|]. cbn [run]. unfold step at 1.
  intros Hrun Hsilent. rewrite Hsilent in Hrun. simpl in Hrun.
  destruct (run src fuel (atomic_body (fst (grammar rule))) (snd (grammar rule))
              pos rest) as [| |p1 r1 inner] eqn:Hbody; try discriminate.
  inversion Hrun; subst. eauto.
Qed.

End NumberFacts.

Section NumberValue.

Import Pest Parser.

Lemma digit_value_range (c : ascii) :
  is_digit c = true -> (0 <= Z.of_nat (nat_of_ascii c - 48) <= 9)%Z.
Proof.
  unfold is_digit. intros Hc. apply andb_true_iff in Hc as [Hlo Hhi].
  apply Nat.leb_le in Hlo, Hhi. lia.
Qed.

(** The value of a run of digits lies between what was read before it,
    shifted, and the next number of as many digits. *)
Lemma digits_value_bound (s : string) : forall acc,
  Forall (fun c => is_digit c = true) (list_ascii_of_string s) ->
  exists v,
    digits_value acc s = Some v
    /\ (acc * 10 ^ Z.of_nat (String.length s) <= v
        < (acc + 1) * 10 ^ Z.of_nat (String.length s))%Z.
Proof.
  induction s as [|c s IH]; intros acc Hs; simpl.
  - exists acc. split; [reflexivity | simpl; lia].
  - inversion Hs as [|? ? Hc Hrest]; subst. rewrite Hc.
    destruct (IH (10 * acc + Z.of_nat (nat_of_ascii c - 48))%Z Hrest)
      as (v & -> & Hlo & Hhi).
    exists v. split; [reflexivity|].
    pose proof (digit_value_range c Hc) as Hd.
    rewrite Nat2Z.inj_succ, Z.pow_succ_r by lia.
    assert (Hpos : (0 < 10 ^ Z.of_nat (String.length s))%Z)
      by (apply Z.pow_pos_nonneg; lia).
    nia.
Qed.

Lemma parse_i64_of_literal (sign digits : string) :
  sign = EmptyString \/ sign = "-" ->
  digits <> EmptyString ->
  Forall (fun c => is_digit c = true) (list_ascii_of_string digits) ->
  exists v,
    digits_value 0 digits = Some v
    /\ (0 <= v < 10 ^ Z.of_nat (String.length digits))%Z
    /\ parse_i64 (sign +:+ digits)
       = let n := (if String.eqb sign "-" then - v else v)%Z in
         if ((- 2 ^ 63 <=? n) && (n <=? 2 ^ 63 - 1))%Z then Some n else None.
Proof.
  intros Hsign Hne Hds.
  destruct (digits_value_bound digits 0 Hds) as (v & Hv & Hlo & Hhi).
  exists v. split; [exact Hv|]. split; [lia|].
  destruct digits as [|c ds]; [contradiction|].
  destruct Hsign as [->| ->].
  - change (EmptyString +:+ String c ds) with (String c ds). unfold parse_i64.
    inversion Hds as [|? ? Hc _]; subst.
    assert (Hm : Ascii.eqb c "-"%char = false).
    { destruct (Ascii.eqb_spec c "-"%char) as [->|]; [discriminate Hc | reflexivity]. }
    assert (Hp : Ascii.eqb c "+"%char = false).
    { destruct (Ascii.eqb_spec c "+"%char) as [->|]; [discriminate Hc | reflexivity]. }
    rewrite Hm, Hp, Hv. reflexivity.
  - change ("-" +:+ String c ds) with (String "-"%char (String c ds)).
    unfold parse_i64. rewrite Ascii.eqb_refl, Hv. reflexivity.
Qed.

(** X4: a number as the grammar reads it always reaches the integer parser
    in a form it accepts: an optional minus sign and at least one digit, at
    the start of the input. [parse_value] then gives the number that the
    digits denote, negated after a minus sign, and fails, with the integer
    error, only when that number is outside the 64-bit range, which takes
    at least 19 digits; it never panics. *)
Theorem number_literal_parses (text : string) (pairs : list Pair) :
  BuildParser_parse R_number text = Ok pairs ->
  exists sign digits rest start v,
    text = sign +:+ digits +:+ rest
    /\ pairs = [MkPair R_number (sign +:+ digits) start []]
    /\ (sign = EmptyString \/ sign = "-")
    /\ digits <> EmptyString
    /\ Forall (fun c => is_digit c = true) (list_ascii_of_string digits)
    /\ digits_value 0 digits = Some v
    /\ let n := (if String.eqb sign "-" then - v else v)%Z in
       ((- 2 ^ 63 <= n <= 2 ^ 63 - 1)%Z
        /\ parse_value (MkPair R_number (sign +:+ digits) start []) = Ok (VNumber n))
       \/ (~ (- 2 ^ 63 <= n <= 2 ^ 63 - 1)%Z
           /\ 19 <= String.length digits
           /\ parse_value (MkPair R_number (sign +:+ digits) start [])
              = Err ParseIntError).
Proof.
  unfold BuildParser_parse.
  destruct (run text (budget text) false (Call R_number) 0 text)
    as [| |p1 r1 toks] eqn:Hrun; try discriminate.
  intros [= <-].
  apply run_Call_span in Hrun as (f1 & inner & _ & Hbody & ->); [|reflexivity].
  apply run_number_body in Hbody as (sign & digits & Htext & Hsign & Hne & Hds & ->).
  destruct (parse_i64_of_literal sign digits Hsign Hne Hds) as (v & Hv & Hrange & Hparse).
  exists sign, digits, r1, (line_col_from 1 1 0 text), v.
  assert (Hspan : take_str (0 + String.length (sign +:+ digits) - 0) text
                  = sign +:+ digits).
  { rewrite Htext, Nat.add_0_l, Nat.sub_0_r. destruct Hsign as [->| ->].
    - change (take_str (String.length digits) (digits +:+ r1) = digits).
      apply take_str_app.
    - change (take_str (String.length (String "-"%char digits))
                (String "-"%char (digits +:+ r1))
              = String "-"%char digits).
      cbn [String.length take_str]. now rewrite take_str_app. }
  rewrite Hspan. cbn [atomic_body fst grammar atomic_rule].
  split; [exact Htext|]. split; [reflexivity|]. split; [exact Hsign|].
  split; [exact Hne|]. split; [exact Hds|]. split; [exact Hv|].
  cbn zeta. cbn [parse_value]. rewrite Hparse. cbn zeta.
  set (n := (if String.eqb sign "-" then - v else v)%Z).
  destruct ((- 2 ^ 63 <=? n) && (n <=? 2 ^ 63 - 1))%Z eqn:Hfits.
  - left. apply andb_true_iff in Hfits as [Hlo Hhi].
    apply Z.leb_le in Hlo, Hhi. split; [lia | reflexivity].
  - right. split; [|split; [|reflexivity]].
    + intros [Hlo Hhi]. apply Z.leb_le in Hlo, Hhi. now rewrite Hlo, Hhi in Hfits.
    + destruct (Nat.le_gt_cases 19 (String.length digits)) as [Hlen|Hlen];
        [exact Hlen|].
      assert (Hpow : (10 ^ Z.of_nat (String.length digits) <= 10 ^ 18)%Z)
        by (apply Z.pow_le_mono_r; lia).
      assert (Hin : (- 2 ^ 63 <= n <= 2 ^ 63 - 1)%Z).
      { change (2 ^ 63)%Z with 9223372036854775808%Z.
        change (10 ^ 18)%Z with 1000000000000000000%Z in Hpow.
        subst n. destruct (String.eqb sign "-"); lia. }
      destruct Hin as [Hlo Hhi]. apply Z.leb_le in Hlo, Hhi.
      now rewrite Hlo, Hhi in Hfits.
Qed.

End NumberValue.

Lemma number_literal_parses_witness :
  Parser.parse_value (Samples.pair_of Pest.R_number "-42") = Ok (Parser.VNumber (-42))
  /\ Parser.parse_value (Samples.pair_of Pest.R_number "99999999999999999999")
     = Err ParseIntError
  /\ exists sign digits rest start v,
       "-42" = sign +:+ digits +:+ rest
       /\ [Samples.pair_of Pest.R_number "-42"]
          = [Pest.MkPair Pest.R_number (sign +:+ digits) start []]
       /\ (sign = EmptyString \/ sign = "-")
       /\ digits <> EmptyString
       /\ Forall (fun c => Pest.is_digit c = true) (list_ascii_of_string digits)
       /\ Parser.digits_value 0 digits = Some v
       /\ let n := (if String.eqb sign "-" then - v else v)%Z in
          ((- 2 ^ 63 <= n <= 2 ^ 63 - 1)%Z
           /\ Parser.parse_value (Pest.MkPair Pest.R_number (sign +:+ digits) start [])
              = Ok (Parser.VNumber n))
          \/ (~ (- 2 ^ 63 <= n <= 2 ^ 63 - 1)%Z
              /\ 19 <= String.length digits
              /\ Parser.parse_value
                   (Pest.MkPair Pest.R_number (sign +:+ digits) start [])
                 = Err ParseIntError).
Proof.
  split; [vm_compute; reflexivity|]. split; [vm_compute; reflexivity|].
  apply (number_literal_parses "-42" [Samples.pair_of Pest.R_number "-42"]).
  vm_compute. reflexivity.
Defined.

(** * [parse] over the derived parser *)

(** X27: with the parser derived from the grammar, [parse] never returns a
    Rule. The pairs returned for [file] are the one pair of the whole file,
    which is not an invocation, so whenever [parse] returns [Ok] its vector
    is empty, whatever rules the file holds. *)
Theorem parse_with_derived_parser_yields_no_rule (package_name content : string)
    (rules : list Parser.Rule) :
  Parser.parse package_name Pest.BuildParser_parse content = Ok rules ->
  rules = [].
Proof.
  intros Hparse.
  destruct (Pest.BuildParser_parse Pest.R_file content) as [pairs| |] eqn:Hp.
  - rewrite (parse_of_accepted_file package_name content pairs Hp) in Hparse.
    now injection Hparse as <-.
  - unfold Parser.parse in Hparse. rewrite Hp in Hparse. discriminate.
  - unfold Parser.parse in Hparse. rewrite Hp in Hparse. discriminate.
Qed.

Lemma parse_with_derived_parser_yields_no_rule_witness :
  Workspace.parse_fn Workspace.server_build = Ok []
  /\ @nil Parser.Rule = [].
Proof.
  split; [vm_compute; reflexivity|].
  apply (parse_with_derived_parser_yields_no_rule "pkg" Workspace.server_build []).
  vm_compute. reflexivity.
Defined.
